(** * Animal_grouper: a shallow embedding of [function.py]

    The Python class [Animal_grouper] deals a column of animal weights
    into [group_amount] groups by shuffling and round-robin distribution,
    and repeats the deal until no group's standard deviation exceeds
    [threshold] times the standard deviation of the whole sample.

    Modelling choices.
    - Weights, the threshold and the standard deviations are binary64
      numbers, Rocq's primitive floats, with IEEE 754 rounding, infinities
      and [nan]; a decimal literal denotes the nearest binary64 value, as
      it does in Python.  [np.std] is numpy's algorithm: the mean and the
      mean of the squared deviations, each sum taken by numpy's pairwise
      summation.  An integer weight column is converted value by value,
      exactly below 2^53.
    - The process-wide random source of module [random] is an infinite
      tape of raw draws with a cursor; [randbelow n] reads one draw and
      reduces it modulo [n], so every run of the real generator is the run
      of some tape.
    - numpy arrays are mutable and passed by reference: they live in a
      heap of arrays, addressed by position.
    - Every failure is an exception value; loops that Python writes with
      [while] take a fuel argument, and the entry points supply enough of
      it (this is proved).  *)

From Stdlib Require Import Floats.
From Stdlib Require Import String DecimalString.
From Stdlib Require DecimalNat.
From Stdlib Require Import List Arith ZArith Lia Bool Permutation.
From Stdlib Require Import Reals Lra.
Import ListNotations.

#[local] Set Warnings "-inexact-float".
#[local] Open Scope nat_scope.

(** ** Exceptions and outcomes *)

(** The exceptions the program and the libraries under it can raise.  The
    two [ValueError]s of [function.py] are told apart by their message. *)
Inductive exn : Type :=
| ValueError_columns
    (* ValueError("Uploaded data must contain 'Weight' and 'Sex' columns.") *)
| ValueError_groups (expected got : nat)
    (* ValueError(f"Expected {group_amount} groups, but got {num_groups}.") *)
| OverRetryException (tried : nat)
    (* OverRetryException(f"Tried {MAX_RETRIES} times. The deviation is too big.") *)
| ZeroDivisionError
    (* [//] and [%] by zero *)
| IndexError
    (* subscript out of range, [random.choice] of an empty sequence *)
| ValueError_not_in_list
    (* [list.index] of an absent value *)
| ValueError_inhomogeneous
    (* numpy: a nested sequence whose rows differ in length is no array *)
| ValueError_length (values index : nat).
    (* pandas: "Length of values does not match length of index" *)

(** The error kinds of the specification (section 7). *)
Inductive error_kind : Type :=
| SchemaError | RetryExhausted | ShapeError | Unclassified.

Definition kind_of (e : exn) : error_kind :=
  match e with
  | ValueError_columns => SchemaError
  | ValueError_groups _ _ => ShapeError
  | OverRetryException _ => RetryExhausted
  | _ => Unclassified
  end.

Inductive outcome (A : Type) : Type :=
| Ok (a : A)
| Raise (e : exn)
| OutOfFuel.

Arguments Ok {A} a.
Arguments Raise {A} e.
Arguments OutOfFuel {A}.

(** ** Lists as Python lists *)

(** [l[i] = v] for [i] in range; the callers test the range themselves. *)
Fixpoint list_set {A : Type} (i : nat) (v : A) (l : list A) : list A :=
  match l, i with
  | [], _ => []
  | _ :: t, O => v :: t
  | h :: t, S i' => h :: list_set i' v t
  end.

(** [l[i]], raising [IndexError] out of range. *)
Definition getitem {A : Type} (l : list A) (i : nat) : outcome A :=
  match nth_error l i with
  | Some v => Ok v
  | None => Raise IndexError
  end.

(** [l.index(v)] on a list of integers: the first position of [v]. *)
Fixpoint list_index (v : nat) (l : list nat) : outcome nat :=
  match l with
  | [] => Raise ValueError_not_in_list
  | h :: t =>
      if h =? v then Ok 0
      else match list_index v t with
           | Ok k => Ok (S k)
           | Raise e => Raise e
           | OutOfFuel => OutOfFuel
           end
  end.

(** [l.pop(i)]: the list without its element at [i]. *)
Fixpoint list_pop {A : Type} (i : nat) (l : list A) : outcome (list A) :=
  match l, i with
  | [], _ => Raise IndexError
  | _ :: t, O => Ok t
  | h :: t, S i' =>
      match list_pop i' t with
      | Ok t' => Ok (h :: t')
      | Raise e => Raise e
      | OutOfFuel => OutOfFuel
      end
  end.

(** ** numpy's standard deviation *)

(** The element count of an array as a binary64 number, the divisor of
    numpy's mean (exact below 2^53). *)
Definition float_of_nat (n : nat) : float :=
  PrimFloat.of_uint63 (Uint63.of_Z (Z.of_nat n)).

(** The loop [for (i = 0; i < n; i++) res += a[i]] of numpy's
    [pairwise_sum]. *)
Definition add_each (res : float) (a : list float) : float :=
  fold_left PrimFloat.add a res.

(** The unrolled loop of [pairwise_sum]: [blocks] times, the next eight
    entries of [a] are added to the eight accumulators [r]. *)
Fixpoint add_lanes (blocks : nat) (r a : list float) : list float * list float :=
  match blocks with
  | O => (r, a)
  | S blocks' =>
      add_lanes blocks'
                (map (fun p => (fst p + snd p)%float) (combine r (firstn 8 a)))
                (skipn 8 a)
  end.

(** [pairwise_sum] on 8 to 128 entries: eight accumulators start from the
    first eight entries and take the further blocks of eight; they are
    added as [((r0+r1)+(r2+r3))+((r4+r5)+(r6+r7))], and the entries left
    over are added one by one. *)
Definition unrolled_sum (a : list float) : float :=
  let '(r, rest) := add_lanes (length a / 8 - 1) (firstn 8 a) (skipn 8 a) in
  match r with
  | [r0; r1; r2; r3; r4; r5; r6; r7] =>
      add_each (((r0 + r1) + (r2 + r3)) + ((r4 + r5) + (r6 + r7)))%float rest
  | _ => add_each (-0)%float a
  end.

(** numpy's [pairwise_sum], which [np.add.reduce] runs on a contiguous
    array: below 8 entries a plain loop, up to 128 entries the unrolled
    loop, above that the sum of the two halves, the first one a multiple
    of 8 long.  The halves are shorter than the whole, so fuel equal to
    the length is never used up. *)
Fixpoint pairwise_sum (fuel : nat) (a : list float) : float :=
  let n := length a in
  if n <? 8 then add_each (-0)%float a
  else if n <=? 128 then unrolled_sum a
  else
    match fuel with
    | O => PrimFloat.nan
    | S fuel' =>
        let n2 := n / 2 - (n / 2) mod 8 in
        (pairwise_sum fuel' (firstn n2 a) + pairwise_sum fuel' (skipn n2 a))%float
    end.

(** [np.add.reduce] over all the entries of a contiguous array. *)
Definition add_reduce (a : list float) : float := pairwise_sum (length a) a.

(** [np.std] of a flat sequence (numpy's [_var] and [_std], [ddof = 0]):
    [arrmean = sum(arr) / n; x = arr - arrmean; x = x * x;
    ret = sqrt(sum(x) / n)].  On an empty array both quotients are [0 / 0]
    and the result is [nan]. *)
Definition np_std (a : list float) : float :=
  let n := float_of_nat (length a) in
  let arrmean := (add_reduce a / n)%float in
  let x := map (fun v => (v - arrmean)%float) a in
  let x := map (fun v => (v * v)%float) x in
  PrimFloat.sqrt (add_reduce x / n).

(** Whether a list of lists is rectangular, that is, converts to a
    two-dimensional array. *)
Definition homogeneous (grouped_data : list (list float)) : bool :=
  match grouped_data with
  | [] => true
  | g0 :: rest => forallb (fun g => length g =? length g0) rest
  end.

(** [np.std] of a list of lists.  The argument is first converted to an
    array: rows of one length give a contiguous two-dimensional array,
    reduced over all its entries in row order; rows of different lengths
    are refused. *)
Definition np_std_nested (grouped_data : list (list float)) : outcome float :=
  if homogeneous grouped_data then Ok (np_std (concat grouped_data))
  else Raise ValueError_inhomogeneous.

(** ** The standard deviation of the specification *)

Definition sum_R (l : list R) : R := fold_right Rplus 0%R l.

(** The population standard deviation in the words of the specification:
    the square root of the average squared deviation from the mean,
    divisor [n]; [0] with zero or one elements. *)
Definition population_standard_deviation (l : list R) : R :=
  match l with
  | [] => 0%R
  | [_] => 0%R
  | _ => sqrt (sum_R (map (fun x => Rsqr (x - sum_R l / INR (length l))) l)
               / INR (length l))
  end.

(** The real number a finite binary64 value stands for: [m * 2^e] with
    its sign.  (The infinities and [nan] stand for no real number; they
    are sent to 0.) *)
Definition real_of (x : float) : R :=
  match Prim2SF x with
  | S754_finite s m e =>
      let magnitude :=
        match e with
        | Zneg p => (IZR (Zpos m) / IZR (2 ^ Zpos p)%Z)%R
        | _ => IZR (Zpos m * 2 ^ e)%Z
        end in
      if s then (- magnitude)%R else magnitude
  | _ => 0%R
  end.

(** ** The dispersion test *)

Section Acceptance.

Variable threshold : float.

(** [check_std_deviation_within_threshold]: despite its name the
    function answers [True] when some group's deviation EXCEEDS the
    bound, and the callers loop while it does. *)
Definition check_std_deviation_within_threshold
    (grouped_data : list (list float)) : outcome bool :=
  let std_of_each_group := map np_std grouped_data in
  match np_std_nested grouped_data with
  | Ok ref_std =>
      Ok (existsb (fun s => (ref_std * threshold <? s)%float) std_of_each_group)
  | Raise e => Raise e
  | OutOfFuel => OutOfFuel
  end.

End Acceptance.

(** ** The state of a run *)

(** The random source (a tape of raw draws and the position of the next
    one), the heap of numpy arrays, and a ghost log of the verdicts
    [check_std_deviation_within_threshold] has returned to the two retry
    loops, latest first.  The log is not in the program: it is there to
    count rejected attempts. *)
Record State : Type := mkState {
  draws : nat -> nat;
  cursor : nat;
  heap : list (list float);
  verdicts : list bool
}.

Definition M (A : Type) : Type := State -> outcome A * State.

Definition ret {A : Type} (a : A) : M A := fun s => (Ok a, s).

Definition raise {A : Type} (e : exn) : M A := fun s => (Raise e, s).

Definition lift {A : Type} (o : outcome A) : M A := fun s => (o, s).

Definition bind {A B : Type} (m : M A) (k : A -> M B) : M B :=
  fun s =>
    match m s with
    | (Ok a, s') => k a s'
    | (Raise e, s') => (Raise e, s')
    | (OutOfFuel, s') => (OutOfFuel, s')
    end.

Declare Scope monad_scope.
Delimit Scope monad_scope with monad.
Notation "x <- m ;; k" := (bind m (fun x => k))
  (at level 61, m at next level, right associativity) : monad_scope.
Notation "m ;;; k" := (bind m (fun _ => k))
  (at level 61, right associativity) : monad_scope.
Open Scope monad_scope.

(** [random._randbelow(n)] for [n > 0] (it is never called with 0 here):
    one draw, reduced to [range(n)]. *)
Definition randbelow (n : nat) : M nat :=
  fun s =>
    (Ok (draws s (cursor s) mod n),
     mkState (draws s) (S (cursor s)) (heap s) (verdicts s)).

(** A reference to a numpy array. *)
Definition ref : Type := nat.

(** [np.array(values)]: a fresh array holding a copy of [values]. *)
Definition np_array (values : list float) : M ref :=
  fun s =>
    (Ok (length (heap s)),
     mkState (draws s) (cursor s) (heap s ++ [values]) (verdicts s)).

Definition read (a : ref) : M (list float) :=
  fun s => (getitem (heap s) a, s).

Definition write (a : ref) (values : list float) : M unit :=
  fun s =>
    (Ok tt, mkState (draws s) (cursor s) (list_set a values (heap s)) (verdicts s)).

(** [x[i], x[j] = x[j], x[i]] on the array [x]. *)
Definition exchange (x : ref) (i j : nat) : M unit :=
  xs <- read x;;
  xj <- lift (getitem xs j);;
  xi <- lift (getitem xs i);;
  write x (list_set j xi (list_set i xj xs)).

(** The loop of [random.shuffle]:
    [for i in reversed(range(1, len(x))): j = randbelow(i + 1); x[i], x[j] = x[j], x[i]],
    entered at [i]. *)
Fixpoint shuffle_from (i : nat) (x : ref) : M unit :=
  match i with
  | O => ret tt
  | S i' =>
      j <- randbelow (i + 1);;
      exchange x i j;;;
      shuffle_from i' x
  end.

(** [random.shuffle(x)]: shuffles the array in place. *)
Definition random_shuffle (x : ref) : M unit :=
  xs <- read x;;
  shuffle_from (length xs - 1) x.

(** [random.choice(seq)]. *)
Definition random_choice (seq : list nat) : M nat :=
  match seq with
  | [] => raise IndexError
  | _ :: _ =>
      j <- randbelow (length seq);;
      lift (getitem seq j)
  end.

(** Python's [a // b] and [a % b] on naturals. *)
Definition floordiv (a b : nat) : outcome nat :=
  if b =? 0 then Raise ZeroDivisionError else Ok (a / b).

Definition pymod (a b : nat) : outcome nat :=
  if b =? 0 then Raise ZeroDivisionError else Ok (a mod b).

(** ** pandas: the output table *)

(** A frame under construction: the length of its index and its columns
    in order.  A cell is a number or the missing-value marker [None]. *)
Record Frame : Type := mkFrame {
  index_length : nat;
  frame_columns : list (string * list (option float))
}.

Definition empty_frame : Frame := mkFrame 0 [].

(** [df[key] = values] for a list [values] and a [key] not yet in the
    frame (the labels "Group 1", "Group 2", ... are pairwise distinct).
    A frame whose index is empty takes its index from a non-empty
    [values], and fills the columns it already has with the missing
    marker; after that the length of [values] must be the length of the
    index, or pandas raises [ValueError]. *)
Definition setitem (df : Frame) (key : string) (values : list float)
  : outcome Frame :=
  let df1 :=
    if (index_length df =? 0) && negb (length values =? 0)
    then mkFrame (length values)
                 (map (fun c => (fst c, repeat None (length values)))
                      (frame_columns df))
    else df in
  if length values =? index_length df1
  then Ok (mkFrame (index_length df1)
                   (frame_columns df1 ++ [(key, map Some values)]))
  else Raise (ValueError_length (length values) (index_length df1)).

(** [f"Group {i+1}"]. *)
Definition column_name (i : nat) : string :=
  ("Group " ++ NilEmpty.string_of_uint (Nat.to_uint (i + 1)))%string.

(** The input table: the names of its columns, and the contents of the
    columns "Weight" and "Sex", which matter only when the names are
    there.  A weight column is numeric. *)
Record DataFrame : Type := mkDataFrame {
  df_columns : list string;
  df_weight : list float;
  df_sex : list string
}.

(** [np.array(df[df["Sex"] == sex]["Weight"])], before the copy. *)
Definition weights_of_sex (sex : string) (df : DataFrame) : list float :=
  map fst
      (filter (fun row => String.eqb (snd row) sex)
              (combine (df_weight df) (df_sex df))).

(** ** The class [Animal_grouper] *)

Definition WEIGHT_COLUMN : string := "Weight".
Definition SEX_COLUMN : string := "Sex".
Definition MAX_RETRIES : nat := 1000.

(** The object [__init__] builds. *)
Record Animal_grouper : Type := mkAnimal_grouper {
  weight_data : ref;
  result : list (list float);
  output : Frame;
  output_female : option Frame;
  output_male : option Frame
}.

Section Grouper.

Variable group_amount : nat.
Variable threshold : float.

(** The loop of [distribute_data_evenly], entered at index [i]:
    [group_index = i % group_amount; groups[group_index].append(data)]. *)
Fixpoint distribute_loop (i : nat) (datas : list float) (groups : list (list float))
  : outcome (list (list float)) :=
  match datas with
  | [] => Ok groups
  | data :: rest =>
      match pymod i group_amount with
      | Ok group_index =>
          match getitem groups group_index with
          | Ok group =>
              distribute_loop (S i) rest
                              (list_set group_index (group ++ [data]) groups)
          | Raise e => Raise e
          | OutOfFuel => OutOfFuel
          end
      | Raise e => Raise e
      | OutOfFuel => OutOfFuel
      end
  end.

Definition distribute_data_evenly (datas : list float)
  : outcome (list (list float)) :=
  let groups := repeat [] group_amount in
  distribute_loop 0 datas groups.

Definition group_randomly (datas : ref) : M (list (list float)) :=
  xs <- read datas;;
  q <- lift (floordiv (length xs) group_amount);;
  r <- lift (pymod (length xs) group_amount);;
  let max_animal_per_group := if r =? 0 then q else q + 1 in
  random_shuffle datas;;;
  shuffled <- read datas;;
  lift (distribute_data_evenly shuffled).

(** A call of [check_std_deviation_within_threshold] from a retry
    loop, with its verdict logged. *)
Definition call_check (grouped_data : list (list float)) : M bool :=
  fun s =>
    match check_std_deviation_within_threshold threshold grouped_data with
    | Ok b => (Ok b, mkState (draws s) (cursor s) (heap s) (b :: verdicts s))
    | Raise e => (Raise e, s)
    | OutOfFuel => (OutOfFuel, s)
    end.

(** The [while] loop of [group_based_on_deviation]. *)
Fixpoint deviation_loop (fuel : nat) (data : ref)
    (grouped_list : list (list float)) (counter : nat) : M (list (list float)) :=
  match fuel with
  | O => lift OutOfFuel
  | S fuel' =>
      exceeds <- call_check grouped_list;;
      if exceeds : bool then
        grouped_list' <- group_randomly data;;
        let counter' := counter + 1 in
        if MAX_RETRIES <? counter'
        then raise (OverRetryException MAX_RETRIES)
        else deviation_loop fuel' data grouped_list' counter'
      else ret grouped_list
  end.

Definition group_based_on_deviation (data : ref) : M (list (list float)) :=
  grouped_list <- group_randomly data;;
  deviation_loop (S MAX_RETRIES) data grouped_list 0.

(** The [for] loop of [combine_lists_within_threshold] over the
    remaining indices [indices] of [range(group_amount)]. *)
Fixpoint combine_for (indices : list nat) (list1 list2 : list (list float))
    (combined_list : list (list float)) (group_label : list nat)
  : M (list (list float)) :=
  match indices with
  | [] => ret combined_list
  | i :: rest =>
      number <- random_choice group_label;;
      a <- lift (getitem list1 i);;
      b <- lift (getitem list2 number);;
      let combined_list' := combined_list ++ [a ++ b] in
      k <- lift (list_index number group_label);;
      group_label' <- lift (list_pop k group_label);;
      combine_for rest list1 list2 combined_list' group_label'
  end.

(** The [while] loop of [combine_lists_within_threshold]; it is entered
    with [is_within_threshold = True]. *)
Fixpoint combine_while (fuel : nat) (list1 list2 : list (list float))
    (counter : nat) : M (list (list float)) :=
  match fuel with
  | O => lift OutOfFuel
  | S fuel' =>
      let counter' := counter + 1 in
      combined_list <-
        combine_for (seq 0 group_amount) list1 list2 [] (seq 0 group_amount);;
      if MAX_RETRIES <? counter'
      then raise (OverRetryException MAX_RETRIES)
      else
        is_within_threshold <- call_check combined_list;;
        if is_within_threshold : bool
        then combine_while fuel' list1 list2 counter'
        else ret combined_list
  end.

Definition combine_lists_within_threshold (list1 list2 : list (list float))
  : M (list (list float)) :=
  combine_while (S MAX_RETRIES) list1 list2 0.

(** The loop of [convert_to_df]: [grouped_df[f"Group {i+1}"] = grouped_list[i]]
    for the groups from index [i] on. *)
Fixpoint convert_loop (i : nat) (groups : list (list float)) (grouped_df : Frame)
  : outcome Frame :=
  match groups with
  | [] => Ok grouped_df
  | group :: rest =>
      match setitem grouped_df (column_name i) group with
      | Ok grouped_df' => convert_loop (S i) rest grouped_df'
      | Raise e => Raise e
      | OutOfFuel => OutOfFuel
      end
  end.

Definition convert_to_df (grouped_list : list (list float)) : outcome Frame :=
  let grouped_df := empty_frame in
  let num_groups := length grouped_list in
  if num_groups <? group_amount
  then Raise (ValueError_groups group_amount num_groups)
  else convert_loop 0 grouped_list grouped_df.

(** [group_based_on_deviation_and_gender]; it returns the merged groups
    and sets [output_female] and [output_male], returned here with
    them. *)
Definition group_based_on_deviation_and_gender (df : DataFrame)
  : M (list (list float) * Frame * Frame) :=
  female_weight_ndarray <- np_array (weights_of_sex "F" df);;
  male_weight_ndarray <- np_array (weights_of_sex "M" df);;
  grouped_female <- group_based_on_deviation female_weight_ndarray;;
  grouped_male <- group_based_on_deviation male_weight_ndarray;;
  grouped_both_genders <-
    combine_lists_within_threshold grouped_female grouped_male;;
  female <- lift (convert_to_df grouped_female);;
  male <- lift (convert_to_df grouped_male);;
  ret (grouped_both_genders, female, male).

(** [Animal_grouper.__init__]. *)
Definition init (df : DataFrame) (is_based_on_gender : bool) : M Animal_grouper :=
  if negb (existsb (String.eqb WEIGHT_COLUMN) (df_columns df))
     || negb (existsb (String.eqb SEX_COLUMN) (df_columns df))
  then raise ValueError_columns
  else
    data <- np_array (df_weight df);;
    if is_based_on_gender then
      r <- group_based_on_deviation_and_gender df;;
      let '(grouped, female, male) := r in
      out <- lift (convert_to_df grouped);;
      ret (mkAnimal_grouper data grouped out (Some female) (Some male))
    else
      grouped <- group_based_on_deviation data;;
      out <- lift (convert_to_df grouped);;
      ret (mkAnimal_grouper data grouped out None None).

End Grouper.

(** ** The script *)

(** What the script prints: the table of the female groups, or one line. *)
Inductive printed : Type :=
| PrintFrame (table : Frame)
| PrintLine (line : string).

(** Whether an exception is an instance of Python's [ValueError]: the
    two raised by [function.py], and those of [list.index], numpy and
    pandas. *)
Definition is_ValueError (e : exn) : bool :=
  match e with
  | ValueError_columns | ValueError_groups _ _ | ValueError_not_in_list
  | ValueError_inhomogeneous | ValueError_length _ _ => true
  | OverRetryException _ | ZeroDivisionError | IndexError => false
  end.

Definition format_line : string :=
  "Please make sure you upload the correct format file.".
Definition deviation_line : string :=
  "The deviation of the data is too big. Maybe adjust the threshold value.".
Definition fallback_line : string :=
  "Oh no... Something bad happened. Please contact me.".

(** The [except] clauses of the script, in their order: [ValueError],
    [OverRetryException], [Exception]. *)
Definition handler (e : exn) : string :=
  if is_ValueError e then format_line
  else
    match e with
    | OverRetryException _ => deviation_line
    | _ => fallback_line
    end.

(** The body of [if __name__ == "__main__"], after the table is read:
    [ag = Animal_grouper(df, 5, 1.3, True); print(ag.output_female)]
    under the three [except] clauses.  An object without the attribute
    [output_female] would give an [AttributeError], which the last
    clause catches. *)
Definition main (df : DataFrame) : M printed :=
  fun s =>
    match init 5 1.3 df true s with
    | (Ok ag, s') =>
        match output_female ag with
        | Some table => (Ok (PrintFrame table), s')
        | None => (Ok (PrintLine fallback_line), s')
        end
    | (Raise e, s') => (Ok (PrintLine (handler e)), s')
    | (OutOfFuel, s') => (OutOfFuel, s')
    end.

(** ** Round-robin counting *)

(** How many of the positions [0 .. m-1] are congruent to [k] modulo [g]. *)
Definition slot_count (g m k : nat) : nat :=
  m / g + (if k <? m mod g then 1 else 0).

(** ** Failure classes *)

(** An outcome is ordinary when it is a value or an exception other than
    the missing-column error, and not a run out of fuel. *)
Definition ordinary {A : Type} (o : outcome A) : Prop :=
  match o with
  | Ok _ => True
  | Raise e => e <> ValueError_columns
  | OutOfFuel => False
  end.

(** A computation all of whose runs end ordinarily. *)
Definition ordinarily {A : Type} (m : M A) : Prop :=
  forall s, ordinary (fst (m s)).

(** ** Labelled columns *)

(** Columns labelled as [convert_to_df] labels them, the first one with
    [f"Group {i+1}"]. *)
Definition labelled (i : nat) (columns : list (list (option float)))
  : list (string * list (option float)) :=
  combine (map column_name (seq i (length columns))) columns.

(** ** Matchings *)

(** The merged groups of a matching: for the [n]-th index [i] of
    [indices] and the [n]-th entry [number] of [matching], the group
    [list1[i] + list2[number]]. *)
Definition matched_groups (list1 list2 : list (list float))
    (indices matching : list nat) : list (list float) :=
  map (fun p => nth (fst p) list1 [] ++ nth (snd p) list2 [])
      (combine indices matching).

(** ** Heaps *)

(** [h'] is [h] but for the contents of the array [data]. *)
Definition same_except (data : ref) (h h' : list (list float)) : Prop :=
  length h' = length h
  /\ forall other, other <> data -> nth_error h' other = nth_error h other.

(** ** States to run from *)

(** A state with the given tape of draws and arrays, nothing drawn and
    nothing logged yet. *)
Definition state_with (tape : nat -> nat) (arrays : list (list float)) : State :=
  mkState tape 0 arrays [].

(** The tape whose draws are all [0]. *)
Definition zero_tape : nat -> nat := fun _ => 0.

(** A table of one female, one male and one animal of another sex. *)
Definition three_sexes : DataFrame :=
  mkDataFrame ["Weight"; "Sex"]%string [1; 2; 3]%float
              ["F"; "M"; "X"]%string.

(** ** Signs of binary64 values *)

(** A value that is not below zero: a zero of either sign, a positive
    number, plus infinity, or [nan]. *)
Definition SFnonneg (x : spec_float) : Prop :=
  match x with
  | S754_zero _ => True
  | S754_infinity s => s = false
  | S754_nan => True
  | S754_finite s _ _ => s = false
  end.

(** ** Rounding *)

(** [q'] is [M / T] rounded to the nearest integer, ties to even. *)
Definition Rounds (M T q' : Z) : Prop :=
  ((2 * q' - 1) * T <= 2 * M <= (2 * q' + 1) * T
   /\ (2 * M = (2 * q' - 1) * T -> Z.even q' = true)
   /\ (2 * M = (2 * q' + 1) * T -> Z.even q' = true))%Z.

(** The binary64 value with mantissa [q] and exponent [e] that
    [binary_round_aux] ends with. *)
Definition rounded (s : bool) (q e : Z) : spec_float :=
  match q with
  | Z0 => S754_zero s
  | Zpos p =>
      if (e <=? emax - prec)%Z then S754_finite s p e else S754_infinity s
  | Zneg _ => S754_nan
  end.

(** ** Facts on binary64 comparison *)

Lemma SFcompare_swap (x y : spec_float) :
  SFcompare y x = option_map CompOpp (SFcompare x y).
Proof.
  destruct x as [sx | sx | | sx mx ex], y as [sy | sy | | sy my ey]; simpl;
    try reflexivity;
    try (destruct sx; reflexivity);
    try (destruct sy; reflexivity);
    try (destruct sx, sy; reflexivity).
  destruct sx, sy; simpl; try reflexivity.
  - rewrite (Z.compare_antisym ex ey).
    destruct (ex ?= ey)%Z; simpl; try reflexivity.
    rewrite CompOpp_involutive. f_equal.
    exact (Pos.compare_cont_antisym my mx Eq).
  - rewrite (Z.compare_antisym ex ey).
    destruct (ex ?= ey)%Z; simpl; try reflexivity.
    f_equal. symmetry. exact (Pos.compare_cont_antisym mx my Eq).
Qed.

Lemma SFcompare_nan_iff (x y : spec_float) :
  SFcompare x y = None <-> x = S754_nan \/ y = S754_nan.
Proof.
  destruct x as [sx | sx | | sx mx ex], y as [sy | sy | | sy my ey]; simpl;
    split; intros H; try discriminate; auto;
    try (destruct H; discriminate).
Qed.

Lemma SFeqb_refl_iff (x : spec_float) : SFeqb x x = false <-> x = S754_nan.
Proof.
  unfold SFeqb. destruct x as [sx | sx | | sx mx ex]; simpl.
  - split; discriminate.
  - destruct sx; split; discriminate.
  - tauto.
  - destruct sx; rewrite Z.compare_refl, Pos.compare_cont_refl; simpl;
      split; discriminate.
Qed.

Lemma is_nan_iff (x : float) : is_nan x = true <-> Prim2SF x = S754_nan.
Proof.
  unfold is_nan. rewrite negb_true_iff, FloatAxioms.eqb_spec.
  apply SFeqb_refl_iff.
Qed.

(** [s > bound] is false exactly when [s <= bound] or one of the two is
    [nan]. *)
Lemma ltb_false_iff (bound s : float) :
  (bound <? s)%float = false
  <-> (s <=? bound)%float = true \/ is_nan s = true \/ is_nan bound = true.
Proof.
  rewrite ltb_spec, leb_spec, !is_nan_iff.
  unfold SFltb, SFleb. rewrite (SFcompare_swap (Prim2SF bound) (Prim2SF s)).
  destruct (SFcompare (Prim2SF bound) (Prim2SF s)) as [[ | | ] |] eqn:E; simpl.
  - split; auto.
  - split; [discriminate |]. intros [H | [H | H]]; [discriminate | |];
      assert (K : SFcompare (Prim2SF bound) (Prim2SF s) = None)
        by (apply SFcompare_nan_iff; auto); congruence.
  - split; auto.
  - split; [| reflexivity]. intros _. right.
    apply SFcompare_nan_iff in E. tauto.
Qed.

Lemma SFltb_zero_false (x : spec_float) :
  SFltb x (S754_zero false) = false <-> SFnonneg x.
Proof.
  destruct x as [s | s | | s m e]; simpl; unfold SFltb; simpl;
    try tauto; destruct s; simpl; split; intros; congruence.
Qed.

Lemma ltb_zero_false (x : float) :
  (x <? 0)%float = false <-> SFnonneg (Prim2SF x).
Proof.
  rewrite ltb_spec. apply SFltb_zero_false.
Qed.

(** Rounding keeps the sign. *)
Lemma binary_round_aux_sign (prec emax : Z) (s : bool) (m e : Z) (l : location) :
  match binary_round_aux prec emax s m e l with
  | S754_zero s' | S754_infinity s' | S754_finite s' _ _ => s' = s
  | S754_nan => True
  end.
Proof.
  unfold binary_round_aux.
  destruct (shr_fexp prec emax m e l) as [mrs' e'].
  destruct (shr_fexp prec emax _ e' loc_Exact) as [mrs'' e''].
  destruct (shr_m mrs''); [reflexivity | | exact I].
  destruct (e'' <=? emax - prec)%Z; reflexivity.
Qed.

Lemma SFsqrt_nonneg (prec emax : Z) (x : spec_float) :
  SFnonneg (SFsqrt prec emax x).
Proof.
  destruct x as [s | s | | s m e]; simpl; try exact I.
  - destruct s; simpl; auto.
  - destruct s; simpl; [exact I |].
    destruct (SFsqrt_core_binary prec emax (Z.pos m) e) as [[mz ez] lz].
    pose proof (binary_round_aux_sign prec emax false mz ez lz) as H.
    destruct (binary_round_aux prec emax false mz ez lz); simpl; auto.
Qed.

Lemma SFmul_nonneg (prec emax : Z) (x y : spec_float) :
  SFnonneg x -> SFnonneg y -> SFnonneg (SFmul prec emax x y).
Proof.
  destruct x as [sx | sx | | sx mx ex], y as [sy | sy | | sy my ey]; simpl;
    intros Hx Hy; subst; simpl; auto.
  pose proof (binary_round_aux_sign prec emax false (Z.pos (mx * my)) (ex + ey)
                loc_Exact) as H.
  destruct (binary_round_aux prec emax false (Z.pos (mx * my)) (ex + ey) loc_Exact);
    simpl; auto.
Qed.

Lemma sqrt_not_negative (x : float) : (PrimFloat.sqrt x <? 0)%float = false.
Proof.
  apply ltb_zero_false. rewrite sqrt_spec. apply SFsqrt_nonneg.
Qed.

Lemma mul_not_negative (x y : float) :
  (x <? 0)%float = false -> (y <? 0)%float = false -> (x * y <? 0)%float = false.
Proof.
  rewrite !ltb_zero_false, mul_spec. apply SFmul_nonneg.
Qed.

Lemma positive_not_negative (x : float) :
  (0 <? x)%float = true -> (x <? 0)%float = false.
Proof.
  rewrite ltb_zero_false, ltb_spec. change (Prim2SF 0) with (S754_zero false).
  unfold SFltb. destruct (Prim2SF x) as [s | s | | s m e]; simpl;
    try discriminate; try exact (fun _ => I); destruct s; simpl; congruence.
Qed.

(** Comparing with a zero of either sign. *)
Lemma ltb_zero_either (x z : float) :
  (z =? 0)%float = true -> (x <? z)%float = (x <? 0)%float.
Proof.
  rewrite FloatAxioms.eqb_spec, !ltb_spec.
  change (Prim2SF 0) with (S754_zero false).
  destruct (Prim2SF z) as [s | s | | s m e]; unfold SFeqb; simpl;
    try discriminate; try (destruct s; discriminate).
  intros _. unfold SFltb.
  destruct (Prim2SF x) as [s' | s' | | s' m' e']; reflexivity.
Qed.

(** ** Rounding to nearest is monotone *)

Section Rounding.

Local Open Scope Z_scope.

Lemma digits2_pos_bounds (m : positive) :
  2 ^ (Zpos (digits2_pos m) - 1) <= Zpos m < 2 ^ Zpos (digits2_pos m).
Proof.
  induction m as [p IH | p IH |]; cbn [digits2_pos].
  - rewrite Pos2Z.inj_succ.
    replace (Z.succ (Z.pos (digits2_pos p)) - 1)
      with (Z.succ (Z.pos (digits2_pos p) - 1)) by lia.
    rewrite !Z.pow_succ_r by lia. lia.
  - rewrite Pos2Z.inj_succ.
    replace (Z.succ (Z.pos (digits2_pos p)) - 1)
      with (Z.succ (Z.pos (digits2_pos p) - 1)) by lia.
    rewrite !Z.pow_succ_r by lia. lia.
  - simpl. lia.
Qed.

Lemma Zdigits2_bounds (m : Z) :
  0 < m -> 2 ^ (Zdigits2 m - 1) <= m < 2 ^ Zdigits2 m.
Proof.
  destruct m as [| p | p]; try lia. intros _. apply digits2_pos_bounds.
Qed.

Lemma Zdigits2_pos (m : Z) : 0 < m -> 0 < Zdigits2 m.
Proof. destruct m; simpl; lia. Qed.

Lemma Zdigits2_unique (m d : Z) :
  0 < m -> 2 ^ (d - 1) <= m < 2 ^ d -> Zdigits2 m = d.
Proof.
  intros Hm [H1 H2].
  pose proof (Zdigits2_bounds m Hm) as [B1 B2].
  pose proof (Zdigits2_pos m Hm) as Hd.
  assert (0 < d).
  { destruct (Z_lt_le_dec 0 d); [auto |].
    assert (2 ^ d <= 1); [| lia].
    destruct (Z.eq_dec d 0) as [-> |]; [simpl; lia |].
    rewrite Z.pow_neg_r by lia. lia. }
  destruct (Z_lt_le_dec (Zdigits2 m) d) as [L | L].
  - assert (2 ^ Zdigits2 m <= 2 ^ (d - 1))
      by (apply Z.pow_le_mono_r; lia).
    lia.
  - destruct (Z_lt_le_dec d (Zdigits2 m)) as [L' | L']; [| lia].
    assert (2 ^ d <= 2 ^ (Zdigits2 m - 1))
      by (apply Z.pow_le_mono_r; lia).
    lia.
Qed.

Lemma Zdigits2_mono (m1 m2 : Z) :
  0 < m1 -> m1 <= m2 -> Zdigits2 m1 <= Zdigits2 m2.
Proof.
  intros H1 H12.
  pose proof (Zdigits2_bounds m1 H1) as [A1 A2].
  pose proof (Zdigits2_bounds m2 ltac:(lia)) as [B1 B2].
  pose proof (Zdigits2_pos m1 H1). pose proof (Zdigits2_pos m2 ltac:(lia)).
  destruct (Z_lt_le_dec (Zdigits2 m2) (Zdigits2 m1)) as [L | L]; [| lia].
  assert (2 ^ Zdigits2 m2 <= 2 ^ (Zdigits2 m1 - 1))
    by (apply Z.pow_le_mono_r; lia).
  lia.
Qed.

Lemma iter_pos_nat (A : Type) (f : A -> A) (p : positive) (x : A) :
  SpecFloat.iter_pos f p x = Nat.iter (Pos.to_nat p) f x.
Proof.
  revert x. induction p as [p IH | p IH |]; intros x; cbn [SpecFloat.iter_pos].
  - rewrite !IH. rewrite Pos2Nat.inj_xI.
    replace (S (2 * Pos.to_nat p))%nat
      with (Pos.to_nat p + (Pos.to_nat p + 1))%nat by lia.
    rewrite !Nat.iter_add. simpl. reflexivity.
  - rewrite !IH. rewrite Pos2Nat.inj_xO.
    replace (2 * Pos.to_nat p)%nat
      with (Pos.to_nat p + Pos.to_nat p)%nat by lia.
    rewrite Nat.iter_add. reflexivity.
  - reflexivity.
Qed.

Lemma shr_1_spec (q : Z) (r s : bool) :
  0 <= q ->
  shr_1 (Build_shr_record q r s)
  = Build_shr_record (Z.div2 q) (Z.odd q) (r || s).
Proof.
  intros Hq. destruct q as [| [p | p |] | p]; try lia; reflexivity.
Qed.

(** The state after [k] one-bit shifts. *)
Lemma shr_iter (m : Z) (k : nat) :
  0 <= m ->
  exists q r s rem,
    Nat.iter k shr_1 (Build_shr_record m false false) = Build_shr_record q r s
    /\ 0 <= q /\ 0 <= rem < 2 ^ Z.of_nat k
    /\ m = q * 2 ^ Z.of_nat k + rem
    /\ (r = true <-> 2 ^ Z.of_nat k <= 2 * rem)
    /\ (s = true <-> rem <> 0 /\ 2 * rem <> 2 ^ Z.of_nat k).
Proof.
  intros Hm. induction k as [| k IH].
  - exists m, false, false, 0. simpl. repeat split; try lia; try discriminate.
  - destruct IH as (q & r & s & rem & E & Hq & Hrem & Hmq & Hr & Hs).
    rewrite Nat2Z.inj_succ, Z.pow_succ_r by lia.
    set (T := 2 ^ Z.of_nat k) in *.
    assert (HT : 0 < T) by (apply Z.pow_pos_nonneg; lia).
    rewrite Nat.iter_succ, E, shr_1_spec by exact Hq.
    pose proof (Z.div2_odd q) as Hdo.
    exists (Z.div2 q), (Z.odd q), (r || s), (rem + (if Z.odd q then T else 0)).
    split; [reflexivity |].
    assert (Hd2 : 0 <= Z.div2 q) by (apply Z.div2_nonneg; lia).
    split; [exact Hd2 |].
    destruct (Z.odd q) eqn:Eo; cbn [Z.b2z] in Hdo.
    + split; [lia |]. split; [nia |]. split.
      * split; [lia | reflexivity].
      * rewrite orb_true_iff, Hr, Hs. split; [lia |]. intros H.
        destruct (Z_le_gt_dec T (2 * rem)); [left; auto | right; lia].
    + split; [lia |]. split; [nia |]. split.
      * split; [discriminate | lia].
      * rewrite orb_true_iff, Hr, Hs. split; [lia |]. intros [H1 H2].
        destruct (Z_le_gt_dec T (2 * rem)); [left; auto | right; lia].
Qed.

Lemma Rounds_mono (M1 M2 T q1 q2 : Z) :
  0 < T -> M1 <= M2 -> Rounds M1 T q1 -> Rounds M2 T q2 -> q1 <= q2.
Proof.
  intros HT HM [[L1 U1] [Lo1 Up1]] [[L2 U2] [Lo2 Up2]].
  destruct (Z_le_gt_dec q1 q2) as [H | H]; [exact H | exfalso].
  assert (Hq : q2 + 1 <= q1) by lia.
  assert (H1 : (2 * q2 + 1) * T <= (2 * q1 - 1) * T)
    by (apply Z.mul_le_mono_nonneg_r; lia).
  assert (E1 : 2 * M1 = (2 * q1 - 1) * T) by lia.
  assert (E2 : 2 * M2 = (2 * q2 + 1) * T) by lia.
  assert (Eq : (2 * q2 + 1) * T = (2 * q1 - 1) * T) by lia.
  apply Z.mul_reg_r in Eq; [| lia].
  specialize (Lo1 E1). specialize (Up2 E2).
  replace q1 with (Z.succ q2) in Lo1 by lia.
  rewrite Z.even_succ in Lo1. rewrite <- Z.negb_even in Lo1.
  rewrite Up2 in Lo1. discriminate.
Qed.

Lemma Rounds_scale (M T q' c : Z) :
  0 < c -> Rounds M T q' -> Rounds (M * c) (T * c) q'.
Proof.
  intros Hc [[L U] [Lo Up]]. split; [split |]; [nia | nia |].
  split; intros E; [apply Lo | apply Up]; nia.
Qed.

Lemma round_nearest_even_spec (m q rem T : Z) (r s : bool) :
  0 < T -> 0 <= rem < T -> m = q * T + rem ->
  (r = true <-> T <= 2 * rem) ->
  (s = true <-> rem <> 0 /\ 2 * rem <> T) ->
  let q' := round_nearest_even q (loc_of_shr_record (Build_shr_record q r s)) in
  Rounds m T q' /\ q <= q' <= q + 1.
Proof.
  intros HT Hrem Hm Hr Hs. unfold Rounds.
  destruct r, s; cbn [loc_of_shr_record round_nearest_even].
  - (* Gt *)
    assert (T <= 2 * rem) by (apply Hr; reflexivity).
    assert (rem <> 0 /\ 2 * rem <> T) by (apply Hs; reflexivity).
    split; [| lia]. split; [nia |]. split; intros E; nia.
  - (* Eq *)
    assert (T <= 2 * rem) by (apply Hr; reflexivity).
    assert (2 * rem = T).
    { destruct (Z.eq_dec (2 * rem) T); [auto |].
      assert (false = true) by (apply Hs; lia). discriminate. }
    destruct (Z.even q) eqn:Ev.
    + split; [| lia]. split; [nia |]. split; intros E; [nia | exact Ev].
    + split; [| lia]. split; [nia |]. split; intros E; [| nia].
      replace (q + 1) with (Z.succ q) by lia.
      rewrite Z.even_succ, <- Z.negb_even, Ev. reflexivity.
  - (* Lt *)
    assert (~ T <= 2 * rem) by (intro K; apply Hr in K; discriminate).
    assert (rem <> 0 /\ 2 * rem <> T) by (apply Hs; reflexivity).
    split; [| lia]. split; [nia |]. split; intros E; nia.
  - (* Exact *)
    assert (~ T <= 2 * rem) by (intro K; apply Hr in K; discriminate).
    assert (rem = 0).
    { destruct (Z.eq_dec rem 0); [auto |].
      assert (false = true) by (apply Hs; lia). discriminate. }
    split; [| lia]. split; [nia |]. split; intros E; nia.
Qed.

Lemma fexp_eq (x : Z) : fexp prec emax x = Z.max (x - 53) (-1074).
Proof. reflexivity. Qed.

Lemma shr_fexp_shift (m e : Z) :
  0 <= fexp prec emax (Zdigits2 m + e) - e ->
  shr_fexp prec emax m e loc_Exact
  = (Nat.iter (Z.to_nat (fexp prec emax (Zdigits2 m + e) - e)) shr_1
       (Build_shr_record m false false),
     fexp prec emax (Zdigits2 m + e)).
Proof.
  intros Hn. unfold shr_fexp, shr. cbn [shr_record_of_loc].
  destruct (fexp prec emax (Zdigits2 m + e) - e) as [| p | p] eqn:En; try lia.
  - simpl. f_equal. lia.
  - rewrite iter_pos_nat. f_equal. lia.
Qed.

Lemma shr_fexp_keep (m e : Z) :
  fexp prec emax (Zdigits2 m + e) - e <= 0 ->
  shr_fexp prec emax m e loc_Exact = (Build_shr_record m false false, e).
Proof.
  intros Hn. unfold shr_fexp, shr. cbn [shr_record_of_loc].
  destruct (fexp prec emax (Zdigits2 m + e) - e) as [| p | p] eqn:En;
    try lia; reflexivity.
Qed.

(** The second shift of [binary_round_aux]: it renormalises a mantissa
    that rounding has carried to [2^53]. *)
Lemma renormalise (q' E : Z) :
  0 <= q' <= 2 ^ 53 -> -1074 <= E ->
  shr_fexp prec emax q' E loc_Exact
  = if q' <? 2 ^ 53 then (Build_shr_record q' false false, E)
    else (Build_shr_record (2 ^ 52) false false, E + 1).
Proof.
  intros Hq HE. destruct (Z.ltb_spec q' (2 ^ 53)) as [L | L].
  - apply shr_fexp_keep. rewrite fexp_eq.
    destruct (Z.eq_dec q' 0) as [-> | Hne].
    + simpl Zdigits2. lia.
    + pose proof (Zdigits2_bounds q' ltac:(lia)) as [B1 B2].
      pose proof (Zdigits2_pos q' ltac:(lia)).
      assert (Zdigits2 q' <= 53).
      { destruct (Z_le_gt_dec (Zdigits2 q') 53); [auto |].
        assert (2 ^ 53 <= 2 ^ (Zdigits2 q' - 1)) by (apply Z.pow_le_mono_r; lia).
        lia. }
      lia.
  - assert (q' = 2 ^ 53) by lia. subst q'.
    unfold shr_fexp, shr. cbn [shr_record_of_loc].
    change (Zdigits2 (2 ^ 53)) with 54. rewrite fexp_eq.
    replace (Z.max (54 + E - 53) (-1074) - E) with 1 by lia. reflexivity.
Qed.

(** [binary_round_aux] on an exact positive mantissa that has digits to
    spare. *)
Lemma binary_round_aux_spec (s : bool) (m e : Z) :
  0 < m ->
  let E := fexp prec emax (Zdigits2 m + e) in
  e <= E ->
  exists q',
    Rounds m (2 ^ (E - e)) q'
    /\ 0 <= q' <= 2 ^ 53
    /\ (-1074 < E -> 2 ^ 52 <= q')
    /\ binary_round_aux prec emax s m e loc_Exact
       = if q' <? 2 ^ 53 then rounded s q' E else rounded s (2 ^ 52) (E + 1).
Proof.
  intros Hm E HE.
  assert (Hn : 0 <= E - e) by lia.
  unfold binary_round_aux. rewrite (shr_fexp_shift m e) by exact Hn.
  fold E.
  destruct (shr_iter m (Z.to_nat (E - e)) ltac:(lia))
    as (q & r & s0 & rem & Eit & Hq & Hrem & Hmq & Hr & Hs).
  rewrite Z2Nat.id in * by lia.
  set (T := 2 ^ (E - e)) in *.
  assert (HT : 0 < T) by (apply Z.pow_pos_nonneg; lia).
  rewrite Eit. cbn [shr_m].
  destruct (round_nearest_even_spec m q rem T r s0 HT Hrem Hmq Hr Hs)
    as [HR Hq'].
  set (q' := round_nearest_even q (loc_of_shr_record (Build_shr_record q r s0)))
    in *.
  pose proof (Zdigits2_bounds m Hm) as [B1 B2].
  pose proof (Zdigits2_pos m Hm) as Hd.
  assert (HE' : E = Z.max (Zdigits2 m + e - 53) (-1074)) by reflexivity.
  assert (Hq53 : q < 2 ^ 53).
  { assert (2 ^ Zdigits2 m <= 2 ^ (E - e + 53)) by (apply Z.pow_le_mono_r; lia).
    rewrite Z.pow_add_r in H by lia. fold T in H.
    destruct (Z_lt_le_dec q (2 ^ 53)); [auto |]. nia. }
  exists q'. split; [exact HR |]. split; [lia |]. split.
  - intros Hnorm. assert (En : E - e = Zdigits2 m - 53) by lia.
    assert (Hp : 2 ^ (Zdigits2 m - 1) = 2 ^ 52 * T).
    { unfold T. rewrite En, <- Z.pow_add_r by lia. f_equal. lia. }
    assert (2 ^ 52 <= q); [| lia].
    destruct (Z_le_gt_dec (2 ^ 52) q); [auto |]. nia.
  - rewrite (renormalise q' E) by lia.
    destruct (q' <? 2 ^ 53); reflexivity.
Qed.

Lemma rounded_le (qa ea qb eb : Z) :
  0 <= qa -> 0 <= qb ->
  qa = 0 \/ (0 < qb /\ (ea < eb \/ (ea = eb /\ qa <= qb))) ->
  SFleb (rounded false qa ea) (rounded false qb eb) = true
  /\ SFleb (rounded true qb eb) (rounded true qa ea) = true.
Proof.
  intros Ha Hb H. unfold rounded.
  destruct qa as [| pa | pa]; [| | lia]; destruct qb as [| pb | pb]; try lia.
  - split; reflexivity.
  - destruct (eb <=? emax - prec); split; reflexivity.
  - destruct H as [H | [_ H]]; [lia |].
    destruct (Z.leb_spec ea (emax - prec)) as [La | La];
      destruct (Z.leb_spec eb (emax - prec)) as [Lb | Lb];
      unfold SFleb; cbn [SFcompare]; try (split; reflexivity); try lia.
    destruct H as [H | [-> H]].
    + rewrite (proj2 (Z.compare_lt_iff ea eb) H).
      rewrite (proj2 (Z.compare_gt_iff eb ea) H). split; reflexivity.
    + rewrite Z.compare_refl.
      change (Pos.compare_cont Eq pa pb) with (Pos.compare pa pb).
      change (Pos.compare_cont Eq pb pa) with (Pos.compare pb pa).
      rewrite (Pos.compare_antisym pa pb).
      destruct (Pos.compare_spec pa pb); simpl; try (split; reflexivity); lia.
Qed.

Lemma Zdigits2_scale (m j : Z) :
  0 < m -> 0 <= j -> Zdigits2 (m * 2 ^ j) = Zdigits2 m + j.
Proof.
  intros Hm Hj.
  pose proof (Zdigits2_bounds m Hm) as [B1 B2].
  pose proof (Zdigits2_pos m Hm).
  assert (0 < 2 ^ j) by (apply Z.pow_pos_nonneg; lia).
  apply Zdigits2_unique; [nia |].
  replace (Zdigits2 m + j - 1) with (Zdigits2 m - 1 + j) by lia.
  rewrite !Z.pow_add_r by lia. nia.
Qed.

Lemma binary_round_aux_mono (m1 e1 m2 e2 : Z) :
  0 < m1 -> 0 < m2 ->
  e1 <= fexp prec emax (Zdigits2 m1 + e1) ->
  e2 <= fexp prec emax (Zdigits2 m2 + e2) ->
  e1 <= e2 ->
  m1 <= m2 * 2 ^ (e2 - e1) ->
  SFleb (binary_round_aux prec emax false m1 e1 loc_Exact)
        (binary_round_aux prec emax false m2 e2 loc_Exact) = true
  /\ SFleb (binary_round_aux prec emax true m2 e2 loc_Exact)
           (binary_round_aux prec emax true m1 e1 loc_Exact) = true.
Proof.
  intros Hm1 Hm2 Hn1 Hn2 He Hv.
  destruct (binary_round_aux_spec false m1 e1 Hm1 Hn1)
    as (q1 & R1 & B1 & N1 & F1).
  destruct (binary_round_aux_spec true m1 e1 Hm1 Hn1)
    as (q1t & R1t & _ & _ & F1t).
  destruct (binary_round_aux_spec false m2 e2 Hm2 Hn2)
    as (q2 & R2 & B2 & N2 & F2).
  destruct (binary_round_aux_spec true m2 e2 Hm2 Hn2)
    as (q2t & R2t & _ & _ & F2t).
  set (E1 := fexp prec emax (Zdigits2 m1 + e1)) in *.
  set (E2 := fexp prec emax (Zdigits2 m2 + e2)) in *.
  assert (HT1 : 0 < 2 ^ (E1 - e1)) by (apply Z.pow_pos_nonneg; lia).
  assert (HT2 : 0 < 2 ^ (E2 - e2)) by (apply Z.pow_pos_nonneg; lia).
  assert (q1t = q1).
  { apply Z.le_antisymm;
      eapply (Rounds_mono m1 m1 (2 ^ (E1 - e1))); eauto; lia. }
  assert (q2t = q2).
  { apply Z.le_antisymm;
      eapply (Rounds_mono m2 m2 (2 ^ (E2 - e2))); eauto; lia. }
  subst q1t q2t. rewrite F1, F2, F1t, F2t. clear F1 F2 F1t F2t R1t R2t.
  assert (Hj : 0 < 2 ^ (e2 - e1)) by (apply Z.pow_pos_nonneg; lia).
  assert (Hd : Zdigits2 m1 + e1 <= Zdigits2 m2 + e2).
  { pose proof (Zdigits2_mono m1 (m2 * 2 ^ (e2 - e1)) Hm1 Hv) as H.
    rewrite Zdigits2_scale in H by lia. lia. }
  assert (HE : E1 <= E2) by (unfold E1, E2; rewrite !fexp_eq; lia).
  assert (HE1 : -1074 <= E1) by (unfold E1; rewrite fexp_eq; lia).
  assert (Hcmp : q1 = 0 \/ (0 < q2 /\ (E1 < E2 \/ (E1 = E2 /\ q1 <= q2)))).
  { destruct (Z.eq_dec q1 0) as [-> | Hq1]; [left; reflexivity | right].
    destruct (Z.eq_dec E1 E2) as [Eeq | Ene].
    - assert (Hle : q1 <= q2).
      { apply (Rounds_mono m1 (m2 * 2 ^ (e2 - e1)) (2 ^ (E1 - e1))); auto.
        replace (E1 - e1) with (E2 - e2 + (e2 - e1)) by lia.
        rewrite Z.pow_add_r by lia. apply Rounds_scale; auto. }
      split; [lia |]. right. auto.
    - assert (2 ^ 52 <= q2) by (apply N2; lia).
      split; [lia |]. left. lia. }
  destruct (Z.ltb_spec q1 (2 ^ 53)) as [L1 | L1];
    destruct (Z.ltb_spec q2 (2 ^ 53)) as [L2 | L2];
    apply rounded_le; lia.
Qed.

(** ** Valid binary64 values *)

Lemma valid_finite (s : bool) (m : positive) (e : Z) :
  valid_binary (S754_finite s m e) = true ->
  Z.max (Zpos (digits2_pos m) + e - 53) (-1074) = e /\ e <= 971.
Proof.
  unfold valid_binary. cbn [SpecFloat.valid_binary].
  unfold SpecFloat.bounded, SpecFloat.canonical_mantissa.
  rewrite andb_true_iff, Z.eqb_eq, Z.leb_le, fexp_eq.
  change (emax - prec) with 971. tauto.
Qed.

(** The product of two valid mantissas has digits to spare. *)
Lemma product_digits (mr mt : positive) (er et : Z) :
  Z.max (Zpos (digits2_pos mr) + er - 53) (-1074) = er ->
  Z.max (Zpos (digits2_pos mt) + et - 53) (-1074) = et ->
  er + et <= fexp prec emax (Zdigits2 (Zpos (mr * mt)) + (er + et)).
Proof.
  intros Hr Ht. rewrite fexp_eq.
  pose proof (digits2_pos_bounds mr) as [R1 R2].
  pose proof (digits2_pos_bounds mt) as [T1 T2].
  pose proof (Zdigits2_bounds (Zpos (mr * mt)) ltac:(lia)) as [P1 P2].
  set (dr := Zpos (digits2_pos mr)) in *.
  set (dt := Zpos (digits2_pos mt)) in *.
  set (D := Zdigits2 (Zpos (mr * mt))) in *.
  assert (Hdr : 0 < dr) by (unfold dr; lia).
  assert (Hdt : 0 < dt) by (unfold dt; lia).
  assert (HD : dr + dt - 2 < D).
  { destruct (Z_lt_le_dec (dr + dt - 2) D) as [L | L]; [exact L | exfalso].
    assert (HD0 : 0 < D) by (apply Zdigits2_pos; lia).
    assert (L2 : 2 ^ D <= 2 ^ (dr - 1 + (dt - 1)))
      by (apply Z.pow_le_mono_r; lia).
    rewrite Z.pow_add_r in L2 by lia.
    rewrite Pos2Z.inj_mul in P2. nia. }
  lia.
Qed.

(** The order of two positive valid values, on their mantissas. *)
Lemma finite_le_mantissas (mt mt' : positive) (et et' : Z) :
  Z.max (Zpos (digits2_pos mt) + et - 53) (-1074) = et ->
  Z.max (Zpos (digits2_pos mt') + et' - 53) (-1074) = et' ->
  SFleb (S754_finite false mt et) (S754_finite false mt' et') = true ->
  et <= et' /\ Zpos mt <= Zpos mt' * 2 ^ (et' - et).
Proof.
  intros Ht Ht'. unfold SFleb. cbn [SFcompare].
  pose proof (digits2_pos_bounds mt) as [T1 T2].
  pose proof (digits2_pos_bounds mt') as [T1' T2'].
  destruct (Z.compare_spec et et') as [E | L | G]; try discriminate.
  - subst et'. change (Pos.compare_cont Eq mt mt') with (Pos.compare mt mt').
    destruct (Pos.compare_spec mt mt'); try discriminate; intros _;
      (split; [lia |]); rewrite Z.sub_diag; simpl; lia.
  - intros _. split; [lia |].
    assert (Hd' : Zpos (digits2_pos mt') = 53) by lia.
    assert (Hd : Zpos (digits2_pos mt) <= 53) by lia.
    rewrite Hd' in T1'. simpl in T1'.
    assert (Zpos mt < 2 ^ 53).
    { assert (2 ^ Zpos (digits2_pos mt) <= 2 ^ 53)
        by (apply Z.pow_le_mono_r; lia). lia. }
    assert (2 ^ 1 <= 2 ^ (et' - et)) by (apply Z.pow_le_mono_r; lia).
    change (2 ^ 1) with 2 in *. change (2 ^ 53) with 9007199254740992 in *.
    nia.
Qed.

Lemma SFleb_negate (mt mt' : positive) (et et' : Z) :
  SFleb (S754_finite true mt et) (S754_finite true mt' et')
  = SFleb (S754_finite false mt' et') (S754_finite false mt et).
Proof.
  unfold SFleb. cbn [SFcompare].
  rewrite (Z.compare_antisym et et').
  destruct (et ?= et'); simpl; try reflexivity.
  change (Pos.compare_cont Eq mt' mt) with (Pos.compare mt' mt).
  change (Pos.compare_cont Eq mt mt') with (Pos.compare mt mt').
  rewrite (Pos.compare_antisym mt mt').
  destruct (Pos.compare mt mt'); reflexivity.
Qed.

(** Rounded values of opposite signs. *)
Lemma binary_round_aux_signs (m1 e1 m2 e2 : Z) :
  0 < m1 -> 0 < m2 ->
  e1 <= fexp prec emax (Zdigits2 m1 + e1) ->
  e2 <= fexp prec emax (Zdigits2 m2 + e2) ->
  SFleb (binary_round_aux prec emax true m1 e1 loc_Exact)
        (binary_round_aux prec emax false m2 e2 loc_Exact) = true
  /\ (forall z, SFleb (binary_round_aux prec emax true m1 e1 loc_Exact)
                      (S754_zero z) = true)
  /\ (forall z, SFleb (S754_zero z)
                      (binary_round_aux prec emax false m2 e2 loc_Exact) = true).
Proof.
  intros Hm1 Hm2 Hn1 Hn2.
  destruct (binary_round_aux_spec true m1 e1 Hm1 Hn1) as (q1 & _ & B1 & _ & F1).
  destruct (binary_round_aux_spec false m2 e2 Hm2 Hn2) as (q2 & _ & B2 & _ & F2).
  rewrite F1, F2.
  assert (Hr : forall s q e, 0 <= q ->
             rounded s q e = S754_zero s
             \/ (exists p, rounded s q e = S754_finite s p e)
             \/ rounded s q e = S754_infinity s).
  { intros s q e Hq. unfold rounded. destruct q as [| p | p]; [auto | | lia].
    destruct (e <=? emax - prec); eauto. }
  repeat split; intros;
    destruct (q1 <? 2 ^ 53); destruct (q2 <? 2 ^ 53);
    match goal with
    | |- context [rounded true ?q ?e] =>
        destruct (Hr true q e ltac:(simpl; lia)) as [-> | [[? ->] | ->]]
    | _ => idtac
    end;
    match goal with
    | |- context [rounded false ?q ?e] =>
        destruct (Hr false q e ltac:(simpl; lia)) as [-> | [[? ->] | ->]]
    | _ => idtac
    end; reflexivity.
Qed.

(** ** Multiplication by a value that is not negative is monotone *)

Lemma SFmul_finite_mono (mr : positive) (er : Z) (st st' : bool)
    (mt mt' : positive) (et et' : Z) :
  valid_binary (S754_finite false mr er) = true ->
  valid_binary (S754_finite st mt et) = true ->
  valid_binary (S754_finite st' mt' et') = true ->
  SFleb (S754_finite st mt et) (S754_finite st' mt' et') = true ->
  SFleb (SF64mul (S754_finite false mr er) (S754_finite st mt et))
        (SF64mul (S754_finite false mr er) (S754_finite st' mt' et')) = true.
Proof.
  intros Vr Vt Vt' Hle.
  apply valid_finite in Vr, Vt, Vt'.
  destruct Vr as [Cr _], Vt as [Ct _], Vt' as [Ct' _].
  pose proof (product_digits mr mt er et Cr Ct) as Dt.
  pose proof (product_digits mr mt' er et' Cr Ct') as Dt'.
  unfold SF64mul. cbn [SFmul xorb].
  destruct st, st'.
  - rewrite SFleb_negate in Hle.
    destruct (finite_le_mantissas mt' mt et' et Ct' Ct Hle) as [He Hm].
    apply (binary_round_aux_mono (Zpos (mr * mt')) (er + et')
             (Zpos (mr * mt)) (er + et)); try lia; auto.
    replace (er + et - (er + et')) with (et - et') by lia.
    rewrite !Pos2Z.inj_mul. nia.
  - apply binary_round_aux_signs; auto; lia.
  - discriminate.
  - destruct (finite_le_mantissas mt mt' et et' Ct Ct' Hle) as [He Hm].
    apply (binary_round_aux_mono (Zpos (mr * mt)) (er + et)
             (Zpos (mr * mt')) (er + et')); try lia; auto.
    replace (er + et' - (er + et)) with (et' - et) by lia.
    rewrite !Pos2Z.inj_mul. nia.
Qed.

Lemma SFmul_le_mono (r t t' : spec_float) :
  valid_binary r = true -> valid_binary t = true -> valid_binary t' = true ->
  SFnonneg r ->
  SFleb t t' = true ->
  t <> S754_infinity true ->
  SF64mul r t' = S754_nan
  \/ SF64mul r t' = S754_infinity false
  \/ SFleb (SF64mul r t) (SF64mul r t') = true.
Proof.
  intros Vr Vt Vt' Hr Hle Hninf.
  destruct r as [sr | sr | | sr mr er]; cbn [SFnonneg] in Hr; subst;
    try (left; reflexivity).
  - (* r is a zero *)
    destruct t' as [s' | s' | | s' m' e']; try (left; reflexivity);
      destruct t as [s | s | | s m e]; try discriminate;
      try (right; right; reflexivity);
      destruct s; try discriminate; congruence.
  - (* r is plus infinity *)
    destruct t' as [s' | s' | | s' m' e']; try (left; reflexivity).
    + destruct s'; [| right; left; reflexivity].
      destruct t as [s | s | | s m e]; try discriminate;
        destruct s; try discriminate; congruence.
    + destruct s'; [| right; left; reflexivity].
      destruct t as [s | s | | s m e]; try discriminate;
        destruct s; try discriminate; try congruence.
      right. right. reflexivity.
  - (* r is a positive number *)
    destruct t' as [s' | s' | | s' m' e']; try (left; reflexivity).
    + (* t' is a zero *)
      right. right.
      destruct t as [s | s | | s m e]; try discriminate.
      * reflexivity.
      * destruct s; try discriminate; congruence.
      * destruct s; [| discriminate].
        apply valid_finite in Vr, Vt. destruct Vr as [Cr _], Vt as [Ct _].
        unfold SF64mul. cbn [SFmul xorb].
        apply (binary_round_aux_signs (Zpos (mr * m)) (er + e) 1 (-1074));
          try lia; try (apply product_digits; assumption).
        rewrite fexp_eq. simpl. lia.
    + (* t' is an infinity *)
      destruct s'; [| right; left; reflexivity].
      destruct t as [s | s | | s m e]; try discriminate;
        destruct s; try discriminate; congruence.
    + (* t' is a number *)
      right. right.
      destruct t as [s | s | | s m e]; try discriminate.
      * destruct s'; [discriminate |].
        apply valid_finite in Vr, Vt'. destruct Vr as [Cr _], Vt' as [Ct' _].
        unfold SF64mul. cbn [SFmul xorb].
        apply (binary_round_aux_signs 1 (-1074) (Zpos (mr * m')) (er + e'));
          try lia; try (apply product_digits; assumption).
        rewrite fexp_eq. simpl. lia.
      * destruct s; try discriminate; congruence.
      * now apply SFmul_finite_mono.
Qed.

Lemma SFleb_ltb_trans (a b s : spec_float) :
  SFleb a b = true -> SFltb b s = true -> SFltb a s = true.
Proof.
  unfold SFleb, SFltb.
  destruct a as [sa | sa | | sa ma ea], b as [sb | sb | | sb mb eb],
    s as [ss | ss | | ss ms es]; cbn [SFcompare];
    try discriminate; try reflexivity;
    repeat match goal with x : bool |- _ => destruct x end;
    try discriminate; try reflexivity;
    change (Pos.compare_cont Eq) with Pos.compare;
    repeat match goal with
           | |- context [(?x ?= ?y)%Z] => destruct (Z.compare_spec x y)
           end;
    repeat match goal with
           | |- context [(?x ?= ?y)%positive] => destruct (Pos.compare_spec x y)
           end;
    simpl; try discriminate; try reflexivity; intros; exfalso; lia.
Qed.

Lemma SFltb_nan_l (s : spec_float) : SFltb S754_nan s = false.
Proof. reflexivity. Qed.

Lemma SFltb_inf_l (s : spec_float) : SFltb (S754_infinity false) s = false.
Proof.
  destruct s as [z | z | | z m e]; try reflexivity; destruct z; reflexivity.
Qed.

(** Multiplying the reference deviation by a larger threshold does not
    lower the bound. *)
Lemma mul_threshold_mono (r t t' s : float) :
  (r <? 0)%float = false ->
  (t <=? t')%float = true ->
  (neg_infinity <? t)%float = true ->
  (r * t <? s)%float = false ->
  (r * t' <? s)%float = false.
Proof.
  rewrite ltb_zero_false, leb_spec, !ltb_spec, !mul_spec.
  change (Prim2SF neg_infinity) with (S754_infinity true).
  intros Hr Hle Hninf Ha.
  assert (Hne : Prim2SF t <> S754_infinity true).
  { intros E. rewrite E in Hninf. discriminate. }
  destruct (SFmul_le_mono (Prim2SF r) (Prim2SF t) (Prim2SF t')
              (Prim2SF_valid r) (Prim2SF_valid t) (Prim2SF_valid t')
              Hr Hle Hne) as [E | [E | H]].
  - rewrite E. reflexivity.
  - rewrite E. apply SFltb_inf_l.
  - destruct (SFltb (SF64mul (Prim2SF r) (Prim2SF t')) (Prim2SF s)) eqn:Hb;
      [| reflexivity].
    rewrite (SFleb_ltb_trans _ _ _ H Hb) in Ha. discriminate.
Qed.

End Rounding.

(** ** Facts on the standard deviation *)

(** The unrolled loop keeps eight accumulators and leaves the entries
    that fill no block of eight, so [unrolled_sum] on 8 entries or more
    is the sum numpy takes. *)
Lemma add_lanes_lengths (blocks : nat) :
  forall r a : list float,
    length r = 8 -> 8 * blocks <= length a ->
    length (fst (add_lanes blocks r a)) = 8
    /\ length (snd (add_lanes blocks r a)) = length a - 8 * blocks.
Proof.
  induction blocks as [| blocks IH]; intros r a Hr Ha.
  - simpl. lia.
  - cbn [add_lanes].
    destruct (IH (map (fun p => (fst p + snd p)%float)
                      (combine r (firstn 8 a)))
                 (skipn 8 a)) as [H1 H2].
    + rewrite length_map, length_combine, length_firstn. lia.
    + rewrite length_skipn. lia.
    + rewrite H1, H2, length_skipn. lia.
Qed.

Lemma unrolled_sum_lanes (a : list float) :
  8 <= length a ->
  exists r0 r1 r2 r3 r4 r5 r6 r7 rest,
    add_lanes (length a / 8 - 1) (firstn 8 a) (skipn 8 a)
    = ([r0; r1; r2; r3; r4; r5; r6; r7], rest)
    /\ length rest = length a mod 8
    /\ unrolled_sum a
       = add_each (((r0 + r1) + (r2 + r3)) + ((r4 + r5) + (r6 + r7)))%float
                  rest.
Proof.
  intros H.
  pose proof (Nat.div_mod_eq (length a) 8) as Hdm.
  pose proof (Nat.mod_upper_bound (length a) 8 ltac:(lia)) as Hm.
  destruct (add_lanes_lengths (length a / 8 - 1) (firstn 8 a) (skipn 8 a))
    as [H1 H2].
  - rewrite length_firstn. lia.
  - rewrite length_skipn. lia.
  - unfold unrolled_sum.
    destruct (add_lanes (length a / 8 - 1) (firstn 8 a) (skipn 8 a))
      as [r rest].
    cbn [fst snd] in H1, H2. rewrite length_skipn in H2.
    destruct r as [| r0 [| r1 [| r2 [| r3 [| r4 [| r5 [| r6 [| r7 [| r8 r]]]]]]]]];
      try discriminate.
    exists r0, r1, r2, r3, r4, r5, r6, r7, rest.
    split; [reflexivity |]. split; [lia | reflexivity].
Qed.

(** The fuel of [pairwise_sum] is never used up: with fuel at least the
    length the result does not depend on it, and [add_reduce] satisfies
    the recursion of numpy's function. *)
Lemma pairwise_sum_fuel (fuel1 : nat) :
  forall (fuel2 : nat) (a : list float),
    length a <= fuel1 -> length a <= fuel2 ->
    pairwise_sum fuel1 a = pairwise_sum fuel2 a.
Proof.
  induction fuel1 as [| fuel1 IH]; intros fuel2 a H1 H2.
  - destruct a; [| simpl in H1; lia]. destruct fuel2; reflexivity.
  - destruct fuel2 as [| fuel2].
    + destruct a; [| simpl in H2; lia]. reflexivity.
    + cbn [pairwise_sum].
      destruct (Nat.ltb_spec (length a) 8) as [L8 | L8]; [reflexivity |].
      destruct (Nat.leb_spec (length a) 128) as [L128 | L128]; [reflexivity |].
      set (n2 := length a / 2 - (length a / 2) mod 8).
      assert (Hn2 : 1 <= n2 < length a).
      { pose proof (Nat.mod_upper_bound (length a / 2) 8 ltac:(lia)).
        pose proof (Nat.div_mod_eq (length a) 2).
        pose proof (Nat.mod_upper_bound (length a) 2 ltac:(lia)).
        unfold n2. lia. }
      f_equal; apply IH;
        rewrite ?length_firstn, ?length_skipn; lia.
Qed.

Lemma add_reduce_equation (a : list float) :
  add_reduce a
  = if length a <? 8 then add_each (-0)%float a
    else if length a <=? 128 then unrolled_sum a
    else
      let n2 := length a / 2 - (length a / 2) mod 8 in
      (add_reduce (firstn n2 a) + add_reduce (skipn n2 a))%float.
Proof.
  unfold add_reduce. destruct (length a) as [| n] eqn:En.
  - destruct a; [reflexivity | discriminate].
  - cbn [pairwise_sum]. rewrite En.
    destruct (Nat.ltb_spec (S n) 8) as [L8 | L8]; [reflexivity |].
    destruct (Nat.leb_spec (S n) 128) as [L128 | L128]; [reflexivity |].
    cbv zeta. set (n2 := S n / 2 - (S n / 2) mod 8).
    assert (Hn2 : 1 <= n2 < S n).
    { pose proof (Nat.mod_upper_bound (S n / 2) 8 ltac:(lia)).
      pose proof (Nat.div_mod_eq (S n) 2).
      pose proof (Nat.mod_upper_bound (S n) 2 ltac:(lia)).
      unfold n2. lia. }
    f_equal; apply pairwise_sum_fuel;
      rewrite ?length_firstn, ?length_skipn; lia.
Qed.

(** numpy's deviation is a square root: it is never below zero. *)
Lemma np_std_not_negative (a : list float) : (np_std a <? 0)%float = false.
Proof.
  unfold np_std. apply sqrt_not_negative.
Qed.

Lemma homogeneous_Forall (m : nat) (groups : list (list float)) :
  Forall (fun g => length g = m) groups -> homogeneous groups = true.
Proof.
  intros H. destruct groups as [| g0 rest]; [reflexivity |].
  simpl. inversion H as [| ? ? H0 Hrest]; subst.
  apply forallb_forall. intros g Hg.
  rewrite Forall_forall in Hrest. apply Nat.eqb_eq. auto.
Qed.

Lemma homogeneous_inv (groups : list (list float)) :
  homogeneous groups = true ->
  exists m, Forall (fun g => length g = m) groups.
Proof.
  destruct groups as [| g0 rest]; intros H.
  - exists 0. constructor.
  - exists (length g0). constructor; [reflexivity |].
    simpl in H. rewrite forallb_forall in H.
    apply Forall_forall. intros g Hg. apply Nat.eqb_eq. auto.
Qed.

Lemma existsb_false_map (A B : Type) (f : A -> B) (p : B -> bool)
    (l : list A) :
  existsb p (map f l) = false <-> forall x, In x l -> p (f x) = false.
Proof.
  induction l as [| a l IH]; simpl.
  - split; [intros _ x [] | reflexivity].
  - rewrite orb_false_iff, IH. split.
    + intros [Ha Hl] x [<- | Hx]; auto.
    + intros H. split; [apply H; now left | intros x Hx; apply H; now right].
Qed.

(** C1. On a partition whose groups all have one length
    [check_std_deviation_within_threshold] returns a verdict.  The
    verdict that ends the retry loop of [group_based_on_deviation]
    ([False]) is returned exactly when every group's deviation, as numpy
    computes it in binary64, is at most the binary64 product of the
    deviation numpy computes for the concatenated groups and the
    threshold, or one of the two is [nan].  For a positive threshold a
    partition whose groups all have the computed deviation 0 is
    accepted. *)
Theorem check_std_deviation_accepts_iff
    (threshold : float) (groups : list (list float)) (m : nat) :
  Forall (fun g => length g = m) groups ->
  exists exceeds : bool,
    check_std_deviation_within_threshold threshold groups = Ok exceeds
    /\ (exceeds = false <->
        Forall (fun g =>
                  (np_std g <=? np_std (concat groups) * threshold)%float = true
                  \/ is_nan (np_std g) = true
                  \/ is_nan (np_std (concat groups) * threshold) = true)
               groups)
    /\ ((0 <? threshold)%float = true ->
        Forall (fun g => (np_std g =? 0)%float = true) groups ->
        exceeds = false).
Proof.
  intros Hlen.
  unfold check_std_deviation_within_threshold, np_std_nested.
  rewrite (homogeneous_Forall _ _ Hlen).
  eexists. split; [reflexivity |]. split.
  - rewrite existsb_false_map, Forall_forall.
    split; intros H g Hg; apply ltb_false_iff; auto.
  - intros Hthr Hzero. apply existsb_false_map. intros g Hg.
    rewrite Forall_forall in Hzero.
    rewrite (ltb_zero_either _ _ (Hzero g Hg)).
    apply mul_not_negative;
      [apply np_std_not_negative | now apply positive_not_negative].
Qed.

(** A run of C1 on two groups of two. *)
Lemma check_std_deviation_accepts_iff_witness :
  Forall (fun g => length g = 2) [[1; 3]; [3; 1]]%float
  /\ exists exceeds : bool,
       check_std_deviation_within_threshold 1 [[1; 3]; [3; 1]]%float = Ok exceeds
       /\ (exceeds = false <->
           Forall (fun g =>
                     (np_std g <=? np_std (concat [[1; 3]; [3; 1]]) * 1)%float
                     = true
                     \/ is_nan (np_std g) = true
                     \/ is_nan (np_std (concat [[1; 3]; [3; 1]]) * 1)%float = true)
                  [[1; 3]; [3; 1]]%float)
       /\ ((0 <? 1)%float = true ->
           Forall (fun g => (np_std g =? 0)%float = true) [[1; 3]; [3; 1]]%float ->
           exceeds = false).
Proof.
  split; [repeat constructor |].
  apply (check_std_deviation_accepts_iff 1 [[1; 3]; [3; 1]]%float 2).
  repeat constructor.
Defined.

(** The weights of the two examples below, as real numbers. *)
Lemma real_of_weights :
  real_of 36 = 36%R /\ real_of 55 = 55%R /\ real_of 40 = 40%R
  /\ real_of 1 = 1%R.
Proof.
  unfold real_of.
  replace (Prim2SF 36) with (S754_finite false 5066549580791808 (-47))
    by (vm_compute; reflexivity).
  replace (Prim2SF 55) with (S754_finite false 7740561859543040 (-47))
    by (vm_compute; reflexivity).
  replace (Prim2SF 40) with (S754_finite false 5629499534213120 (-47))
    by (vm_compute; reflexivity).
  replace (Prim2SF 1) with (S754_finite false 4503599627370496 (-52))
    by (vm_compute; reflexivity).
  cbv beta iota.
  replace (2 ^ 47)%Z with 140737488355328%Z by reflexivity.
  replace (2 ^ 52)%Z with 4503599627370496%Z by reflexivity.
  repeat split; lra.
Qed.

Lemma population_standard_deviation_equal_three (x : R) :
  population_standard_deviation [x; x; x] = 0%R.
Proof.
  unfold population_standard_deviation, sum_R. simpl.
  replace ((x + (x + (x + 0))) / (1 + 1 + 1))%R with x by field.
  replace (x - x)%R with 0%R by ring. rewrite Rsqr_0.
  replace ((0 + (0 + (0 + 0))) / (1 + 1 + 1))%R with 0%R by field.
  apply sqrt_0.
Qed.

(** C1 as stated fails, with the exact population standard deviation of
    the specification.  The groups [[36, 55, 40]] and [[40, 36, 55]] hold
    the same weights, so each has exactly the deviation of the pooled
    six; numpy computes 8.178562764256865 for each group and
    8.178562764256863 for the six, and the partition is rejected at
    threshold 1.  Three groups of three weights 0.1 have the exact
    deviation 0; numpy computes 1.39e-17 for each group and 0 for the
    nine, and the partition is rejected. *)
Lemma check_rejects_exactly_balanced_groups :
  Forall (fun g => length g = 3) [[36; 55; 40]; [40; 36; 55]]%float
  /\ (0 < real_of 1)%R
  /\ Forall (fun g =>
               (population_standard_deviation (map real_of g)
                <= population_standard_deviation
                     (map real_of (concat [[36; 55; 40]; [40; 36; 55]]%float))
                   * real_of 1)%R)
            [[36; 55; 40]; [40; 36; 55]]%float
  /\ check_std_deviation_within_threshold 1 [[36; 55; 40]; [40; 36; 55]]%float
     = Ok true
  /\ map np_std [[36; 55; 40]; [40; 36; 55]]%float
     = [8.178562764256865; 8.178562764256865]%float
  /\ np_std (concat [[36; 55; 40]; [40; 36; 55]]%float)
     = 8.178562764256863%float
  /\ Forall (fun g => length g = 3)
            [[0.1; 0.1; 0.1]; [0.1; 0.1; 0.1]; [0.1; 0.1; 0.1]]%float
  /\ Forall (fun g => population_standard_deviation (map real_of g) = 0%R)
            [[0.1; 0.1; 0.1]; [0.1; 0.1; 0.1]; [0.1; 0.1; 0.1]]%float
  /\ check_std_deviation_within_threshold 1
       [[0.1; 0.1; 0.1]; [0.1; 0.1; 0.1]; [0.1; 0.1; 0.1]]%float
     = Ok true
  /\ map np_std [[0.1; 0.1; 0.1]; [0.1; 0.1; 0.1]; [0.1; 0.1; 0.1]]%float
     = [1.3877787807814457e-17; 1.3877787807814457e-17;
        1.3877787807814457e-17]%float
  /\ np_std (concat [[0.1; 0.1; 0.1]; [0.1; 0.1; 0.1]; [0.1; 0.1; 0.1]]%float)
     = 0%float.
Proof.
  destruct real_of_weights as [E36 [E55 [E40 E1]]].
  split; [repeat constructor |].
  split; [rewrite E1; lra |].
  split.
  { assert (H : forall a b c : R,
               a = 36%R -> b = 55%R -> c = 40%R ->
               (population_standard_deviation [a; b; c]
                <= population_standard_deviation [a; b; c; c; a; b] * 1)%R
               /\ (population_standard_deviation [c; a; b]
                   <= population_standard_deviation [a; b; c; c; a; b] * 1)%R).
    { intros a b c -> -> ->.
      unfold population_standard_deviation, sum_R. simpl.
      rewrite Rmult_1_r. split; apply sqrt_le_1_alt; unfold Rsqr; lra. }
    destruct (H _ _ _ E36 E55 E40) as [H1 H2].
    constructor; [| constructor; [| constructor]];
      cbn [map concat app]; rewrite E1; assumption. }
  split; [vm_compute; reflexivity |].
  split; [vm_compute; reflexivity |].
  split; [vm_compute; reflexivity |].
  split; [repeat constructor |].
  split.
  { repeat constructor; cbn [map];
      apply population_standard_deviation_equal_three. }
  split; [vm_compute; reflexivity |].
  split; vm_compute; reflexivity.
Qed.

(** ** Facts on list update *)

Lemma list_set_length (A : Type) (i : nat) (v : A) (l : list A) :
  length (list_set i v l) = length l.
Proof.
  revert i. induction l as [| h t IH]; intros [| i]; simpl; auto.
Qed.

Lemma nth_error_list_set_eq (A : Type) (i : nat) (v : A) (l : list A) :
  i < length l -> nth_error (list_set i v l) i = Some v.
Proof.
  revert i. induction l as [| h t IH]; intros [| i] H; simpl in *;
    try lia; auto. apply IH. lia.
Qed.

Lemma nth_error_list_set_neq (A : Type) (i j : nat) (v : A) (l : list A) :
  i <> j -> nth_error (list_set i v l) j = nth_error l j.
Proof.
  revert i j. induction l as [| h t IH]; intros [| i] [| j] H; simpl;
    auto; try congruence.
Qed.

Lemma list_set_same (A : Type) (i : nat) (v : A) (l : list A) :
  nth_error l i = Some v -> list_set i v l = l.
Proof.
  revert i. induction l as [| h t IH]; intros [| i] H; simpl in *;
    try congruence. f_equal. auto.
Qed.

Lemma list_set_twice (A : Type) (i : nat) (v w : A) (l : list A) :
  list_set i v (list_set i w l) = list_set i v l.
Proof.
  revert i. induction l as [| h t IH]; intros [| i]; simpl; auto.
  f_equal. auto.
Qed.

Lemma nth_list_set_eq (A : Type) (i : nat) (v d : A) (l : list A) :
  i < length l -> nth i (list_set i v l) d = v.
Proof.
  intros H. apply nth_error_nth. now apply nth_error_list_set_eq.
Qed.

Lemma nth_list_set_neq (A : Type) (i j : nat) (v d : A) (l : list A) :
  i <> j -> nth j (list_set i v l) d = nth j l d.
Proof.
  revert i j. induction l as [| h t IH]; intros [| i] [| j] H; simpl;
    auto; try congruence.
Qed.

(** Overwriting position [i] trades the old element for the new one. *)
Lemma list_set_Permutation (A : Type) (i : nat) (v old : A) (l : list A) :
  nth_error l i = Some old ->
  Permutation (old :: list_set i v l) (v :: l).
Proof.
  revert i. induction l as [| h t IH]; intros [| i] H; simpl in *;
    try discriminate.
  - injection H as ->. apply perm_swap.
  - eapply perm_trans; [apply perm_swap |].
    eapply perm_trans; [apply perm_skip, IH, H |]. apply perm_swap.
Qed.

(** The exchange [x[i], x[j] = x[j], x[i]] permutes the list. *)
Lemma exchange_Permutation (A : Type) (i j : nat) (xi xj : A) (l : list A) :
  nth_error l i = Some xi -> nth_error l j = Some xj ->
  Permutation (list_set j xi (list_set i xj l)) l.
Proof.
  intros Hi Hj.
  assert (Hj' : nth_error (list_set i xj l) j = Some xj).
  { destruct (Nat.eq_dec i j) as [-> | Hne].
    - apply nth_error_list_set_eq. apply nth_error_Some. congruence.
    - rewrite nth_error_list_set_neq; auto. }
  apply (Permutation_cons_inv (a := xj)).
  eapply perm_trans; [apply (list_set_Permutation _ _ _ _ _ Hj') |].
  eapply perm_trans; [apply (list_set_Permutation _ _ _ _ _ Hi) |].
  apply Permutation_refl.
Qed.

Lemma concat_list_set_app (A : Type) (k : nat) (group : list A) (data : A)
    (groups : list (list A)) :
  nth_error groups k = Some group ->
  Permutation (concat (list_set k (group ++ [data]) groups))
              (data :: concat groups).
Proof.
  revert k. induction groups as [| h t IH]; intros [| k] H; simpl in *;
    try discriminate.
  - injection H as ->. rewrite <- app_assoc. simpl.
    symmetry. apply Permutation_middle.
  - eapply perm_trans; [apply Permutation_app_head, IH, H |].
    symmetry. apply Permutation_middle.
Qed.

(** ** Round-robin arithmetic *)

Lemma succ_div_mod (g i : nat) :
  0 < g ->
  (i mod g + 1 < g /\ S i / g = i / g /\ S i mod g = i mod g + 1)
  \/ (i mod g + 1 = g /\ S i / g = i / g + 1 /\ S i mod g = 0).
Proof.
  intros Hg.
  pose proof (Nat.div_mod_eq i g) as E.
  pose proof (Nat.mod_upper_bound i g ltac:(lia)) as Hr.
  destruct (Nat.eq_dec (i mod g + 1) g) as [Heq | Hne].
  - right. split; [exact Heq |].
    assert (H : S i = g * (i / g + 1) + 0) by nia.
    split.
    + symmetry. apply (Nat.div_unique (S i) g (i / g + 1) 0); lia.
    + symmetry. apply (Nat.mod_unique (S i) g (i / g + 1) 0); lia.
  - left. split; [lia |].
    assert (H : S i = g * (i / g) + (i mod g + 1)) by nia.
    split.
    + symmetry. apply (Nat.div_unique (S i) g (i / g) (i mod g + 1)); lia.
    + symmetry. apply (Nat.mod_unique (S i) g (i / g) (i mod g + 1)); lia.
Qed.

Lemma slot_count_succ (g i k : nat) :
  0 < g -> k < g ->
  slot_count g (S i) k = slot_count g i k + (if k =? i mod g then 1 else 0).
Proof.
  intros Hg Hk. unfold slot_count.
  destruct (succ_div_mod g i Hg) as [[H1 [H2 H3]] | [H1 [H2 H3]]];
    rewrite H2, H3;
    destruct (Nat.eqb_spec k (i mod g));
    destruct (Nat.ltb_spec k (i mod g));
    try destruct (Nat.ltb_spec k (i mod g + 1));
    try destruct (Nat.ltb_spec k 0); lia.
Qed.

Lemma slot_count_own (g i : nat) : slot_count g i (i mod g) = i / g.
Proof.
  unfold slot_count. rewrite Nat.ltb_irrefl. lia.
Qed.

Lemma slot_count_floor_or_ceil (g n k : nat) :
  0 < g ->
  slot_count g n k = n / g \/ slot_count g n k = (n + g - 1) / g.
Proof.
  intros Hg. unfold slot_count.
  destruct (Nat.ltb_spec k (n mod g)) as [Hlt | Hge]; [right | left; lia].
  pose proof (Nat.div_mod_eq n g) as E.
  pose proof (Nat.mod_upper_bound n g ltac:(lia)) as Hr.
  apply (Nat.div_unique (n + g - 1) g (n / g + 1) (n mod g - 1)); nia.
Qed.

(** ** The round-robin deal *)

Lemma getitem_nth (A : Type) (l : list A) (i : nat) (d : A) :
  i < length l -> getitem l i = Ok (nth i l d).
Proof.
  intros H. unfold getitem. now rewrite (nth_error_nth' l d H).
Qed.

Lemma pymod_pos (a g : nat) : 0 < g -> pymod a g = Ok (a mod g).
Proof.
  intros H. unfold pymod. destruct (Nat.eqb_spec g 0); [lia | reflexivity].
Qed.

Lemma floordiv_pos (a g : nat) : 0 < g -> floordiv a g = Ok (a / g).
Proof.
  intros H. unfold floordiv. destruct (Nat.eqb_spec g 0); [lia | reflexivity].
Qed.

(** The loop invariant of [distribute_data_evenly]: when the groups hold
    the first [i] positions dealt round-robin, the loop ends with the
    groups holding the first [i + len(datas)] positions. *)
Lemma distribute_loop_spec (g : nat) :
  0 < g ->
  forall (datas : list float) (i : nat) (groups : list (list float)),
    length groups = g ->
    (forall k, k < g -> length (nth k groups []) = slot_count g i k) ->
    exists G,
      distribute_loop g i datas groups = Ok G
      /\ length G = g
      /\ Permutation (concat G) (datas ++ concat groups)
      /\ (forall k, k < g ->
          length (nth k G []) = slot_count g (i + length datas) k)
      /\ (forall k p, k < g -> p < slot_count g i k ->
          nth_error (nth k G []) p = nth_error (nth k groups []) p)
      /\ (forall j, j < length datas ->
          nth_error (nth ((i + j) mod g) G []) ((i + j) / g)
          = nth_error datas j).
Proof.
  intros Hg. induction datas as [| data rest IH]; intros i groups Hlen Hsize.
  - exists groups. simpl. rewrite Nat.add_0_r.
    repeat split; auto. intros j Hj. lia.
  - simpl. rewrite (pymod_pos i g Hg).
    set (r := i mod g).
    assert (Hr : r < g) by (apply Nat.mod_upper_bound; lia).
    rewrite (getitem_nth _ groups r [] ltac:(lia)).
    set (group := nth r groups []).
    set (groups' := list_set r (group ++ [data]) groups).
    assert (Hlen' : length groups' = g)
      by (unfold groups'; now rewrite list_set_length).
    assert (Hnth' : forall k, k < g ->
              nth k groups' [] = if k =? r then group ++ [data]
                                 else nth k groups []).
    { intros k Hk. unfold groups'. destruct (Nat.eqb_spec k r) as [-> | Hne].
      - apply nth_list_set_eq. lia.
      - apply nth_list_set_neq. auto. }
    assert (Hsize' : forall k, k < g ->
              length (nth k groups' []) = slot_count g (S i) k).
    { intros k Hk. rewrite (Hnth' k Hk), (slot_count_succ g i k Hg Hk).
      fold r. destruct (Nat.eqb_spec k r) as [-> | Hne].
      - rewrite length_app. simpl. unfold group. rewrite (Hsize r Hr). lia.
      - rewrite (Hsize k Hk). lia. }
    destruct (IH (S i) groups' Hlen' Hsize')
      as [G [HG [HlenG [Hperm [HsizeG [Hpre Hpos]]]]]].
    exists G. split; [exact HG |]. split; [exact HlenG |].
    assert (Hgroup_len : length group = i / g).
    { unfold group. rewrite (Hsize r Hr). apply slot_count_own. }
    repeat split.
    + eapply perm_trans; [exact Hperm |].
      eapply perm_trans.
      * apply Permutation_app_head.
        apply (concat_list_set_app _ r group data groups).
        unfold group. apply nth_error_nth'. lia.
      * symmetry. apply Permutation_middle.
    + intros k Hk. rewrite (HsizeG k Hk). f_equal. simpl. lia.
    + intros k p Hk Hp.
      rewrite (Hpre k p Hk).
      * rewrite (Hnth' k Hk). destruct (Nat.eqb_spec k r) as [-> | Hne]; auto.
        apply nth_error_app1. unfold group. rewrite (Hsize r Hr). exact Hp.
      * rewrite (slot_count_succ g i k Hg Hk). lia.
    + intros [| j] Hj; simpl in Hj.
      * rewrite Nat.add_0_r. fold r. simpl.
        rewrite (Hpre r (i / g) Hr).
        -- rewrite (Hnth' r Hr), Nat.eqb_refl.
           rewrite nth_error_app2 by lia.
           rewrite Hgroup_len, Nat.sub_diag. reflexivity.
        -- rewrite (slot_count_succ g i r Hg Hr). fold r.
           rewrite Nat.eqb_refl. unfold r. rewrite slot_count_own. lia.
      * replace (i + S j) with (S i + j) by lia.
        simpl nth_error. apply Hpos. lia.
Qed.

Lemma nth_repeat_nil (A : Type) (g k : nat) :
  nth k (repeat (@nil A) g) [] = [].
Proof.
  revert k. induction g as [| g IH]; intros [| k]; simpl; auto.
Qed.

(** What [distribute_data_evenly] returns for a positive group count. *)
Lemma distribute_data_evenly_spec (g : nat) (datas : list float) :
  0 < g ->
  exists G,
    distribute_data_evenly g datas = Ok G
    /\ length G = g
    /\ Permutation (concat G) datas
    /\ (forall k, k < g ->
        length (nth k G []) = slot_count g (length datas) k)
    /\ (forall j, j < length datas ->
        nth_error (nth (j mod g) G []) (j / g) = nth_error datas j).
Proof.
  intros Hg. unfold distribute_data_evenly.
  destruct (distribute_loop_spec g Hg datas 0 (repeat [] g))
    as [G [HG [HlenG [Hperm [HsizeG [_ Hpos]]]]]].
  - apply repeat_length.
  - intros k Hk. rewrite nth_repeat_nil. unfold slot_count.
    rewrite Nat.Div0.div_0_l, Nat.Div0.mod_0_l. reflexivity.
  - exists G. repeat split; auto.
    rewrite Hperm. clear. induction g as [| g IH]; simpl.
    + now rewrite app_nil_r.
    + exact IH.
Qed.

(** ** The shuffle *)

Lemma state_eta (s : State) :
  mkState (draws s) (cursor s) (heap s) (verdicts s) = s.
Proof. destruct s. reflexivity. Qed.

Lemma read_spec (a : ref) (s : State) (xs : list float) :
  nth_error (heap s) a = Some xs -> read a s = (Ok xs, s).
Proof.
  intros H. unfold read, getitem. now rewrite H.
Qed.

Lemma exchange_spec (x : ref) (i j : nat) (s : State) (xs : list float) :
  nth_error (heap s) x = Some xs ->
  i < length xs -> j < length xs ->
  exists xs',
    exchange x i j s
    = (Ok tt, mkState (draws s) (cursor s) (list_set x xs' (heap s)) (verdicts s))
    /\ Permutation xs' xs.
Proof.
  intros Hx Hi Hj.
  destruct (nth_error xs i) as [xi |] eqn:Ei;
    [| apply nth_error_None in Ei; lia].
  destruct (nth_error xs j) as [xj |] eqn:Ej;
    [| apply nth_error_None in Ej; lia].
  exists (list_set j xi (list_set i xj xs)). split.
  - unfold exchange, bind. rewrite (read_spec x s xs Hx).
    unfold lift, getitem. rewrite Ej, Ei. reflexivity.
  - now apply exchange_Permutation.
Qed.

Lemma shuffle_from_spec (x : ref) :
  forall (i : nat) (s : State) (xs : list float),
    nth_error (heap s) x = Some xs ->
    i < length xs \/ i = 0 ->
    exists xs',
      shuffle_from i x s
      = (Ok tt,
         mkState (draws s) (cursor s + i) (list_set x xs' (heap s)) (verdicts s))
      /\ Permutation xs' xs.
Proof.
  induction i as [| i IH]; intros s xs Hx Hi.
  - exists xs. split; [| apply Permutation_refl]. simpl. unfold ret.
    rewrite (list_set_same _ x xs (heap s) Hx), Nat.add_0_r.
    now rewrite state_eta.
  - assert (Hlt : S i < length xs) by lia.
    cbn [shuffle_from]. unfold bind at 1. unfold randbelow.
    set (j := draws s (cursor s) mod (S i + 1)).
    assert (Hj : j < length xs).
    { pose proof (Nat.mod_upper_bound (draws s (cursor s)) (S i + 1)
                    ltac:(lia)). fold j in H. lia. }
    set (s1 := mkState (draws s) (S (cursor s)) (heap s) (verdicts s)).
    destruct (exchange_spec x (S i) j s1 xs Hx Hlt Hj) as [xs1 [E1 P1]].
    unfold bind. rewrite E1.
    set (s2 := mkState (draws s1) (cursor s1) (list_set x xs1 (heap s1))
                       (verdicts s1)).
    assert (Hx2 : nth_error (heap s2) x = Some xs1).
    { simpl. apply nth_error_list_set_eq. apply nth_error_Some. congruence. }
    assert (Hi2 : i < length xs1 \/ i = 0).
    { left. rewrite (Permutation_length P1). lia. }
    destruct (IH s2 xs1 Hx2 Hi2) as [xs2 [E2 P2]].
    exists xs2. split; [| eapply perm_trans; eauto].
    rewrite E2. simpl. rewrite list_set_twice.
    f_equal. f_equal. lia.
Qed.

Lemma random_shuffle_spec (x : ref) (s : State) (xs : list float) :
  nth_error (heap s) x = Some xs ->
  exists xs',
    random_shuffle x s
    = (Ok tt,
       mkState (draws s) (cursor s + (length xs - 1))
               (list_set x xs' (heap s)) (verdicts s))
    /\ Permutation xs' xs.
Proof.
  intros Hx. unfold random_shuffle, bind. rewrite (read_spec x s xs Hx).
  apply shuffle_from_spec; [exact Hx | lia].
Qed.

(** One call of the Partitioner on an array holding [xs]: the array is
    shuffled in place, and the groups are dealt from its new contents. *)
Lemma group_randomly_spec (g : nat) (datas : ref) (s : State) (xs : list float) :
  0 < g ->
  nth_error (heap s) datas = Some xs ->
  exists shuffled groups,
    group_randomly g datas s
    = (Ok groups,
       mkState (draws s) (cursor s + (length xs - 1))
               (list_set datas shuffled (heap s)) (verdicts s))
    /\ Permutation shuffled xs
    /\ distribute_data_evenly g shuffled = Ok groups.
Proof.
  intros Hg Hx.
  destruct (random_shuffle_spec datas s xs Hx) as [shuffled [E P]].
  destruct (distribute_data_evenly_spec g shuffled Hg) as [groups [D _]].
  exists shuffled, groups. split; [| split; assumption].
  unfold group_randomly, bind. rewrite (read_spec datas s xs Hx).
  unfold lift at 1. rewrite (floordiv_pos _ g Hg).
  unfold lift at 1. rewrite (pymod_pos _ g Hg).
  rewrite E.
  rewrite read_spec with (xs := shuffled).
  - unfold lift. rewrite D. reflexivity.
  - simpl. apply nth_error_list_set_eq. apply nth_error_Some. congruence.
Qed.

(** ** The Partitioner *)

Lemma slot_position (g n k p : nat) :
  0 < g -> k < g -> p < slot_count g n k ->
  p * g + k < n /\ (p * g + k) mod g = k /\ (p * g + k) / g = p.
Proof.
  intros Hg Hk Hp. unfold slot_count in Hp.
  pose proof (Nat.div_mod_eq n g) as E.
  pose proof (Nat.mod_upper_bound n g ltac:(lia)) as Hr.
  split; [| split].
  - destruct (Nat.ltb_spec k (n mod g)); nia.
  - symmetry. apply (Nat.mod_unique (p * g + k) g p k); lia.
  - symmetry. apply (Nat.div_unique (p * g + k) g p k); lia.
Qed.

(** C4. For a group count of at least 1, the Partitioner [group_randomly]
    returns [group_amount] groups whose concatenation is a permutation of
    the input (each value as often as it occurs there), and the groups
    are disjoint as positions: position [j] of the shuffled sequence sits
    in slot [j / group_amount] of group [j mod group_amount], and every
    slot [p] of every group [k] holds position [p * group_amount + k]. *)
Theorem group_randomly_partitions
    (g : nat) (datas : ref) (s : State) (values : list float) :
  1 <= g ->
  nth_error (heap s) datas = Some values ->
  exists shuffled groups,
    fst (group_randomly g datas s) = Ok groups
    /\ length groups = g
    /\ Permutation (concat groups) values
    /\ Permutation shuffled values
    /\ (forall j, j < length shuffled ->
        nth_error (nth (j mod g) groups []) (j / g) = nth_error shuffled j)
    /\ (forall k p, k < g -> p < length (nth k groups []) ->
        p * g + k < length shuffled
        /\ nth_error (nth k groups []) p = nth_error shuffled (p * g + k)).
Proof.
  intros Hg Hx.
  destruct (group_randomly_spec g datas s values ltac:(lia) Hx)
    as [shuffled [groups [E [P D]]]].
  destruct (distribute_data_evenly_spec g shuffled ltac:(lia))
    as [G [D' [HlenG [Hperm [Hsize Hpos]]]]].
  assert (G = groups) by congruence. subst G.
  exists shuffled, groups. rewrite E. simpl.
  repeat split; auto.
  - eapply perm_trans; eauto.
  - rewrite (Hsize k H) in H0.
    apply (slot_position g (length shuffled) k p); auto; lia.
  - rewrite (Hsize k H) in H0.
    destruct (slot_position g (length shuffled) k p ltac:(lia) H H0)
      as [Hlt [Hmod Hdiv]].
    specialize (Hpos (p * g + k) Hlt). now rewrite Hmod, Hdiv in Hpos.
Qed.

Lemma group_randomly_partitions_witness :
  1 <= 2
  /\ nth_error (heap (state_with zero_tape [[1; 2; 3]%float])) 0
     = Some [1; 2; 3]%float
  /\ exists shuffled groups,
       fst (group_randomly 2 0 (state_with zero_tape [[1; 2; 3]%float]))
       = Ok groups
       /\ length groups = 2
       /\ Permutation (concat groups) [1; 2; 3]%float
       /\ Permutation shuffled [1; 2; 3]%float
       /\ (forall j, j < length shuffled ->
           nth_error (nth (j mod 2) groups []) (j / 2) = nth_error shuffled j)
       /\ (forall k p, k < 2 -> p < length (nth k groups []) ->
           p * 2 + k < length shuffled
           /\ nth_error (nth k groups []) p = nth_error shuffled (p * 2 + k)).
Proof.
  split; [lia |]. split; [reflexivity |].
  apply (group_randomly_partitions 2 0 (state_with zero_tape [[1; 2; 3]%float])
           [1; 2; 3]%float); [lia | reflexivity].
Defined.

(** C5. For an input of size [n] and a group count [g >= 1], each of the
    [g] groups of the Partitioner has size [n / g] or [(n + g - 1) / g]
    (floor or ceiling), group [k] having one element more exactly when
    [k < n mod g]; two groups differ in size by at most 1; and an empty
    input gives [g] empty groups. *)
Theorem group_randomly_near_even
    (g : nat) (datas : ref) (s : State) (values : list float) :
  1 <= g ->
  nth_error (heap s) datas = Some values ->
  exists groups,
    fst (group_randomly g datas s) = Ok groups
    /\ length groups = g
    /\ (forall k, k < g ->
        length (nth k groups []) = slot_count g (length values) k)
    /\ Forall (fun group =>
                 length group = length values / g
                 \/ length group = (length values + g - 1) / g) groups
    /\ (forall a b, In a groups -> In b groups -> length a <= length b + 1)
    /\ (values = [] -> groups = repeat [] g).
Proof.
  intros Hg Hx.
  destruct (group_randomly_spec g datas s values ltac:(lia) Hx)
    as [shuffled [groups [E [P D]]]].
  destruct (distribute_data_evenly_spec g shuffled ltac:(lia))
    as [G [D' [HlenG [Hperm [Hsize Hpos]]]]].
  assert (G = groups) by congruence. subst G.
  rewrite (Permutation_length P) in Hsize.
  exists groups. rewrite E. simpl.
  split; [reflexivity |]. split; [exact HlenG |]. split; [exact Hsize |].
  split; [| split].
  - apply Forall_forall. intros group Hin.
    destruct (In_nth groups group [] Hin) as [k [Hk <-]].
    rewrite (Hsize k ltac:(lia)). apply slot_count_floor_or_ceil. lia.
  - intros a b Ha Hb.
    destruct (In_nth groups a [] Ha) as [ka [Hka <-]].
    destruct (In_nth groups b [] Hb) as [kb [Hkb <-]].
    rewrite (Hsize ka ltac:(lia)), (Hsize kb ltac:(lia)).
    unfold slot_count.
    destruct (ka <? length values mod g), (kb <? length values mod g); lia.
  - intros ->. apply Permutation_sym, Permutation_nil in P. subst shuffled.
    unfold distribute_data_evenly in D. simpl in D. congruence.
Qed.

Lemma group_randomly_near_even_witness :
  1 <= 2
  /\ nth_error (heap (state_with zero_tape [[1; 2; 3]%float])) 0
     = Some [1; 2; 3]%float
  /\ exists groups,
       fst (group_randomly 2 0 (state_with zero_tape [[1; 2; 3]%float]))
       = Ok groups
       /\ length groups = 2
       /\ (forall k, k < 2 ->
           length (nth k groups []) = slot_count 2 (length [1; 2; 3]%float) k)
       /\ Forall (fun group =>
                    length group = length [1; 2; 3]%float / 2
                    \/ length group = (length [1; 2; 3]%float + 2 - 1) / 2) groups
       /\ (forall a b, In a groups -> In b groups -> length a <= length b + 1)
       /\ ([1; 2; 3]%float = [] -> groups = repeat [] 2).
Proof.
  split; [lia |]. split; [reflexivity |].
  apply (group_randomly_near_even 2 0 (state_with zero_tape [[1; 2; 3]%float])
           [1; 2; 3]%float); [lia | reflexivity].
Defined.

(** C9, as the code has it.  The Partitioner shuffles the caller's array
    in place: after the call the array holds a permutation of what it
    held, in the order from which the groups were dealt; every other
    array is left as it was. *)
Theorem group_randomly_shuffles_in_place
    (g : nat) (datas : ref) (s : State) (values : list float) :
  1 <= g ->
  nth_error (heap s) datas = Some values ->
  exists shuffled groups,
    fst (group_randomly g datas s) = Ok groups
    /\ nth_error (heap (snd (group_randomly g datas s))) datas = Some shuffled
    /\ Permutation shuffled values
    /\ distribute_data_evenly g shuffled = Ok groups
    /\ (forall other, other <> datas ->
        nth_error (heap (snd (group_randomly g datas s))) other
        = nth_error (heap s) other).
Proof.
  intros Hg Hx.
  destruct (group_randomly_spec g datas s values ltac:(lia) Hx)
    as [shuffled [groups [E [P D]]]].
  exists shuffled, groups. rewrite E. simpl.
  repeat split; auto.
  - apply nth_error_list_set_eq. apply nth_error_Some. congruence.
  - intros other Hne. apply nth_error_list_set_neq. auto.
Qed.

Lemma group_randomly_shuffles_in_place_witness :
  1 <= 1
  /\ nth_error (heap (state_with zero_tape [[1; 2]%float])) 0 = Some [1; 2]%float
  /\ exists shuffled groups,
       fst (group_randomly 1 0 (state_with zero_tape [[1; 2]%float])) = Ok groups
       /\ nth_error
            (heap (snd (group_randomly 1 0 (state_with zero_tape [[1; 2]%float])))) 0
          = Some shuffled
       /\ Permutation shuffled [1; 2]%float
       /\ distribute_data_evenly 1 shuffled = Ok groups
       /\ (forall other, other <> 0 ->
           nth_error
             (heap (snd (group_randomly 1 0 (state_with zero_tape [[1; 2]%float]))))
             other
           = nth_error (heap (state_with zero_tape [[1; 2]%float])) other).
Proof.
  split; [lia |]. split; [reflexivity |].
  apply (group_randomly_shuffles_in_place 1 0 (state_with zero_tape [[1; 2]%float])
           [1; 2]%float); [lia | reflexivity].
Defined.

(** C9 as stated fails: with the draw 0 the array [[1, 2]] passed to
    [group_randomly] holds [[2, 1]] when the call returns. *)
Lemma group_randomly_mutates_caller_array :
  nth_error (heap (state_with zero_tape [[1; 2]%float])) 0 = Some [1; 2]%float
  /\ fst (group_randomly 1 0 (state_with zero_tape [[1; 2]%float]))
     = Ok [[2; 1]%float]
  /\ nth_error
       (heap (snd (group_randomly 1 0 (state_with zero_tape [[1; 2]%float])))) 0
     = Some [2; 1]%float
  /\ [2; 1]%float <> [1; 2]%float.
Proof.
  split; [reflexivity |]. split; [reflexivity |]. split; [reflexivity |].
  intros H.
  apply (f_equal (fun l => match l with
                           | x :: _ => PrimFloat.eqb x 1
                           | [] => false
                           end)) in H.
  vm_compute in H. discriminate.
Qed.

(** ** Ragged partitions *)

Lemma check_verdict_iff_homogeneous (threshold : float)
    (groups : list (list float)) :
  (exists b, check_std_deviation_within_threshold threshold groups = Ok b)
  <-> homogeneous groups = true.
Proof.
  unfold check_std_deviation_within_threshold, np_std_nested.
  destruct (homogeneous groups); split; intros H; eauto; try discriminate.
  destruct H as [b H]. discriminate.
Qed.

Lemma check_ragged (threshold : float) (groups : list (list float))
    (a b : list float) :
  In a groups -> In b groups -> length a <> length b ->
  check_std_deviation_within_threshold threshold groups
  = Raise ValueError_inhomogeneous.
Proof.
  intros Ha Hb Hne.
  unfold check_std_deviation_within_threshold, np_std_nested.
  destruct (homogeneous groups) eqn:E; [| reflexivity].
  destruct (homogeneous_inv groups E) as [m Hm].
  rewrite Forall_forall in Hm.
  rewrite (Hm a Ha), (Hm b Hb) in Hne. congruence.
Qed.

(** When the group count does not divide the number of values, the first
    and the last group of the deal differ in size. *)
Lemma distribute_ragged (g : nat) (datas : list float)
    (groups : list (list float)) :
  1 <= g -> length datas mod g <> 0 ->
  distribute_data_evenly g datas = Ok groups ->
  In (nth 0 groups []) groups /\ In (nth (g - 1) groups []) groups
  /\ length (nth 0 groups []) <> length (nth (g - 1) groups []).
Proof.
  intros Hg Hmod D.
  destruct (distribute_data_evenly_spec g datas ltac:(lia))
    as [G [D' [HlenG [_ [Hsize _]]]]].
  assert (G = groups) by congruence. subst G.
  split; [apply nth_In; lia |]. split; [apply nth_In; lia |].
  rewrite (Hsize 0 ltac:(lia)), (Hsize (g - 1) ltac:(lia)).
  unfold slot_count.
  pose proof (Nat.mod_upper_bound (length datas) g ltac:(lia)).
  destruct (Nat.ltb_spec 0 (length datas mod g));
    destruct (Nat.ltb_spec (g - 1) (length datas mod g)); lia.
Qed.

(** C10. [check_std_deviation_within_threshold] returns a verdict
    exactly on the partitions whose groups all have one length; on any
    other it fails with numpy's error, which is none of the classified
    kinds.  When the group count does not divide the number of values,
    the Partitioner returns groups of two different sizes, the check
    fails on them, and so does the retry search at its first check. *)
Theorem check_total_only_on_equal_lengths (g : nat) (threshold : float) :
  (forall groups,
      (exists b, check_std_deviation_within_threshold threshold groups = Ok b)
      <-> (exists m, Forall (fun group => length group = m) groups))
  /\ (forall groups,
      ~ (exists m, Forall (fun group => length group = m) groups) ->
      check_std_deviation_within_threshold threshold groups
      = Raise ValueError_inhomogeneous
      /\ kind_of ValueError_inhomogeneous = Unclassified)
  /\ (forall datas s values,
      1 <= g ->
      nth_error (heap s) datas = Some values ->
      length values mod g <> 0 ->
      exists groups a b,
        fst (group_randomly g datas s) = Ok groups
        /\ In a groups /\ In b groups /\ length a <> length b
        /\ check_std_deviation_within_threshold threshold groups
           = Raise ValueError_inhomogeneous
        /\ fst (group_based_on_deviation g threshold datas s)
           = Raise ValueError_inhomogeneous).
Proof.
  split; [| split].
  - intros groups. rewrite check_verdict_iff_homogeneous. split.
    + apply homogeneous_inv.
    + intros [m Hm]. now apply (homogeneous_Forall m).
  - intros groups Hno. split; [| reflexivity].
    unfold check_std_deviation_within_threshold, np_std_nested.
    destruct (homogeneous groups) eqn:E; [| reflexivity].
    exfalso. apply Hno. now apply homogeneous_inv.
  - intros datas s values Hg Hx Hmod.
    destruct (group_randomly_spec g datas s values ltac:(lia) Hx)
      as [shuffled [groups [E [P D]]]].
    rewrite <- (Permutation_length P) in Hmod.
    destruct (distribute_ragged g shuffled groups Hg Hmod D) as [Ha [Hb Hne]].
    pose proof (check_ragged threshold groups _ _ Ha Hb Hne) as Hc.
    exists groups, (nth 0 groups []), (nth (g - 1) groups []).
    rewrite E. simpl. repeat split; auto.
    unfold group_based_on_deviation, bind. rewrite E.
    cbn [deviation_loop]. unfold bind, call_check. rewrite Hc. reflexivity.
Qed.

(** ** The matching loop *)

Lemma list_index_In (v : nat) (l : list nat) :
  In v l -> exists k, list_index v l = Ok k /\ nth_error l k = Some v.
Proof.
  induction l as [| h t IH]; simpl; [tauto |]. intros Hin.
  destruct (Nat.eqb_spec h v) as [-> | Hne].
  - exists 0. auto.
  - destruct Hin as [-> | Hin]; [congruence |].
    destruct (IH Hin) as [k [E N]]. exists (S k). rewrite E. auto.
Qed.

Lemma list_pop_spec (A : Type) (k : nat) (v : A) (l : list A) :
  nth_error l k = Some v ->
  exists l', list_pop k l = Ok l' /\ Permutation l (v :: l').
Proof.
  revert k. induction l as [| h t IH]; intros [| k] H; simpl in *;
    try discriminate.
  - injection H as ->. exists t. auto.
  - destruct (IH k H) as [t' [E P]]. exists (h :: t'). rewrite E.
    split; [reflexivity |].
    eapply perm_trans; [apply perm_skip, P |]. apply perm_swap.
Qed.

Lemma random_choice_spec (seq : list nat) (s : State) :
  seq <> [] ->
  exists number,
    random_choice seq s
    = (Ok number, mkState (draws s) (S (cursor s)) (heap s) (verdicts s))
    /\ In number seq.
Proof.
  intros Hne. destruct seq as [| h t]; [congruence |].
  unfold random_choice, bind, randbelow.
  set (j := draws s (cursor s) mod length (h :: t)).
  assert (Hj : j < length (h :: t))
    by (apply Nat.mod_upper_bound; simpl; lia).
  exists (nth j (h :: t) 0). unfold lift.
  rewrite (getitem_nth _ (h :: t) j 0 Hj). split; [reflexivity |].
  now apply nth_In.
Qed.

(** One pass of the [for] loop draws one index per position and pairs
    the positions with a permutation of the labels. *)
Lemma combine_for_spec (list1 list2 : list (list float)) :
  forall (indices : list nat) (combined : list (list float)) (labels : list nat)
         (s : State),
    length labels = length indices ->
    (forall i, In i indices -> i < length list1) ->
    (forall n, In n labels -> n < length list2) ->
    exists matching,
      combine_for indices list1 list2 combined labels s
      = (Ok (combined ++ matched_groups list1 list2 indices matching),
         mkState (draws s) (cursor s + length indices) (heap s) (verdicts s))
      /\ Permutation matching labels.
Proof.
  induction indices as [| i rest IH]; intros combined labels s Hlen H1 H2.
  - destruct labels; [| discriminate]. exists [].
    split; [| constructor]. simpl. unfold ret, matched_groups. simpl.
    now rewrite app_nil_r, Nat.add_0_r, state_eta.
  - assert (Hne : labels <> []) by (destruct labels; discriminate).
    destruct (random_choice_spec labels s Hne) as [number [E Hin]].
    destruct (list_index_In number labels Hin) as [k [Ek Hk]].
    destruct (list_pop_spec _ k number labels Hk) as [labels' [Ep P]].
    set (s1 := mkState (draws s) (S (cursor s)) (heap s) (verdicts s)).
    destruct (IH (combined ++ [nth i list1 [] ++ nth number list2 []])
                 labels' s1) as [matching [Er Pm]].
    + apply Permutation_length in P. simpl in *. lia.
    + intros i' Hi'. apply H1. now right.
    + intros n Hn. apply H2. apply (Permutation_in n (Permutation_sym P)).
      now right.
    + exists (number :: matching). split.
      * cbn [combine_for]. unfold bind at 1. rewrite E.
        unfold bind at 1. unfold lift at 1.
        rewrite (getitem_nth _ list1 i [] (H1 i (or_introl eq_refl))).
        unfold bind at 1. unfold lift at 1.
        rewrite (getitem_nth _ list2 number [] (H2 number Hin)).
        unfold bind at 1. unfold lift at 1. rewrite Ek.
        unfold bind at 1. unfold lift at 1. rewrite Ep.
        fold s1. rewrite Er. unfold matched_groups. simpl.
        rewrite <- app_assoc. simpl. f_equal. f_equal. lia.
      * eapply perm_trans; [apply perm_skip, Pm |]. now apply Permutation_sym.
Qed.

Lemma combine_for_range (g : nat) (list1 list2 : list (list float)) (s : State) :
  length list1 = g -> length list2 = g ->
  exists matching,
    combine_for (seq 0 g) list1 list2 [] (seq 0 g) s
    = (Ok (matched_groups list1 list2 (seq 0 g) matching),
       mkState (draws s) (cursor s + g) (heap s) (verdicts s))
    /\ Permutation matching (seq 0 g).
Proof.
  intros H1 H2.
  destruct (combine_for_spec list1 list2 (seq 0 g) [] (seq 0 g) s)
    as [matching [E P]]; auto.
  - intros i Hi. apply in_seq in Hi. lia.
  - intros n Hn. apply in_seq in Hn. lia.
  - exists matching. rewrite length_seq in E. auto.
Qed.

(** A partition the matching loop returns is the merge of some matching. *)
Lemma combine_while_returns (g : nat) (threshold : float)
    (list1 list2 : list (list float)) (combined : list (list float)) :
  length list1 = g -> length list2 = g ->
  forall (fuel counter : nat) (s : State),
    fst (combine_while g threshold fuel list1 list2 counter s) = Ok combined ->
    exists matching,
      Permutation matching (seq 0 g)
      /\ combined = matched_groups list1 list2 (seq 0 g) matching.
Proof.
  intros H1 H2. induction fuel as [| fuel IH]; intros counter s H.
  - discriminate.
  - cbn [combine_while] in H. unfold bind at 1 in H.
    destruct (combine_for_range g list1 list2 s H1 H2) as [matching [E P]].
    rewrite E in H.
    destruct (MAX_RETRIES <? counter + 1); [discriminate |].
    unfold bind, call_check in H.
    destruct (check_std_deviation_within_threshold threshold _) as [[|] | e |];
      try discriminate.
    + apply IH in H. exact H.
    + simpl in H. injection H as <-. eauto.
Qed.

Lemma map_nth_seq_all (A : Type) (l : list A) (d : A) :
  map (fun i => nth i l d) (seq 0 (length l)) = l.
Proof.
  induction l as [| h t IH]; simpl; [reflexivity |]. f_equal.
  rewrite <- seq_shift, map_map. exact IH.
Qed.

Lemma nth_map_in_range (A B : Type) (f : A -> B) (l : list A) (i : nat)
    (d : B) (d' : A) :
  i < length l -> nth i (map f l) d = f (nth i l d').
Proof.
  intros H. rewrite (nth_indep (map f l) d (f d')) by now rewrite length_map.
  apply map_nth.
Qed.

Lemma matched_groups_sizes (list1 list2 : list (list float)) :
  forall indices matching,
    length indices = length matching ->
    list_sum (map (@length float) (matched_groups list1 list2 indices matching))
    = list_sum (map (fun i => length (nth i list1 [])) indices)
      + list_sum (map (fun n => length (nth n list2 [])) matching).
Proof.
  induction indices as [| i rest IH]; intros [| n matching] H;
    try discriminate; [reflexivity |].
  unfold matched_groups in *. simpl. rewrite length_app.
  rewrite IH by (simpl in H; lia). lia.
Qed.

Lemma list_sum_lengths_seq (l : list (list float)) :
  list_sum (map (fun i => length (nth i l [])) (seq 0 (length l)))
  = length (concat l).
Proof.
  rewrite length_concat.
  rewrite <- (map_map (fun i => nth i l []) (@length float)).
  now rewrite map_nth_seq_all.
Qed.

(** C6. When both partitions have [group_amount] groups, a partition
    returned by [combine_lists_within_threshold] is the merge along a
    bijection of the group labels: it has [group_amount] groups, group
    [i] is female group [i] followed by the male group matched to it, so
    its size is the sum of the two sizes, and the element count is the
    female count plus the male count. *)
Theorem combine_lists_sizes (g : nat) (threshold : float)
    (list1 list2 combined : list (list float)) (s : State) :
  length list1 = g ->
  length list2 = g ->
  fst (combine_lists_within_threshold g threshold list1 list2 s) = Ok combined ->
  exists matching,
    Permutation matching (seq 0 g)
    /\ combined = matched_groups list1 list2 (seq 0 g) matching
    /\ length combined = g
    /\ (forall i, i < g ->
        nth i combined [] = nth i list1 [] ++ nth (nth i matching 0) list2 []
        /\ length (nth i combined [])
           = length (nth i list1 []) + length (nth (nth i matching 0) list2 []))
    /\ length (concat combined)
       = length (concat list1) + length (concat list2).
Proof.
  intros H1 H2 H.
  destruct (combine_while_returns g threshold list1 list2 combined H1 H2
              _ _ _ H) as [matching [P ->]].
  assert (Hlen : length (seq 0 g) = length matching)
    by (symmetry; apply Permutation_length; exact P).
  exists matching. split; [exact P |]. split; [reflexivity |].
  assert (Hcount : length (matched_groups list1 list2 (seq 0 g) matching) = g).
  { unfold matched_groups. rewrite length_map, length_combine, <- Hlen.
    rewrite length_seq. lia. }
  split; [exact Hcount |]. split.
  - intros i Hi.
    assert (Hnth : nth i (matched_groups list1 list2 (seq 0 g) matching) []
                   = nth i list1 [] ++ nth (nth i matching 0) list2 []).
    { unfold matched_groups.
      rewrite (nth_map_in_range _ _ _ _ i [] (0, 0))
        by (rewrite length_combine, <- Hlen, length_seq; lia).
      rewrite (combine_nth _ _ _ _ _ Hlen).
      rewrite seq_nth by lia. reflexivity. }
    rewrite Hnth. split; [reflexivity | apply length_app].
  - rewrite length_concat, (matched_groups_sizes _ _ _ _ Hlen).
    rewrite (Permutation_list_sum
               (Permutation_map (fun n => length (nth n list2 [])) P)).
    rewrite <- H1 at 1. rewrite <- H2.
    now rewrite !list_sum_lengths_seq.
Qed.

(** A run of the recombination that returns: one female group, one male
    group, threshold 1. *)
Lemma check_one_one_accepted :
  check_std_deviation_within_threshold 1 [[1; 1]]%float = Ok false.
Proof.
  vm_compute. reflexivity.
Qed.

Lemma combine_lists_single_run (tape : nat -> nat) :
  fst (combine_lists_within_threshold 1 1 [[1%float]] [[1%float]]
         (state_with tape []))
  = Ok [[1; 1]%float].
Proof.
  unfold combine_lists_within_threshold. cbn [combine_while].
  unfold bind at 1.
  assert (E : combine_for (seq 0 1) [[1%float]] [[1%float]] [] (seq 0 1)
                (state_with tape [])
              = (Ok [[1; 1]%float], mkState tape 1 [] [])) by reflexivity.
  rewrite E.
  change (MAX_RETRIES <? 0 + 1) with false. cbv iota.
  unfold bind, call_check.
  rewrite check_one_one_accepted. reflexivity.
Qed.

Lemma combine_lists_sizes_witness :
  length [[1%float]] = 1
  /\ length [[1%float]] = 1
  /\ fst (combine_lists_within_threshold 1 1 [[1%float]] [[1%float]]
            (state_with zero_tape []))
     = Ok [[1; 1]%float]
  /\ exists matching,
       Permutation matching (seq 0 1)
       /\ [[1; 1]%float] = matched_groups [[1%float]] [[1%float]] (seq 0 1) matching
       /\ length [[1; 1]%float] = 1
       /\ (forall i, i < 1 ->
           nth i [[1; 1]%float] []
           = nth i [[1%float]] [] ++ nth (nth i matching 0) [[1%float]] []
           /\ length (nth i [[1; 1]%float] [])
              = length (nth i [[1%float]] [])
                + length (nth (nth i matching 0) [[1%float]] []))
       /\ length (concat [[1; 1]%float])
          = length (concat [[1%float]]) + length (concat [[1%float]]).
Proof.
  split; [reflexivity |]. split; [reflexivity |].
  split; [apply combine_lists_single_run |].
  apply (combine_lists_sizes 1 1 [[1%float]] [[1%float]] [[1; 1]%float]
           (state_with zero_tape []));
    [reflexivity | reflexivity | apply combine_lists_single_run].
Defined.

(** ** The retry budget *)

Lemma repeat_true_shift (k : nat) (v : list bool) :
  repeat true k ++ true :: v = repeat true (S k) ++ v.
Proof.
  change (true :: v) with ([true] ++ v).
  rewrite app_assoc, <- repeat_cons. reflexivity.
Qed.

(** When every deal of the data is rejected, the [while] loop of
    [group_based_on_deviation] entered with [counter] runs
    [MAX_RETRIES + 1 - counter] rejected checks, one shuffle after each,
    and raises. *)
Lemma deviation_loop_exhausts (g : nat) (threshold : float) (data : ref)
    (xs : list float) :
  0 < g ->
  (forall ys, Permutation ys xs ->
     exists groups,
       distribute_data_evenly g ys = Ok groups
       /\ check_std_deviation_within_threshold threshold groups = Ok true) ->
  forall (fuel counter : nat) (s : State) (ys : list float)
         (grouped : list (list float)),
    nth_error (heap s) data = Some ys ->
    Permutation ys xs ->
    check_std_deviation_within_threshold threshold grouped = Ok true ->
    counter <= MAX_RETRIES ->
    MAX_RETRIES + 1 <= fuel + counter ->
    exists s',
      deviation_loop g threshold fuel data grouped counter s
      = (Raise (OverRetryException MAX_RETRIES), s')
      /\ verdicts s' = repeat true (MAX_RETRIES + 1 - counter) ++ verdicts s
      /\ cursor s'
         = cursor s + (MAX_RETRIES + 1 - counter) * (length xs - 1).
Proof.
  intros Hg Hrej.
  induction fuel as [| fuel IH];
    intros counter s ys grouped Hx Hp Hc Hle Hfuel; [lia |].
  cbn [deviation_loop]. unfold bind at 1. unfold call_check. rewrite Hc.
  set (s1 := mkState (draws s) (cursor s) (heap s) (true :: verdicts s)).
  destruct (group_randomly_spec g data s1 ys Hg Hx)
    as [shuffled [groups [E [P D]]]].
  unfold bind at 1. rewrite E.
  assert (Pxs : Permutation shuffled xs) by (eapply perm_trans; eauto).
  rewrite (Permutation_length Hp) in *.
  destruct (Nat.ltb_spec MAX_RETRIES (counter + 1)) as [Hlt | Hge].
  - eexists. split; [reflexivity |]. subst s1. cbn [verdicts cursor].
    replace (MAX_RETRIES + 1 - counter) with 1 by lia.
    split; [reflexivity | lia].
  - destruct (Hrej shuffled Pxs) as [groups' [D' Hc']].
    assert (groups' = groups) by congruence. subst groups'.
    set (s2 := mkState (draws s1) (cursor s1 + (length xs - 1))
                       (list_set data shuffled (heap s1)) (verdicts s1)) in *.
    assert (Hx2 : nth_error (heap s2) data = Some shuffled).
    { subst s2 s1. cbn [heap]. apply nth_error_list_set_eq.
      apply nth_error_Some. congruence. }
    destruct (IH (counter + 1) s2 shuffled groups Hx2 Pxs Hc'
                 ltac:(lia) ltac:(lia)) as [s' [Es [Hv Hcur]]].
    exists s'. split; [exact Es |]. split.
    + rewrite Hv. subst s2 s1. cbn [verdicts]. rewrite repeat_true_shift.
      f_equal. f_equal. lia.
    + rewrite Hcur. subst s2 s1. cbn [cursor].
      replace (MAX_RETRIES + 1 - counter)
        with (S (MAX_RETRIES + 1 - (counter + 1))) by lia.
      lia.
Qed.

Lemma group_based_on_deviation_exhausts (g : nat) (threshold : float) (data : ref)
    (xs : list float) (s : State) :
  0 < g ->
  (forall ys, Permutation ys xs ->
     exists groups,
       distribute_data_evenly g ys = Ok groups
       /\ check_std_deviation_within_threshold threshold groups = Ok true) ->
  nth_error (heap s) data = Some xs ->
  exists s',
    group_based_on_deviation g threshold data s
    = (Raise (OverRetryException MAX_RETRIES), s')
    /\ verdicts s' = repeat true (MAX_RETRIES + 1) ++ verdicts s
    /\ cursor s' = cursor s + (MAX_RETRIES + 2) * (length xs - 1).
Proof.
  intros Hg Hrej Hx.
  destruct (group_randomly_spec g data s xs Hg Hx)
    as [shuffled [groups [E [P D]]]].
  destruct (Hrej shuffled P) as [groups' [D' Hc]].
  assert (groups' = groups) by congruence. subst groups'.
  unfold group_based_on_deviation, bind. rewrite E.
  set (s2 := mkState (draws s) (cursor s + (length xs - 1))
                     (list_set data shuffled (heap s)) (verdicts s)).
  assert (Hx2 : nth_error (heap s2) data = Some shuffled).
  { subst s2. cbn [heap]. apply nth_error_list_set_eq.
    apply nth_error_Some. congruence. }
  destruct (deviation_loop_exhausts g threshold data xs Hg Hrej
              (S MAX_RETRIES) 0 s2 shuffled groups Hx2 P Hc
              ltac:(lia) ltac:(lia)) as [s' [Es [Hv Hcur]]].
  exists s'. split; [exact Es |]. split.
  - rewrite Hv. subst s2. cbn [verdicts]. now rewrite Nat.sub_0_r.
  - rewrite Hcur. subst s2. cbn [cursor]. lia.
Qed.

(** The matching loop, when every matching is rejected: entered with
    [counter] it builds [MAX_RETRIES + 1 - counter] matchings and
    checks all but the last. *)
Lemma combine_while_exhausts (g : nat) (threshold : float)
    (list1 list2 : list (list float)) :
  length list1 = g -> length list2 = g ->
  (forall matching, Permutation matching (seq 0 g) ->
     check_std_deviation_within_threshold threshold
       (matched_groups list1 list2 (seq 0 g) matching) = Ok true) ->
  forall (fuel counter : nat) (s : State),
    counter <= MAX_RETRIES ->
    MAX_RETRIES + 1 <= fuel + counter ->
    exists s',
      combine_while g threshold fuel list1 list2 counter s
      = (Raise (OverRetryException MAX_RETRIES), s')
      /\ verdicts s' = repeat true (MAX_RETRIES - counter) ++ verdicts s
      /\ cursor s' = cursor s + (MAX_RETRIES + 1 - counter) * g.
Proof.
  intros H1 H2 Hrej.
  induction fuel as [| fuel IH]; intros counter s Hle Hfuel; [lia |].
  cbn [combine_while]. unfold bind at 1.
  destruct (combine_for_range g list1 list2 s H1 H2) as [matching [E P]].
  rewrite E.
  destruct (Nat.ltb_spec MAX_RETRIES (counter + 1)) as [Hlt | Hge].
  - eexists. split; [reflexivity |]. cbn [verdicts cursor].
    replace (MAX_RETRIES - counter) with 0 by lia.
    replace (MAX_RETRIES + 1 - counter) with 1 by lia.
    split; [reflexivity | lia].
  - unfold bind at 1. unfold call_check. rewrite (Hrej matching P).
    set (s2 := mkState (draws s) (cursor s + g) (heap s)
                       (true :: verdicts s)).
    destruct (IH (counter + 1) s2 ltac:(lia) ltac:(lia))
      as [s' [Es [Hv Hcur]]].
    exists s'. split; [exact Es |]. split.
    + rewrite Hv. subst s2. cbn [verdicts]. rewrite repeat_true_shift.
      f_equal. f_equal. lia.
    + rewrite Hcur. subst s2. cbn [cursor].
      replace (MAX_RETRIES + 1 - counter)
        with (S (MAX_RETRIES + 1 - (counter + 1))) by lia.
      lia.
Qed.

(** A single group of the weights 0 and 1 under threshold 0.5: the
    group's deviation is the reference deviation, 0.5, and the bound is
    0.25, whatever the order.  All of this is exact in binary64. *)
Lemma zero_one_always_rejected (ys : list float) :
  Permutation ys [0; 1]%float ->
  exists groups,
    distribute_data_evenly 1 ys = Ok groups
    /\ check_std_deviation_within_threshold 0.5 groups = Ok true.
Proof.
  intros Hp. apply Permutation_sym in Hp.
  apply Permutation_length_2_inv in Hp.
  destruct Hp as [-> | ->]; eexists; (split; [reflexivity |]);
    vm_compute; reflexivity.
Qed.

(** C2, on the weights [[0, 1]] with one group and threshold 0.5, where
    every candidate is rejected whatever the draws.  The search checks
    and rejects 1001 candidates (and shuffles 1002 times, one draw each)
    before it raises [OverRetryException], and so does [__init__] on a
    table with these weights; the matching loop on the groups [[0]] and
    [[1]] checks and rejects 1000 matchings (and builds 1001, one draw
    each) before it raises the same exception. *)
Theorem retry_loops_at_exhaustion (tape : nat -> nat) :
  (exists s',
      group_based_on_deviation 1 0.5 0 (state_with tape [[0; 1]%float])
      = (Raise (OverRetryException 1000), s')
      /\ kind_of (OverRetryException 1000) = RetryExhausted
      /\ verdicts s' = repeat true 1001
      /\ cursor s' = 1002)
  /\ (exists s',
      init 1 0.5
        (mkDataFrame ["Weight"; "Sex"]%string [0; 1]%float ["F"; "M"]%string)
        false (state_with tape [])
      = (Raise (OverRetryException 1000), s')
      /\ verdicts s' = repeat true 1001
      /\ cursor s' = 1002)
  /\ (exists s',
      combine_lists_within_threshold 1 0.5 [[0%float]] [[1%float]]
        (state_with tape [])
      = (Raise (OverRetryException 1000), s')
      /\ verdicts s' = repeat true 1000
      /\ cursor s' = 1001).
Proof.
  destruct (group_based_on_deviation_exhausts 1 0.5 0 [0; 1]%float
              (state_with tape [[0; 1]%float]) ltac:(lia)
              zero_one_always_rejected eq_refl) as [s' [E [Hv Hc]]].
  assert (Hv' : verdicts s' = repeat true 1001)
    by (rewrite Hv; now rewrite app_nil_r).
  assert (Hc' : cursor s' = 1002) by (rewrite Hc; reflexivity).
  split; [| split].
  - exists s'. repeat split; assumption.
  - exists s'. unfold init.
    replace (negb (existsb (String.eqb WEIGHT_COLUMN) _)
             || negb (existsb (String.eqb SEX_COLUMN) _)) with false
      by reflexivity.
    unfold bind at 1. unfold np_array.
    cbn [state_with heap length app draws cursor verdicts df_weight].
    cbv beta iota. unfold bind. unfold state_with in E. rewrite E.
    repeat split; assumption.
  - destruct (combine_while_exhausts 1 0.5 [[0%float]] [[1%float]]
                eq_refl eq_refl) with (fuel := S MAX_RETRIES) (counter := 0)
                (s := state_with tape []) as [s2 [E2 [Hv2 Hc2]]].
    + intros matching Hp. apply Permutation_sym in Hp.
      apply Permutation_length_1_inv in Hp. subst matching.
      vm_compute. reflexivity.
    + lia.
    + lia.
    + exists s2. split; [exact E2 |].
      split; [rewrite Hv2; now rewrite app_nil_r | rewrite Hc2; reflexivity].
Qed.

(** ** The output table *)

Lemma combine_app (A B : Type) (l1 l2 : list A) (m1 m2 : list B) :
  length l1 = length m1 ->
  combine (l1 ++ l2) (m1 ++ m2) = combine l1 m1 ++ combine l2 m2.
Proof.
  revert m1. induction l1 as [| a l1 IH]; intros [| b m1] H;
    try discriminate; simpl; [reflexivity |].
  f_equal. apply IH. simpl in H. lia.
Qed.

(** Assigning a column of the index's length adds the column. *)
Lemma setitem_same_length (df : Frame) (key : string) (values : list float) :
  index_length df = length values ->
  setitem df key values
  = Ok (mkFrame (length values)
                (frame_columns df ++ [(key, map Some values)])).
Proof.
  intros H. destruct df as [n cols]. simpl in H. subst n. unfold setitem.
  cbn [index_length frame_columns].
  destruct (Nat.eqb_spec (length values) 0) as [E | E];
    cbn [negb andb]; rewrite ?andb_false_r;
    cbn [index_length frame_columns]; now rewrite Nat.eqb_refl.
Qed.

(** Assigning a non-empty column to a frame without rows sets the index
    and fills the columns already there with the missing marker. *)
Lemma setitem_first_rows (df : Frame) (key : string) (values : list float) :
  index_length df = 0 -> values <> [] ->
  setitem df key values
  = Ok (mkFrame (length values)
                (map (fun c => (fst c, repeat None (length values)))
                     (frame_columns df)
                 ++ [(key, map Some values)])).
Proof.
  intros H Hne. destruct df as [n cols]. simpl in H. subst n. unfold setitem.
  cbn [index_length frame_columns].
  destruct (Nat.eqb_spec (length values) 0) as [E | E].
  - destruct values; [congruence | discriminate].
  - cbn [Nat.eqb negb andb index_length frame_columns].
    now rewrite Nat.eqb_refl.
Qed.

(** Any other length is refused. *)
Lemma setitem_mismatch (df : Frame) (key : string) (values : list float) :
  index_length df <> 0 -> length values <> index_length df ->
  setitem df key values
  = Raise (ValueError_length (length values) (index_length df)).
Proof.
  intros H0 Hne. destruct df as [n cols]. simpl in *. unfold setitem.
  cbn [index_length frame_columns].
  destruct (Nat.eqb_spec n 0) as [E | E]; [congruence |].
  cbn [andb index_length].
  destruct (Nat.eqb_spec (length values) n); [congruence | reflexivity].
Qed.

Lemma labelled_cons (i : nat) (c : list (option float))
    (columns : list (list (option float))) :
  labelled i (c :: columns) = (column_name i, c) :: labelled (S i) columns.
Proof. reflexivity. Qed.

Lemma labelled_app (i : nat) (c1 c2 : list (list (option float))) :
  labelled i (c1 ++ c2) = labelled i c1 ++ labelled (i + length c1) c2.
Proof.
  unfold labelled. rewrite length_app, seq_app, map_app.
  apply combine_app. now rewrite length_map, length_seq.
Qed.

Lemma convert_loop_equal (m : nat) :
  forall (groups : list (list float)) (i : nat) (df : Frame),
    Forall (fun group => length group = m) groups ->
    index_length df = m ->
    convert_loop i groups df
    = Ok (mkFrame m (frame_columns df
                     ++ labelled i (map (map Some) groups))).
Proof.
  induction groups as [| group rest IH]; intros i df Hall Hm.
  - simpl. rewrite app_nil_r. destruct df. simpl in Hm. now subst.
  - inversion Hall as [| ? ? Hg Hrest].
    cbn [convert_loop].
    rewrite (setitem_same_length df _ group (eq_trans Hm (eq_sym Hg))).
    rewrite IH by (exact Hrest || exact Hg). cbn [frame_columns map].
    rewrite labelled_cons, <- app_assoc. reflexivity.
Qed.

(** Empty groups assigned to a frame without rows add empty columns. *)
Lemma convert_loop_leading_empty (rest : list (list float)) :
  forall (k i : nat) (df : Frame),
    index_length df = 0 ->
    convert_loop i (repeat [] k ++ rest) df
    = convert_loop (i + k) rest
        (mkFrame 0 (frame_columns df ++ labelled i (repeat [] k))).
Proof.
  induction k as [| k IH]; intros i df H0.
  - simpl. rewrite Nat.add_0_r. unfold labelled. simpl. rewrite app_nil_r.
    destruct df. simpl in H0. now subst.
  - cbn [repeat app convert_loop].
    rewrite (setitem_same_length df _ [] H0). cbn [length map].
    rewrite IH by reflexivity. cbn [frame_columns].
    rewrite labelled_cons, <- app_assoc.
    replace (S i + k) with (i + S k) by lia. reflexivity.
Qed.

Lemma map_fill_labelled (m i k : nat) :
  map (fun c : string * list (option float) => (fst c, repeat None m))
      (labelled i (repeat [] k))
  = labelled i (repeat (repeat None m) k).
Proof.
  revert i. induction k as [| k IH]; intros i; [reflexivity |].
  cbn [repeat]. rewrite !labelled_cons. cbn [map fst]. now rewrite IH.
Qed.

(** The table for [k] empty groups followed by groups of one length. *)
Lemma convert_loop_aligned (k m : nat) (rest : list (list float)) :
  rest <> [] ->
  Forall (fun group => length group = m) rest ->
  convert_loop 0 (repeat [] k ++ rest) empty_frame
  = Ok (mkFrame m (labelled 0 (repeat (repeat None m) k
                               ++ map (map Some) rest))).
Proof.
  intros Hne Hall.
  rewrite (convert_loop_leading_empty rest k 0 empty_frame eq_refl).
  cbn [empty_frame frame_columns app Nat.add].
  destruct rest as [| group rest']; [congruence |].
  inversion Hall as [| ? ? Hg Hrest]; subst.
  cbn [convert_loop].
  rewrite labelled_app, repeat_length. cbn [Nat.add map].
  rewrite labelled_cons.
  destruct group as [| x group'].
  - rewrite setitem_same_length by reflexivity.
    rewrite (convert_loop_equal 0) by (exact Hrest || reflexivity).
    cbn [frame_columns length map repeat]. rewrite <- app_assoc. reflexivity.
  - rewrite setitem_first_rows by (reflexivity || discriminate).
    rewrite (convert_loop_equal (length (x :: group')))
      by (exact Hrest || reflexivity).
    cbn [frame_columns]. rewrite map_fill_labelled, <- app_assoc.
    reflexivity.
Qed.

(** Once the index has rows, the loop succeeds only on groups of the
    index's length. *)
Lemma convert_loop_rows_inv (m : nat) :
  m <> 0 ->
  forall (groups : list (list float)) (i : nat) (df fr : Frame),
    index_length df = m ->
    convert_loop i groups df = Ok fr ->
    Forall (fun group => length group = m) groups.
Proof.
  intros Hm. induction groups as [| group rest IH]; intros i df fr Hdf H;
    [constructor |].
  cbn [convert_loop] in H.
  destruct (Nat.eq_dec (length group) m) as [E | E].
  - rewrite (setitem_same_length df _ group (eq_trans Hdf (eq_sym E))) in H.
    constructor; [exact E |]. eapply IH; [| exact H]. exact E.
  - rewrite setitem_mismatch in H by congruence. discriminate.
Qed.

(** A partition the loop accepts from the empty frame is some empty
    groups followed by groups of one length. *)
Lemma convert_loop_ok_inv :
  forall (groups : list (list float)) (i : nat) (df fr : Frame),
    index_length df = 0 ->
    convert_loop i groups df = Ok fr ->
    exists k rest m,
      groups = repeat [] k ++ rest
      /\ Forall (fun group => length group = m) rest.
Proof.
  induction groups as [| group rest IH]; intros i df fr Hdf H.
  - exists 0, [], 0. split; [reflexivity | constructor].
  - cbn [convert_loop] in H. destruct group as [| x group'].
    + rewrite (setitem_same_length df _ [] Hdf) in H.
      apply IH in H; [| reflexivity].
      destruct H as [k [rest' [m [-> Hall]]]].
      exists (S k), rest', m. split; [reflexivity | exact Hall].
    + rewrite setitem_first_rows in H by (assumption || discriminate).
      apply convert_loop_rows_inv with (m := length (x :: group')) in H;
        [| discriminate | reflexivity].
      exists 0, ((x :: group') :: rest), (length (x :: group')).
      split; [reflexivity |]. constructor; [reflexivity | exact H].
Qed.

(** The loop fails only with the length mismatch of pandas. *)
Lemma convert_loop_failure :
  forall (groups : list (list float)) (i : nat) (df : Frame),
    (exists fr, convert_loop i groups df = Ok fr)
    \/ (exists values index,
          convert_loop i groups df = Raise (ValueError_length values index)).
Proof.
  induction groups as [| group rest IH]; intros i df.
  - left. eexists. reflexivity.
  - cbn [convert_loop].
    destruct (setitem df (column_name i) group) as [fr | e |] eqn:E.
    + apply IH.
    + right. unfold setitem in E.
      destruct (length group =? _); [discriminate |].
      injection E as <-. eauto.
    + unfold setitem in E. destruct (length group =? _); discriminate.
Qed.

Lemma convert_to_df_enough (g : nat) (groups : list (list float)) :
  g <= length groups ->
  convert_to_df g groups = convert_loop 0 groups empty_frame.
Proof.
  intros H. unfold convert_to_df.
  destruct (Nat.ltb_spec (length groups) g); [lia | reflexivity].
Qed.

(** C7, as the code has it.  [convert_to_df] raises the shape error
    exactly when the partition has fewer groups than [group_amount].
    With at least [group_amount] groups, all of one length, the table
    has one column per group, labelled "Group 1", "Group 2", ... in
    group order, each holding its group's values. *)
Theorem convert_to_df_shape (g : nat) (groups : list (list float)) (m : nat) :
  (length groups < g ->
   convert_to_df g groups = Raise (ValueError_groups g (length groups))
   /\ kind_of (ValueError_groups g (length groups)) = ShapeError)
  /\ (g <= length groups ->
      forall e, convert_to_df g groups = Raise e -> kind_of e <> ShapeError)
  /\ (g <= length groups ->
      Forall (fun group => length group = m) groups ->
      convert_to_df g groups
      = Ok (mkFrame (match groups with [] => 0 | _ :: _ => m end)
                    (labelled 0 (map (map Some) groups))))
  /\ column_name 0 = "Group 1"%string
  /\ column_name 1 = "Group 2"%string
  /\ column_name 11 = "Group 12"%string.
Proof.
  split; [| split; [| split]].
  - intros H. unfold convert_to_df.
    destruct (Nat.ltb_spec (length groups) g); [| lia]. auto.
  - intros H e He. rewrite (convert_to_df_enough g groups H) in He.
    destruct (convert_loop_failure groups 0 empty_frame)
      as [[fr E] | [values [index E]]]; rewrite E in He;
      [discriminate |].
    injection He as <-. discriminate.
  - intros H Hall. rewrite (convert_to_df_enough g groups H).
    destruct groups as [| group rest]; [reflexivity |].
    apply (convert_loop_aligned 0 m (group :: rest)); [discriminate | exact Hall].
  - repeat split.
Qed.

(** C7 as stated fails: two groups for [group_amount = 2], of lengths 2
    and 1, give no table but the length error of pandas. *)
Lemma convert_to_df_ragged_fails :
  2 <= length [[1; 2]; [3]]%float
  /\ convert_to_df 2 [[1; 2]; [3]]%float = Raise (ValueError_length 1 2)
  /\ kind_of (ValueError_length 1 2) = Unclassified.
Proof.
  split; [simpl; lia |]. split; reflexivity.
Qed.

(** C8, as the code has it.  With at least [group_amount] groups,
    [convert_to_df] pads nothing but empty columns that come before
    every non-empty group: for [k] empty groups followed by groups of
    one length [m] it returns the table whose first [k] columns hold [m]
    missing markers; for every other partition it fails with the length
    error of pandas. *)
Theorem convert_to_df_unequal_lengths (g : nat) (groups : list (list float)) :
  g <= length groups ->
  (forall k rest m,
      groups = repeat [] k ++ rest ->
      rest <> [] ->
      Forall (fun group => length group = m) rest ->
      convert_to_df g groups
      = Ok (mkFrame m (labelled 0 (repeat (repeat None m) k
                                   ++ map (map Some) rest))))
  /\ (~ (exists k rest m,
            groups = repeat [] k ++ rest
            /\ Forall (fun group => length group = m) rest) ->
      exists values index,
        convert_to_df g groups = Raise (ValueError_length values index)
        /\ kind_of (ValueError_length values index) = Unclassified).
Proof.
  intros H. rewrite (convert_to_df_enough g groups H). split.
  - intros k rest m -> Hne Hall. now apply convert_loop_aligned.
  - intros Hno.
    destruct (convert_loop_failure groups 0 empty_frame)
      as [[fr E] | [values [index E]]].
    + exfalso. apply Hno.
      apply (convert_loop_ok_inv groups 0 empty_frame fr eq_refl E).
    + exists values, index. split; [exact E | reflexivity].
Qed.

Lemma convert_to_df_unequal_lengths_witness :
  2 <= length [[]; [1; 2]]%float
  /\ (forall k rest m,
         [[]; [1; 2]]%float = repeat [] k ++ rest ->
         rest <> [] ->
         Forall (fun group => length group = m) rest ->
         convert_to_df 2 [[]; [1; 2]]%float
         = Ok (mkFrame m (labelled 0 (repeat (repeat None m) k
                                      ++ map (map Some) rest))))
  /\ (~ (exists k rest m,
            [[]; [1; 2]]%float = repeat [] k ++ rest
            /\ Forall (fun group => length group = m) rest) ->
      exists values index,
        convert_to_df 2 [[]; [1; 2]]%float = Raise (ValueError_length values index)
        /\ kind_of (ValueError_length values index) = Unclassified).
Proof.
  split; [simpl; lia |].
  apply (convert_to_df_unequal_lengths 2 [[]; [1; 2]]%float). simpl. lia.
Defined.

(** C8 as stated fails: a group of one value followed by a group of two
    is not padded, the second assignment raises. *)
Lemma convert_to_df_no_padding :
  2 <= length [[1]; [2; 3]]%float
  /\ length (nth 0 [[1]; [2; 3]]%float []) <> length (nth 1 [[1]; [2; 3]]%float [])
  /\ convert_to_df 2 [[1]; [2; 3]]%float = Raise (ValueError_length 2 1).
Proof.
  split; [simpl; lia |]. split; [simpl; lia | reflexivity].
Qed.

(** The one padded shape, run: an empty group before a group of two. *)
Lemma convert_to_df_leading_empty_example :
  convert_to_df 2 [[]; [1; 2]]%float
  = Ok (mkFrame 2 [("Group 1"%string, [None; None]);
                   ("Group 2"%string, [Some 1%float; Some 2%float])]).
Proof. reflexivity. Qed.

(** ** Validation of the input table *)

Lemma ordinarily_ret (A : Type) (a : A) : ordinarily (ret a).
Proof. intros s. exact I. Qed.

Lemma ordinarily_raise (A : Type) (e : exn) :
  e <> ValueError_columns -> ordinarily (@raise A e).
Proof. intros Hne s. exact Hne. Qed.

Lemma ordinarily_lift (A : Type) (o : outcome A) :
  ordinary o -> ordinarily (lift o).
Proof. intros Ho s. exact Ho. Qed.

Lemma ordinarily_bind (A B : Type) (m : M A) (k : A -> M B) :
  ordinarily m ->
  (forall a, ordinarily (k a)) ->
  ordinarily (bind m k).
Proof.
  intros Hm Hk s. unfold bind. specialize (Hm s).
  destruct (m s) as [[a | e' |] s']; simpl in *; auto. apply Hk.
Qed.

Lemma ordinary_getitem (A : Type) (l : list A) (i : nat) :
  ordinary (getitem l i).
Proof.
  unfold getitem. destruct (nth_error l i); simpl; [exact I | discriminate].
Qed.

Lemma ordinary_pymod (a b : nat) : ordinary (pymod a b).
Proof.
  unfold pymod. destruct (b =? 0); simpl; [discriminate | exact I].
Qed.

Lemma ordinary_floordiv (a b : nat) : ordinary (floordiv a b).
Proof.
  unfold floordiv. destruct (b =? 0); simpl; [discriminate | exact I].
Qed.

Lemma ordinary_list_index (v : nat) (l : list nat) :
  ordinary (list_index v l).
Proof.
  induction l as [| h t IH]; simpl; [discriminate |].
  destruct (h =? v); [exact I |].
  destruct (list_index v t) as [k | e' |]; simpl in *; auto.
Qed.

Lemma ordinary_list_pop (A : Type) (k : nat) (l : list A) :
  ordinary (list_pop k l).
Proof.
  revert k. induction l as [| h t IH]; intros [| k]; simpl;
    try discriminate; try exact I.
  specialize (IH k).
  destruct (list_pop k t) as [t' | e' |]; simpl in *; auto.
Qed.

Lemma ordinary_distribute_loop (g : nat) (datas : list float) :
  forall i groups, ordinary (distribute_loop g i datas groups).
Proof.
  induction datas as [| data rest IH]; intros i groups; simpl; [exact I |].
  pose proof (ordinary_pymod i g) as Hm.
  destruct (pymod i g) as [k | e' |]; simpl in *; auto.
  pose proof (ordinary_getitem _ groups k) as Hg.
  destruct (getitem groups k) as [group | e' |]; simpl in *; auto.
Qed.

Lemma ordinary_check (threshold : float) (groups : list (list float)) :
  ordinary (check_std_deviation_within_threshold threshold groups).
Proof.
  unfold check_std_deviation_within_threshold, np_std_nested.
  destruct (homogeneous groups); simpl; [exact I | discriminate].
Qed.

Lemma ordinary_convert_to_df (g : nat) (groups : list (list float)) :
  ordinary (convert_to_df g groups).
Proof.
  unfold convert_to_df.
  destruct (length groups <? g); simpl; [discriminate |].
  destruct (convert_loop_failure groups 0 empty_frame)
    as [[fr E] | [values [index E]]]; rewrite E; simpl;
    [exact I | discriminate].
Qed.

Lemma ordinarily_randbelow (n : nat) : ordinarily (randbelow n).
Proof. intros s. exact I. Qed.

Lemma ordinarily_np_array (values : list float) : ordinarily (np_array values).
Proof. intros s. exact I. Qed.

Lemma ordinarily_read (a : ref) : ordinarily (read a).
Proof. intros s. apply (ordinary_getitem _ (heap s) a). Qed.

Lemma ordinarily_write (a : ref) (values : list float) :
  ordinarily (write a values).
Proof. intros s. exact I. Qed.

Ltac ordinary_step :=
  first
    [ apply ordinarily_ret
    | apply ordinarily_randbelow
    | apply ordinarily_np_array
    | apply ordinarily_read
    | apply ordinarily_write
    | apply ordinarily_lift;
      first [ apply ordinary_getitem | apply ordinary_pymod
            | apply ordinary_floordiv | apply ordinary_list_index
            | apply ordinary_list_pop | apply ordinary_distribute_loop
            | apply ordinary_convert_to_df ]
    | apply ordinarily_raise; discriminate
    | apply ordinarily_bind; [| intros ? ] ].

Lemma ordinarily_exchange (x : ref) (i j : nat) : ordinarily (exchange x i j).
Proof. unfold exchange. repeat ordinary_step. Qed.

Lemma ordinarily_shuffle_from (x : ref) (i : nat) :
  ordinarily (shuffle_from i x).
Proof.
  induction i as [| i IH]; cbn [shuffle_from]; [apply ordinarily_ret |].
  apply ordinarily_bind; [apply ordinarily_randbelow | intros j].
  apply ordinarily_bind; [apply ordinarily_exchange | intros _; exact IH].
Qed.

Lemma ordinarily_random_choice (seq : list nat) :
  ordinarily (random_choice seq).
Proof.
  unfold random_choice. destruct seq; repeat ordinary_step.
Qed.

Lemma ordinarily_group_randomly (g : nat) (datas : ref) :
  ordinarily (group_randomly g datas).
Proof.
  unfold group_randomly, random_shuffle, distribute_data_evenly.
  apply ordinarily_bind; [apply ordinarily_read | intros xs].
  apply ordinarily_bind; [ordinary_step | intros q].
  apply ordinarily_bind; [ordinary_step | intros r].
  apply ordinarily_bind.
  - apply ordinarily_bind;
      [apply ordinarily_read | intros ys; apply ordinarily_shuffle_from].
  - intros _. repeat ordinary_step.
Qed.

Lemma ordinarily_call_check (threshold : float) (groups : list (list float)) :
  ordinarily (call_check threshold groups).
Proof.
  intros s. unfold call_check.
  pose proof (ordinary_check threshold groups) as H.
  destruct (check_std_deviation_within_threshold threshold groups)
    as [b | e' |]; simpl in *; auto.
Qed.

(** The [while] loop of the search has fuel enough whenever the fuel
    covers what is left of the retry budget. *)
Lemma ordinarily_deviation_loop (g : nat) (threshold : float) (data : ref) :
  forall fuel grouped counter,
    counter <= MAX_RETRIES ->
    MAX_RETRIES + 1 <= fuel + counter ->
    ordinarily (deviation_loop g threshold fuel data grouped counter).
Proof.
  induction fuel as [| fuel IH]; intros grouped counter Hle Hfuel; [lia |].
  cbn [deviation_loop].
  apply ordinarily_bind; [apply ordinarily_call_check | intros [|]];
    [| apply ordinarily_ret].
  apply ordinarily_bind; [apply ordinarily_group_randomly | intros grouped'].
  destruct (Nat.ltb_spec MAX_RETRIES (counter + 1));
    [apply ordinarily_raise; discriminate | apply IH; lia].
Qed.

Lemma ordinarily_group_based_on_deviation (g : nat) (threshold : float)
    (data : ref) :
  ordinarily (group_based_on_deviation g threshold data).
Proof.
  unfold group_based_on_deviation.
  apply ordinarily_bind; [apply ordinarily_group_randomly | intros grouped].
  apply ordinarily_deviation_loop; lia.
Qed.

Lemma ordinarily_combine_for (list1 list2 : list (list float)) :
  forall indices combined labels,
    ordinarily (combine_for indices list1 list2 combined labels).
Proof.
  induction indices as [| i rest IH]; intros combined labels;
    cbn [combine_for]; [apply ordinarily_ret |].
  apply ordinarily_bind; [apply ordinarily_random_choice | intros number].
  apply ordinarily_bind; [ordinary_step | intros a].
  apply ordinarily_bind; [ordinary_step | intros b].
  apply ordinarily_bind; [ordinary_step | intros k].
  apply ordinarily_bind; [ordinary_step | intros labels']. apply IH.
Qed.

Lemma ordinarily_combine_while (g : nat) (threshold : float)
    (list1 list2 : list (list float)) :
  forall fuel counter,
    counter <= MAX_RETRIES ->
    MAX_RETRIES + 1 <= fuel + counter ->
    ordinarily (combine_while g threshold fuel list1 list2 counter).
Proof.
  induction fuel as [| fuel IH]; intros counter Hle Hfuel; [lia |].
  cbn [combine_while].
  apply ordinarily_bind; [apply ordinarily_combine_for | intros combined].
  destruct (Nat.ltb_spec MAX_RETRIES (counter + 1));
    [apply ordinarily_raise; discriminate |].
  apply ordinarily_bind; [apply ordinarily_call_check | intros [|]];
    [apply IH; lia | apply ordinarily_ret].
Qed.

Lemma ordinarily_combine_lists_within_threshold (g : nat) (threshold : float)
    (list1 list2 : list (list float)) :
  ordinarily (combine_lists_within_threshold g threshold list1 list2).
Proof.
  unfold combine_lists_within_threshold.
  apply ordinarily_combine_while; lia.
Qed.

Lemma ordinarily_group_based_on_deviation_and_gender (g : nat) (threshold : float)
    (df : DataFrame) :
  ordinarily (group_based_on_deviation_and_gender g threshold df).
Proof.
  unfold group_based_on_deviation_and_gender.
  apply ordinarily_bind; [apply ordinarily_np_array | intros female].
  apply ordinarily_bind; [apply ordinarily_np_array | intros male].
  apply ordinarily_bind; [apply ordinarily_group_based_on_deviation | intros gf].
  apply ordinarily_bind; [apply ordinarily_group_based_on_deviation | intros gm].
  apply ordinarily_bind;
    [apply ordinarily_combine_lists_within_threshold | intros both].
  repeat ordinary_step.
Qed.

(** What [__init__] does once the columns are there. *)
Lemma ordinarily_init_body (g : nat) (threshold : float) (df : DataFrame)
    (is_based_on_gender : bool) :
  ordinarily
    (data <- np_array (df_weight df);;
     if is_based_on_gender
     then
       r <- group_based_on_deviation_and_gender g threshold df;;
       (let '(grouped, female, male) := r in
        out <- lift (convert_to_df g grouped);;
        ret (mkAnimal_grouper data grouped out (Some female) (Some male)))
     else
       grouped <- group_based_on_deviation g threshold data;;
       out <- lift (convert_to_df g grouped);;
       ret (mkAnimal_grouper data grouped out None None)).
Proof.
  apply ordinarily_bind; [apply ordinarily_np_array | intros data].
  destruct is_based_on_gender.
  - apply ordinarily_bind;
      [apply ordinarily_group_based_on_deviation_and_gender
      | intros [[grouped female] male]].
    repeat ordinary_step.
  - apply ordinarily_bind;
      [apply ordinarily_group_based_on_deviation | intros grouped].
    repeat ordinary_step.
Qed.

(** The fuel the entry points pass to their loops is enough: no run of
    [__init__], of the search or of the recombination ends for lack of
    fuel. *)
Lemma entry_points_have_fuel (g : nat) (threshold : float) (s : State) :
  (forall data, fst (group_based_on_deviation g threshold data s) <> OutOfFuel)
  /\ (forall list1 list2,
         fst (combine_lists_within_threshold g threshold list1 list2 s)
         <> OutOfFuel)
  /\ (forall df gender, fst (init g threshold df gender s) <> OutOfFuel).
Proof.
  split; [| split].
  - intros data H.
    pose proof (ordinarily_group_based_on_deviation g threshold data s) as K.
    now rewrite H in K.
  - intros list1 list2 H.
    pose proof (ordinarily_combine_lists_within_threshold g threshold
                  list1 list2 s) as K.
    now rewrite H in K.
  - intros df gender H. unfold init in H.
    destruct (negb _ || negb _); [discriminate |].
    pose proof (ordinarily_init_body g threshold df gender s) as K.
    now rewrite H in K.
Qed.

Lemma existsb_eqb_In (name : string) (names : list string) :
  existsb (String.eqb name) names = true <-> In name names.
Proof.
  rewrite existsb_exists. split.
  - intros [x [Hin E]]. apply String.eqb_eq in E. now subst.
  - intros Hin. exists name. split; [exact Hin | apply String.eqb_refl].
Qed.

Lemma kind_schema (e : exn) :
  kind_of e = SchemaError <-> e = ValueError_columns.
Proof.
  split; [| intros ->; reflexivity]. destruct e; simpl; congruence.
Qed.

(** C3, as the code has it.  [__init__] raises the schema error exactly
    when the weight column or the sex column is missing, whatever
    [is_based_on_gender] says; it does so before anything else happens:
    no draw is taken, no array is built, no check is made. *)
Theorem init_schema_error_iff (g : nat) (threshold : float) (df : DataFrame)
    (is_based_on_gender : bool) (s : State) :
  ((exists e, fst (init g threshold df is_based_on_gender s) = Raise e
              /\ kind_of e = SchemaError)
   <-> (~ In WEIGHT_COLUMN (df_columns df) \/ ~ In SEX_COLUMN (df_columns df)))
  /\ ((exists e, fst (init g threshold df is_based_on_gender s) = Raise e
                 /\ kind_of e = SchemaError) ->
      init g threshold df is_based_on_gender s = (Raise ValueError_columns, s)).
Proof.
  unfold init.
  destruct (existsb (String.eqb WEIGHT_COLUMN) (df_columns df)) eqn:Ew;
    destruct (existsb (String.eqb SEX_COLUMN) (df_columns df)) eqn:Es;
    cbn [negb orb].
  1: {
    pose proof (ordinarily_init_body g threshold df is_based_on_gender s)
      as Hbody.
    apply existsb_eqb_In in Ew, Es.
    split; [split |].
    - intros [e [He Hk]]. apply kind_schema in Hk. subst e.
      rewrite He in Hbody. now elim Hbody.
    - intros [H | H]; contradiction.
    - intros [e [He Hk]]. apply kind_schema in Hk. subst e.
      rewrite He in Hbody. now elim Hbody. }
  all: split; [split |]; try (intros _; reflexivity).
  all: try (intros _; exists ValueError_columns; split; reflexivity).
  all: intros _.
  - right. rewrite <- existsb_eqb_In. congruence.
  - left. rewrite <- existsb_eqb_In. congruence.
  - left. rewrite <- existsb_eqb_In. congruence.
Qed.

(** C3 as stated fails: a table with a weight column and no sex column
    is refused with the schema error although gender-aware mode is off. *)
Lemma init_requires_sex_column_without_gender :
  In WEIGHT_COLUMN (df_columns (mkDataFrame ["Weight"%string] [1; 2]%float []))
  /\ fst (init 1 1 (mkDataFrame ["Weight"%string] [1; 2]%float []) false
            (state_with zero_tape []))
     = Raise ValueError_columns
  /\ kind_of ValueError_columns = SchemaError
  /\ ~ (~ In WEIGHT_COLUMN
            (df_columns (mkDataFrame ["Weight"%string] [1; 2]%float []))
        \/ (~ In SEX_COLUMN
              (df_columns (mkDataFrame ["Weight"%string] [1; 2]%float []))
            /\ false = true)).
Proof.
  split; [left; reflexivity |]. split; [reflexivity |].
  split; [reflexivity |].
  intros [H | [_ H]]; [| discriminate]. apply H. left. reflexivity.
Qed.

(** ** Rounding in the dispersion test *)

(** X1.  Relaxing the threshold never turns an accepted partition into a
    rejected one, in binary64 as it is: the product of the reference
    deviation and the threshold is rounded to nearest, and rounding is
    monotone.  The threshold to start from may be any number or plus
    infinity, not minus infinity. *)
Theorem check_accepts_larger_threshold
    (t t' : float) (groups : list (list float)) :
  (t <=? t')%float = true ->
  (neg_infinity <? t)%float = true ->
  check_std_deviation_within_threshold t groups = Ok false ->
  check_std_deviation_within_threshold t' groups = Ok false.
Proof.
  intros Htt Ht. unfold check_std_deviation_within_threshold, np_std_nested.
  destruct (homogeneous groups); [| discriminate].
  intros H. injection H as H. f_equal.
  rewrite existsb_false_map in *. intros g Hg.
  apply (mul_threshold_mono _ t t'); auto.
  apply np_std_not_negative.
Qed.

Lemma check_accepts_larger_threshold_witness :
  (1 <=? 2)%float = true
  /\ (neg_infinity <? 1)%float = true
  /\ check_std_deviation_within_threshold 1 [[1; 3]]%float = Ok false
  /\ check_std_deviation_within_threshold 2 [[1; 3]]%float = Ok false.
Proof.
  split; [reflexivity |]. split; [reflexivity |].
  split; [vm_compute; reflexivity |].
  apply (check_accepts_larger_threshold 1 2 [[1; 3]]%float);
    [reflexivity | reflexivity | vm_compute; reflexivity].
Defined.

(** The threshold minus infinity is left out above: against a computed
    reference deviation 0 it gives the bound [nan], under which
    everything is accepted, also what threshold 1 rejects. *)
Lemma minus_infinity_accepts_what_one_rejects :
  check_std_deviation_within_threshold neg_infinity
    [[0.1; 0.1; 0.1]; [0.1; 0.1; 0.1]; [0.1; 0.1; 0.1]]%float
  = Ok false
  /\ check_std_deviation_within_threshold 1
       [[0.1; 0.1; 0.1]; [0.1; 0.1; 0.1]; [0.1; 0.1; 0.1]]%float
     = Ok true.
Proof.
  split; vm_compute; reflexivity.
Qed.

(** X2.  The verdict depends on the order of the values inside a group.
    The groups [[24, 19, 34]] and [[24, 34, 19]] hold the same weights,
    but numpy's sums round differently: 6.236095644623235 for the first
    order and for the pooled six, 6.236095644623236 for the second.  At
    threshold 1 the partition is rejected, and accepted once the first
    group is put in the order of the second. *)
Theorem check_depends_on_order_inside_groups :
  Forall2 (@Permutation float)
          [[24; 19; 34]; [24; 34; 19]]%float [[24; 34; 19]; [24; 34; 19]]%float
  /\ check_std_deviation_within_threshold 1 [[24; 19; 34]; [24; 34; 19]]%float
     = Ok true
  /\ check_std_deviation_within_threshold 1 [[24; 34; 19]; [24; 34; 19]]%float
     = Ok false
  /\ map np_std [[24; 19; 34]; [24; 34; 19]]%float
     = [6.236095644623235; 6.236095644623236]%float
  /\ np_std (concat [[24; 19; 34]; [24; 34; 19]]%float)
     = 6.236095644623235%float
  /\ np_std (concat [[24; 34; 19]; [24; 34; 19]]%float)
     = 6.236095644623236%float.
Proof.
  split.
  { constructor; [| constructor; [apply Permutation_refl | constructor]].
    apply perm_skip. apply perm_swap. }
  repeat split; vm_compute; reflexivity.
Qed.

(** X3.  The verdict depends on the unit of the weights.  The partition
    [[58, 10, 2]], [[58, 2, 10]] is accepted at threshold 1; with every
    weight multiplied by 10 it is rejected: each group has the computed
    deviation 247.29649321321875, the pooled six 247.29649321321872. *)
Theorem check_depends_on_weight_unit :
  map (map (fun x => (10 * x)%float)) [[58; 10; 2]; [58; 2; 10]]%float
  = [[580; 100; 20]; [580; 20; 100]]%float
  /\ check_std_deviation_within_threshold 1 [[58; 10; 2]; [58; 2; 10]]%float
     = Ok false
  /\ check_std_deviation_within_threshold 1
       [[580; 100; 20]; [580; 20; 100]]%float
     = Ok true
  /\ map np_std [[580; 100; 20]; [580; 20; 100]]%float
     = [247.29649321321875; 247.29649321321875]%float
  /\ np_std (concat [[580; 100; 20]; [580; 20; 100]]%float)
     = 247.29649321321872%float.
Proof.
  repeat split; vm_compute; reflexivity.
Qed.

(** ** The outcomes of the search *)

Lemma same_except_refl (data : ref) (h : list (list float)) :
  same_except data h h.
Proof. split; auto. Qed.

Lemma same_except_set (data : ref) (v : list float) (h h' : list (list float)) :
  same_except data (list_set data v h) h' -> same_except data h h'.
Proof.
  intros [Hl Ho]. split.
  - now rewrite Hl, list_set_length.
  - intros other Hne. rewrite (Ho other Hne).
    apply nth_error_list_set_neq. auto.
Qed.

Lemma slot_count_divisible (g n k : nat) :
  n mod g = 0 -> slot_count g n k = n / g.
Proof.
  intros H. unfold slot_count. rewrite H. simpl. lia.
Qed.

(** When the group count divides the number of values, the deal is
    rectangular. *)
Lemma distribute_divisible (g : nat) (xs : list float)
    (groups : list (list float)) :
  0 < g -> length xs mod g = 0 ->
  distribute_data_evenly g xs = Ok groups ->
  length groups = g
  /\ Permutation (concat groups) xs
  /\ Forall (fun group => length group = length xs / g) groups.
Proof.
  intros Hg Hmod D.
  destruct (distribute_data_evenly_spec g xs Hg)
    as [G [D' [HlenG [Hperm [Hsize _]]]]].
  assert (G = groups) by congruence. subst G.
  split; [exact HlenG |]. split; [exact Hperm |].
  apply Forall_forall. intros group Hin.
  destruct (In_nth groups group [] Hin) as [k [Hk <-]].
  rewrite (Hsize k ltac:(lia)). now apply slot_count_divisible.
Qed.

Lemma check_rectangular (threshold : float) (groups : list (list float)) (m : nat) :
  Forall (fun group => length group = m) groups ->
  exists b, check_std_deviation_within_threshold threshold groups = Ok b.
Proof.
  intros H. apply check_verdict_iff_homogeneous.
  now apply (homogeneous_Forall m).
Qed.

(** One turn of the [while] loop of the search. *)
Lemma deviation_loop_step (g : nat) (threshold : float) (fuel : nat) (data : ref)
    (grouped : list (list float)) (counter : nat) (s : State) :
  deviation_loop g threshold (S fuel) data grouped counter s
  = match check_std_deviation_within_threshold threshold grouped with
    | Ok true =>
        match group_randomly g data
                (mkState (draws s) (cursor s) (heap s) (true :: verdicts s))
        with
        | (Ok grouped', s2) =>
            if MAX_RETRIES <? counter + 1
            then (Raise (OverRetryException MAX_RETRIES), s2)
            else deviation_loop g threshold fuel data grouped' (counter + 1) s2
        | (Raise e, s2) => (Raise e, s2)
        | (OutOfFuel, s2) => (OutOfFuel, s2)
        end
    | Ok false =>
        (Ok grouped,
         mkState (draws s) (cursor s) (heap s) (false :: verdicts s))
    | Raise e => (Raise e, s)
    | OutOfFuel => (OutOfFuel, s)
    end.
Proof.
  cbn [deviation_loop]. unfold bind at 1. unfold call_check.
  destruct (check_std_deviation_within_threshold threshold grouped)
    as [[|] | e |]; try reflexivity.
  unfold bind.
  destruct (group_randomly g data _) as [[grouped' | e |] s2];
    try reflexivity.
  destruct (MAX_RETRIES <? counter + 1); reflexivity.
Qed.

(** The [while] loop of the search when the group count divides the
    number of values: it returns an accepted deal after [k] rejected
    ones, or it exhausts the budget. *)
Lemma deviation_loop_divisible (g : nat) (threshold : float) (data : ref)
    (xs : list float) :
  0 < g -> length xs mod g = 0 ->
  forall (fuel counter : nat) (s : State) (ys : list float)
         (grouped : list (list float)),
    nth_error (heap s) data = Some ys ->
    Permutation ys xs ->
    distribute_data_evenly g ys = Ok grouped ->
    counter <= MAX_RETRIES ->
    MAX_RETRIES + 1 <= fuel + counter ->
    (exists groups s' k zs,
        deviation_loop g threshold fuel data grouped counter s = (Ok groups, s')
        /\ counter + k <= MAX_RETRIES
        /\ verdicts s' = false :: repeat true k ++ verdicts s
        /\ cursor s' = cursor s + k * (length xs - 1)
        /\ draws s' = draws s
        /\ nth_error (heap s') data = Some zs
        /\ same_except data (heap s) (heap s')
        /\ Permutation zs xs
        /\ distribute_data_evenly g zs = Ok groups
        /\ check_std_deviation_within_threshold threshold groups = Ok false)
    \/ (exists s',
        deviation_loop g threshold fuel data grouped counter s
        = (Raise (OverRetryException MAX_RETRIES), s')
        /\ verdicts s' = repeat true (MAX_RETRIES + 1 - counter) ++ verdicts s).
Proof.
  intros Hg Hmod.
  induction fuel as [| fuel IH];
    intros counter s ys grouped Hx Hp D Hle Hfuel; [lia |].
  assert (Hlen : length ys = length xs) by now apply Permutation_length.
  assert (Hmod' : length ys mod g = 0) by now rewrite Hlen.
  destruct (distribute_divisible g ys grouped Hg Hmod' D) as [_ [_ Hrect]].
  destruct (check_rectangular threshold grouped _ Hrect) as [b Hb].
  rewrite deviation_loop_step, Hb.
  set (s1 := mkState (draws s) (cursor s) (heap s) (b :: verdicts s)).
  destruct b.
  - destruct (group_randomly_spec g data s1 ys Hg Hx)
      as [shuffled [groups' [E [P D']]]].
    fold s1. rewrite E.
    set (s2 := mkState (draws s1) (cursor s1 + (length ys - 1))
                       (list_set data shuffled (heap s1)) (verdicts s1)) in *.
    assert (Pxs : Permutation shuffled xs) by (eapply perm_trans; eauto).
    assert (Hx2 : nth_error (heap s2) data = Some shuffled).
    { subst s2 s1. cbn [heap]. apply nth_error_list_set_eq.
      apply nth_error_Some. congruence. }
    destruct (Nat.ltb_spec MAX_RETRIES (counter + 1)) as [Hlt | Hge].
    + right. eexists. split; [reflexivity |].
      subst s2 s1. cbn [verdicts].
      replace (MAX_RETRIES + 1 - counter) with 1 by lia. reflexivity.
    + destruct (IH (counter + 1) s2 shuffled groups' Hx2 Pxs D'
                   ltac:(lia) ltac:(lia))
        as [[groups [s' [k [zs H]]]] | [s' [Es Hv]]].
      * destruct H as [Es [Hk [Hv [Hc [Hd [Hz [Hsame [Pz [Dz Hok]]]]]]]]].
        left. exists groups, s', (S k), zs.
        split; [exact Es |]. split; [lia |].
        split; [rewrite Hv; subst s2 s1; cbn [verdicts];
                now rewrite repeat_true_shift |].
        split; [rewrite Hc; subst s2 s1; cbn [cursor]; rewrite Hlen; lia |].
        split; [rewrite Hd; reflexivity |].
        split; [exact Hz |].
        split; [| auto].
        apply (same_except_set data shuffled). exact Hsame.
      * right. exists s'. split; [exact Es |].
        rewrite Hv. subst s2 s1. cbn [verdicts]. rewrite repeat_true_shift.
        f_equal. f_equal. lia.
  - left. exists grouped, s1, 0, ys.
    split; [reflexivity |]. split; [lia |].
    split; [reflexivity |]. split; [subst s1; cbn [cursor]; lia |].
    split; [reflexivity |]. split; [exact Hx |].
    split; [apply same_except_refl |]. auto.
Qed.

Lemma group_based_on_deviation_cases (g : nat) (threshold : float) (data : ref)
    (s : State) (values : list float) :
  0 < g ->
  nth_error (heap s) data = Some values ->
  (exists groups s' k shuffled,
      group_based_on_deviation g threshold data s = (Ok groups, s')
      /\ k <= MAX_RETRIES
      /\ length values mod g = 0
      /\ verdicts s' = false :: repeat true k ++ verdicts s
      /\ cursor s' = cursor s + (k + 1) * (length values - 1)
      /\ draws s' = draws s
      /\ nth_error (heap s') data = Some shuffled
      /\ same_except data (heap s) (heap s')
      /\ Permutation shuffled values
      /\ distribute_data_evenly g shuffled = Ok groups
      /\ check_std_deviation_within_threshold threshold groups = Ok false)
  \/ (exists s',
      group_based_on_deviation g threshold data s
      = (Raise (OverRetryException MAX_RETRIES), s')
      /\ length values mod g = 0
      /\ verdicts s' = repeat true (MAX_RETRIES + 1) ++ verdicts s)
  \/ (exists s',
      group_based_on_deviation g threshold data s
      = (Raise ValueError_inhomogeneous, s')
      /\ length values mod g <> 0
      /\ verdicts s' = verdicts s
      /\ cursor s' = cursor s + (length values - 1)).
Proof.
  intros Hg Hx.
  destruct (group_randomly_spec g data s values Hg Hx)
    as [shuffled [groups [E [P D]]]].
  set (s2 := mkState (draws s) (cursor s + (length values - 1))
                     (list_set data shuffled (heap s)) (verdicts s)) in *.
  assert (Erun : group_based_on_deviation g threshold data s
                 = deviation_loop g threshold (S MAX_RETRIES) data groups 0 s2).
  { unfold group_based_on_deviation, bind. now rewrite E. }
  rewrite Erun.
  assert (Hx2 : nth_error (heap s2) data = Some shuffled).
  { subst s2. cbn [heap]. apply nth_error_list_set_eq.
    apply nth_error_Some. congruence. }
  destruct (Nat.eq_dec (length values mod g) 0) as [Hmod | Hmod].
  - destruct (deviation_loop_divisible g threshold data values Hg Hmod
                (S MAX_RETRIES) 0 s2 shuffled groups Hx2 P D
                ltac:(lia) ltac:(lia))
      as [[groups' [s' [k [zs H]]]] | [s' [Es Hv]]].
    + destruct H as [Es [Hk [Hv [Hc [Hd [Hz [Hsame [Pz [Dz Hok]]]]]]]]].
      left. exists groups', s', k, zs.
      split; [exact Es |]. split; [lia |]. split; [exact Hmod |].
      split; [exact Hv |].
      split; [rewrite Hc; subst s2; cbn [cursor]; lia |].
      split; [exact Hd |]. split; [exact Hz |].
      split; [apply (same_except_set data shuffled); exact Hsame | auto].
    + right. left. exists s'. split; [exact Es |]. split; [exact Hmod |].
      rewrite Hv. subst s2. cbn [verdicts]. now rewrite Nat.sub_0_r.
  - right. right. exists s2.
    rewrite deviation_loop_step.
    rewrite <- (Permutation_length P) in Hmod.
    destruct (distribute_ragged g shuffled groups Hg Hmod D) as [Ha [Hb Hne]].
    rewrite (check_ragged threshold groups _ _ Ha Hb Hne).
    rewrite (Permutation_length P) in Hmod.
    repeat split; auto.
Qed.

(** X4.  What the search can do on an array of [n] values with
    [group_amount >= 1].  If [group_amount] divides [n], it returns an
    accepted partition of the values into [group_amount] groups of
    [n / group_amount] after [k <= 1000] rejected candidates and [k + 1]
    shuffles, or it raises [OverRetryException] after 1001 rejections.
    Otherwise it raises numpy's error at the first check, after one
    shuffle. *)
Theorem group_based_on_deviation_outcomes (g : nat) (threshold : float)
    (data : ref) (s : State) (values : list float) :
  1 <= g ->
  nth_error (heap s) data = Some values ->
  (exists groups s' k,
      group_based_on_deviation g threshold data s = (Ok groups, s')
      /\ k <= MAX_RETRIES
      /\ length values mod g = 0
      /\ verdicts s' = false :: repeat true k ++ verdicts s
      /\ cursor s' = cursor s + (k + 1) * (length values - 1)
      /\ length groups = g
      /\ Permutation (concat groups) values
      /\ Forall (fun group => length group = length values / g) groups
      /\ check_std_deviation_within_threshold threshold groups = Ok false)
  \/ (exists s',
      group_based_on_deviation g threshold data s
      = (Raise (OverRetryException MAX_RETRIES), s')
      /\ length values mod g = 0
      /\ verdicts s' = repeat true (MAX_RETRIES + 1) ++ verdicts s)
  \/ (exists s',
      group_based_on_deviation g threshold data s
      = (Raise ValueError_inhomogeneous, s')
      /\ length values mod g <> 0
      /\ verdicts s' = verdicts s
      /\ cursor s' = cursor s + (length values - 1)).
Proof.
  intros Hg Hx.
  destruct (group_based_on_deviation_cases g threshold data s values
              ltac:(lia) Hx)
    as [[groups [s' [k [shuffled H]]]] | [H | H]];
    [| right; left; exact H | right; right; exact H].
  destruct H as [Es [Hk [Hmod [Hv [Hc [_ [_ [_ [P [D Hok]]]]]]]]]].
  assert (Hmod' : length shuffled mod g = 0)
    by now rewrite (Permutation_length P).
  destruct (distribute_divisible g shuffled groups ltac:(lia) Hmod' D)
    as [Hlen [Pc Hrect]].
  left. exists groups, s', k.
  rewrite (Permutation_length P) in Hrect.
  repeat split; auto. eapply perm_trans; eauto.
Qed.

Lemma group_based_on_deviation_outcomes_witness :
  1 <= 2
  /\ nth_error (heap (state_with zero_tape [[1; 2; 3; 4]%float])) 0
     = Some [1; 2; 3; 4]%float
  /\ ((exists groups s' k,
          group_based_on_deviation 2 1 0
            (state_with zero_tape [[1; 2; 3; 4]%float]) = (Ok groups, s')
          /\ k <= MAX_RETRIES
          /\ length [1; 2; 3; 4]%float mod 2 = 0
          /\ verdicts s'
             = false :: repeat true k
                     ++ verdicts (state_with zero_tape [[1; 2; 3; 4]%float])
          /\ cursor s'
             = cursor (state_with zero_tape [[1; 2; 3; 4]%float])
               + (k + 1) * (length [1; 2; 3; 4]%float - 1)
          /\ length groups = 2
          /\ Permutation (concat groups) [1; 2; 3; 4]%float
          /\ Forall (fun group => length group = length [1; 2; 3; 4]%float / 2)
                    groups
          /\ check_std_deviation_within_threshold 1 groups = Ok false)
      \/ (exists s',
          group_based_on_deviation 2 1 0
            (state_with zero_tape [[1; 2; 3; 4]%float])
          = (Raise (OverRetryException MAX_RETRIES), s')
          /\ length [1; 2; 3; 4]%float mod 2 = 0
          /\ verdicts s'
             = repeat true (MAX_RETRIES + 1)
               ++ verdicts (state_with zero_tape [[1; 2; 3; 4]%float]))
      \/ (exists s',
          group_based_on_deviation 2 1 0
            (state_with zero_tape [[1; 2; 3; 4]%float])
          = (Raise ValueError_inhomogeneous, s')
          /\ length [1; 2; 3; 4]%float mod 2 <> 0
          /\ verdicts s' = verdicts (state_with zero_tape [[1; 2; 3; 4]%float])
          /\ cursor s'
             = cursor (state_with zero_tape [[1; 2; 3; 4]%float])
               + (length [1; 2; 3; 4]%float - 1))).
Proof.
  split; [lia |]. split; [reflexivity |].
  apply (group_based_on_deviation_outcomes 2 1 0
           (state_with zero_tape [[1; 2; 3; 4]%float]) [1; 2; 3; 4]%float);
    [lia | reflexivity].
Defined.

(** ** The outcomes of the recombination *)

(** One turn of the [while] loop of the recombination. *)
Lemma combine_while_step (g : nat) (threshold : float) (fuel : nat)
    (list1 list2 : list (list float)) (counter : nat) (s : State) :
  combine_while g threshold (S fuel) list1 list2 counter s
  = match combine_for (seq 0 g) list1 list2 [] (seq 0 g) s with
    | (Ok combined, s1) =>
        if MAX_RETRIES <? counter + 1
        then (Raise (OverRetryException MAX_RETRIES), s1)
        else
          match check_std_deviation_within_threshold threshold combined with
          | Ok true =>
              combine_while g threshold fuel list1 list2 (counter + 1)
                (mkState (draws s1) (cursor s1) (heap s1)
                         (true :: verdicts s1))
          | Ok false =>
              (Ok combined,
               mkState (draws s1) (cursor s1) (heap s1)
                       (false :: verdicts s1))
          | Raise e => (Raise e, s1)
          | OutOfFuel => (OutOfFuel, s1)
          end
    | (Raise e, s1) => (Raise e, s1)
    | (OutOfFuel, s1) => (OutOfFuel, s1)
    end.
Proof.
  cbn [combine_while]. unfold bind at 1.
  destruct (combine_for (seq 0 g) list1 list2 [] (seq 0 g) s)
    as [[combined | e |] s1]; try reflexivity.
  destruct (MAX_RETRIES <? counter + 1); [reflexivity |].
  unfold bind, call_check.
  destruct (check_std_deviation_within_threshold threshold combined)
    as [[|] | e |]; reflexivity.
Qed.

Lemma combine_while_cases (g : nat) (threshold : float)
    (list1 list2 : list (list float)) :
  length list1 = g -> length list2 = g ->
  (forall matching, Permutation matching (seq 0 g) ->
     exists b,
       check_std_deviation_within_threshold threshold
         (matched_groups list1 list2 (seq 0 g) matching) = Ok b) ->
  forall (fuel counter : nat) (s : State),
    counter <= MAX_RETRIES ->
    MAX_RETRIES + 1 <= fuel + counter ->
    (exists combined s' k matching,
        combine_while g threshold fuel list1 list2 counter s = (Ok combined, s')
        /\ counter + k + 1 <= MAX_RETRIES
        /\ verdicts s' = false :: repeat true k ++ verdicts s
        /\ cursor s' = cursor s + (k + 1) * g
        /\ draws s' = draws s
        /\ heap s' = heap s
        /\ Permutation matching (seq 0 g)
        /\ combined = matched_groups list1 list2 (seq 0 g) matching
        /\ check_std_deviation_within_threshold threshold combined = Ok false)
    \/ (exists s',
        combine_while g threshold fuel list1 list2 counter s
        = (Raise (OverRetryException MAX_RETRIES), s')
        /\ verdicts s' = repeat true (MAX_RETRIES - counter) ++ verdicts s
        /\ cursor s' = cursor s + (MAX_RETRIES + 1 - counter) * g
        /\ draws s' = draws s
        /\ heap s' = heap s).
Proof.
  intros H1 H2 Hok.
  induction fuel as [| fuel IH]; intros counter s Hle Hfuel; [lia |].
  rewrite combine_while_step.
  destruct (combine_for_range g list1 list2 s H1 H2) as [matching [E P]].
  rewrite E.
  set (s1 := mkState (draws s) (cursor s + g) (heap s) (verdicts s)).
  destruct (Nat.ltb_spec MAX_RETRIES (counter + 1)) as [Hlt | Hge].
  - right. eexists. split; [reflexivity |]. subst s1.
    cbn [verdicts cursor draws heap].
    replace (MAX_RETRIES - counter) with 0 by lia.
    replace (MAX_RETRIES + 1 - counter) with 1 by lia.
    repeat split. lia.
  - destruct (Hok matching P) as [b Hb]. rewrite Hb. destruct b.
    + set (s2 := mkState (draws s1) (cursor s1) (heap s1)
                         (true :: verdicts s1)).
      destruct (IH (counter + 1) s2 ltac:(lia) ltac:(lia))
        as [[combined [s' [k [matching' H]]]]
           | [s' [Es [Hv [Hc [Hd Hh]]]]]].
      * destruct H as [Es [Hk [Hv [Hc [Hd [Hh [Pm [Hm Hacc]]]]]]]].
        left. exists combined, s', (S k), matching'.
        split; [exact Es |]. split; [lia |].
        split; [rewrite Hv; subst s2 s1; cbn [verdicts];
                now rewrite repeat_true_shift |].
        split; [rewrite Hc; subst s2 s1; cbn [cursor]; lia |].
        split; [rewrite Hd; reflexivity |].
        split; [rewrite Hh; reflexivity |]. auto.
      * right. exists s'. split; [exact Es |].
        split; [rewrite Hv; subst s2 s1; cbn [verdicts];
                rewrite repeat_true_shift; f_equal; f_equal; lia |].
        split; [rewrite Hc; subst s2 s1; cbn [cursor];
                replace (MAX_RETRIES + 1 - counter)
                  with (S (MAX_RETRIES + 1 - (counter + 1))) by lia; lia |].
        split; [rewrite Hd; reflexivity | rewrite Hh; reflexivity].
    + left. eexists _, _, 0, matching.
      split; [reflexivity |]. split; [lia |].
      split; [reflexivity |]. split; [subst s1; cbn [cursor]; lia |].
      split; [reflexivity |]. split; [reflexivity |]. auto.
Qed.

Lemma Permutation_concat_respects (A : Type) (l l' : list (list A)) :
  Permutation l l' -> Permutation (concat l) (concat l').
Proof.
  induction 1; simpl.
  - constructor.
  - now apply Permutation_app_head.
  - rewrite !app_assoc. apply Permutation_app_tail, Permutation_app_comm.
  - eapply perm_trans; eauto.
Qed.

Lemma matched_groups_concat (list1 list2 : list (list float)) :
  forall indices matching,
    length indices = length matching ->
    Permutation (concat (matched_groups list1 list2 indices matching))
                (concat (map (fun i => nth i list1 []) indices)
                 ++ concat (map (fun n => nth n list2 []) matching)).
Proof.
  induction indices as [| i rest IH]; intros [| n matching] H;
    try discriminate; [constructor |].
  unfold matched_groups in *. cbn [combine map concat fst snd].
  rewrite <- !app_assoc. apply Permutation_app_head.
  eapply perm_trans; [apply Permutation_app_head, IH; simpl in H; lia |].
  apply Permutation_app_swap_app.
Qed.

(** A merge along a bijection holds the values of both partitions, each
    once. *)
Lemma matched_groups_all_values (g : nat) (list1 list2 : list (list float))
    (matching : list nat) :
  length list1 = g -> length list2 = g ->
  Permutation matching (seq 0 g) ->
  Permutation (concat (matched_groups list1 list2 (seq 0 g) matching))
              (concat list1 ++ concat list2).
Proof.
  intros H1 H2 P.
  eapply perm_trans.
  - apply matched_groups_concat. symmetry. now apply Permutation_length.
  - apply Permutation_app.
    + rewrite <- H1, map_nth_seq_all. apply Permutation_refl.
    + eapply perm_trans.
      * apply Permutation_concat_respects, Permutation_map, P.
      * rewrite <- H2, map_nth_seq_all. apply Permutation_refl.
Qed.

(** Merging rectangular partitions gives a rectangular partition. *)
Lemma matched_groups_rectangular (g a b : nat) (list1 list2 : list (list float))
    (matching : list nat) :
  length list1 = g -> length list2 = g ->
  Forall (fun group => length group = a) list1 ->
  Forall (fun group => length group = b) list2 ->
  Permutation matching (seq 0 g) ->
  Forall (fun group => length group = a + b)
         (matched_groups list1 list2 (seq 0 g) matching).
Proof.
  intros H1 H2 Ha Hb P. rewrite Forall_forall in *.
  intros group Hin. unfold matched_groups in Hin.
  apply in_map_iff in Hin. destruct Hin as [[i n] [<- Hin]].
  pose proof (in_combine_l _ _ _ _ Hin) as Hi.
  pose proof (in_combine_r _ _ _ _ Hin) as Hn.
  apply in_seq in Hi. apply (Permutation_in _ P), in_seq in Hn.
  cbn [fst snd]. rewrite length_app.
  rewrite (Ha (nth i list1 [])) by (apply nth_In; lia).
  rewrite (Hb (nth n list2 [])) by (apply nth_In; lia).
  reflexivity.
Qed.

Lemma matched_groups_nth (g : nat) (list1 list2 : list (list float))
    (matching : list nat) (i : nat) :
  Permutation matching (seq 0 g) -> i < g ->
  nth i (matched_groups list1 list2 (seq 0 g) matching) []
  = nth i list1 [] ++ nth (nth i matching 0) list2 [].
Proof.
  intros P Hi.
  assert (Hlen : length (seq 0 g) = length matching)
    by (symmetry; apply Permutation_length; exact P).
  unfold matched_groups.
  rewrite (nth_map_in_range _ _ _ _ i [] (0, 0))
    by (rewrite length_combine, <- Hlen, length_seq; lia).
  rewrite (combine_nth _ _ _ _ _ Hlen).
  rewrite seq_nth by lia. reflexivity.
Qed.

(** X6.  The recombination of two rectangular partitions of [group_amount]
    groups either returns, after [k <= 999] rejected matchings, an
    accepted partition merged along a bijection [matching] of the group
    labels (group [i] is [list1[i] + list2[matching[i]]], so it holds
    [a + b] values, and every value of both partitions occurs once), or
    raises [OverRetryException] after 1000 rejected matchings.  It fails
    in no other way; in both cases it takes [group_amount] draws for each
    matching it builds and leaves the tape and the arrays alone. *)
Theorem combine_lists_outcomes (g a b : nat) (threshold : float)
    (list1 list2 : list (list float)) (s : State) :
  length list1 = g ->
  length list2 = g ->
  Forall (fun group => length group = a) list1 ->
  Forall (fun group => length group = b) list2 ->
  (exists combined s' k matching,
      combine_lists_within_threshold g threshold list1 list2 s
      = (Ok combined, s')
      /\ k + 1 <= MAX_RETRIES
      /\ verdicts s' = false :: repeat true k ++ verdicts s
      /\ cursor s' = cursor s + (k + 1) * g
      /\ draws s' = draws s
      /\ heap s' = heap s
      /\ Permutation matching (seq 0 g)
      /\ combined = matched_groups list1 list2 (seq 0 g) matching
      /\ (forall i, i < g ->
          nth i combined [] = nth i list1 [] ++ nth (nth i matching 0) list2 [])
      /\ length combined = g
      /\ Forall (fun group => length group = a + b) combined
      /\ Permutation (concat combined) (concat list1 ++ concat list2)
      /\ check_std_deviation_within_threshold threshold combined = Ok false)
  \/ (exists s',
      combine_lists_within_threshold g threshold list1 list2 s
      = (Raise (OverRetryException MAX_RETRIES), s')
      /\ verdicts s' = repeat true MAX_RETRIES ++ verdicts s
      /\ cursor s' = cursor s + (MAX_RETRIES + 1) * g
      /\ draws s' = draws s
      /\ heap s' = heap s).
Proof.
  intros H1 H2 Ha Hb.
  destruct (combine_while_cases g threshold list1 list2 H1 H2)
    with (fuel := S MAX_RETRIES) (counter := 0) (s := s)
    as [[combined [s' [k [matching H]]]] | [s' [Es [Hv [Hc [Hd Hh]]]]]].
  - intros matching P. apply (check_rectangular threshold _ (a + b)).
    now apply (matched_groups_rectangular g).
  - lia.
  - lia.
  - destruct H as [Es [Hk [Hv [Hc [Hd [Hh [Pm [-> Hacc]]]]]]]].
    left. exists (matched_groups list1 list2 (seq 0 g) matching), s', k, matching.
    split; [exact Es |]. split; [lia |]. split; [exact Hv |].
    split; [exact Hc |]. split; [exact Hd |]. split; [exact Hh |].
    split; [exact Pm |]. split; [reflexivity |].
    split; [intros i Hi; now apply matched_groups_nth |].
    split.
    { unfold matched_groups.
      rewrite length_map, length_combine, (Permutation_length Pm), length_seq.
      lia. }
    split; [now apply (matched_groups_rectangular g) |].
    split; [now apply matched_groups_all_values | exact Hacc].
  - right. exists s'. split; [exact Es |].
    split; [rewrite Hv; now rewrite Nat.sub_0_r |].
    split; [rewrite Hc; now rewrite Nat.sub_0_r |].
    split; assumption.
Qed.

Lemma combine_lists_outcomes_witness :
  length [[1%float]] = 1
  /\ length [[2%float]] = 1
  /\ Forall (fun group => length group = 1) [[1%float]]
  /\ Forall (fun group => length group = 1) [[2%float]]
  /\ ((exists combined s' k matching,
          combine_lists_within_threshold 1 1 [[1%float]] [[2%float]]
            (state_with zero_tape [])
          = (Ok combined, s')
          /\ k + 1 <= MAX_RETRIES
          /\ verdicts s'
             = false :: repeat true k ++ verdicts (state_with zero_tape [])
          /\ cursor s' = cursor (state_with zero_tape []) + (k + 1) * 1
          /\ draws s' = draws (state_with zero_tape [])
          /\ heap s' = heap (state_with zero_tape [])
          /\ Permutation matching (seq 0 1)
          /\ combined
             = matched_groups [[1%float]] [[2%float]] (seq 0 1) matching
          /\ (forall i, i < 1 ->
              nth i combined []
              = nth i [[1%float]] [] ++ nth (nth i matching 0) [[2%float]] [])
          /\ length combined = 1
          /\ Forall (fun group => length group = 1 + 1) combined
          /\ Permutation (concat combined)
                         (concat [[1%float]] ++ concat [[2%float]])
          /\ check_std_deviation_within_threshold 1 combined = Ok false)
      \/ (exists s',
          combine_lists_within_threshold 1 1 [[1%float]] [[2%float]]
            (state_with zero_tape [])
          = (Raise (OverRetryException MAX_RETRIES), s')
          /\ verdicts s'
             = repeat true MAX_RETRIES ++ verdicts (state_with zero_tape [])
          /\ cursor s'
             = cursor (state_with zero_tape []) + (MAX_RETRIES + 1) * 1
          /\ draws s' = draws (state_with zero_tape [])
          /\ heap s' = heap (state_with zero_tape []))).
Proof.
  split; [reflexivity |]. split; [reflexivity |].
  split; [repeat constructor |]. split; [repeat constructor |].
  apply (combine_lists_outcomes 1 1 1 1 [[1%float]] [[2%float]]
           (state_with zero_tape []));
    [reflexivity | reflexivity | repeat constructor | repeat constructor].
Defined.

(** ** The outcomes of [__init__] *)

Lemma init_valid (g : nat) (threshold : float) (df : DataFrame)
    (is_based_on_gender : bool) (s : State) :
  In WEIGHT_COLUMN (df_columns df) ->
  In SEX_COLUMN (df_columns df) ->
  init g threshold df is_based_on_gender s
  = (data <- np_array (df_weight df);;
     if is_based_on_gender
     then
       r <- group_based_on_deviation_and_gender g threshold df;;
       (let '(grouped, female, male) := r in
        out <- lift (convert_to_df g grouped);;
        ret (mkAnimal_grouper data grouped out (Some female) (Some male)))
     else
       grouped <- group_based_on_deviation g threshold data;;
       out <- lift (convert_to_df g grouped);;
       ret (mkAnimal_grouper data grouped out None None)) s.
Proof.
  intros Hw Hs. unfold init.
  apply existsb_eqb_In in Hw, Hs. now rewrite Hw, Hs.
Qed.

Lemma nth_error_fresh (A : Type) (l : list A) (v : A) :
  nth_error (l ++ [v]) (length l) = Some v.
Proof.
  rewrite nth_error_app2 by lia. now rewrite Nat.sub_diag.
Qed.

(** The table of a rectangular partition with [group_amount] groups. *)
Lemma convert_to_df_rectangular (g m : nat) (groups : list (list float)) :
  1 <= g -> length groups = g ->
  Forall (fun group => length group = m) groups ->
  convert_to_df g groups
  = Ok (mkFrame m (labelled 0 (map (map Some) groups))).
Proof.
  intros Hg Hlen Hrect. rewrite convert_to_df_enough by lia.
  apply (convert_loop_aligned 0 m groups); [| exact Hrect].
  destruct groups; [simpl in Hlen; lia | discriminate].
Qed.

Lemma init_plain_run (g : nat) (threshold : float) (df : DataFrame) (s : State) :
  In WEIGHT_COLUMN (df_columns df) ->
  In SEX_COLUMN (df_columns df) ->
  init g threshold df false s
  = match group_based_on_deviation g threshold (length (heap s))
            (mkState (draws s) (cursor s) (heap s ++ [df_weight df])
                     (verdicts s))
    with
    | (Ok grouped, s2) =>
        match convert_to_df g grouped with
        | Ok out =>
            (Ok (mkAnimal_grouper (length (heap s)) grouped out None None), s2)
        | Raise e => (Raise e, s2)
        | OutOfFuel => (OutOfFuel, s2)
        end
    | (Raise e, s2) => (Raise e, s2)
    | (OutOfFuel, s2) => (OutOfFuel, s2)
    end.
Proof.
  intros Hw Hs. rewrite (init_valid g threshold df false s Hw Hs).
  unfold bind at 1. unfold np_array. cbv beta iota. unfold bind at 1.
  destruct (group_based_on_deviation g threshold _ _)
    as [[grouped | e |] s2]; reflexivity.
Qed.

Lemma init_plain_cases (g : nat) (threshold : float) (df : DataFrame)
    (s : State) :
  1 <= g ->
  In WEIGHT_COLUMN (df_columns df) ->
  In SEX_COLUMN (df_columns df) ->
  (exists obj s',
      init g threshold df false s = (Ok obj, s')
      /\ length (df_weight df) mod g = 0
      /\ length (result obj) = g
      /\ Permutation (concat (result obj)) (df_weight df)
      /\ Forall (fun group => length group = length (df_weight df) / g)
                (result obj)
      /\ check_std_deviation_within_threshold threshold (result obj) = Ok false
      /\ output obj
         = mkFrame (length (df_weight df) / g)
                   (labelled 0 (map (map Some) (result obj)))
      /\ output_female obj = None
      /\ output_male obj = None)
  \/ (exists s',
      init g threshold df false s = (Raise (OverRetryException MAX_RETRIES), s')
      /\ length (df_weight df) mod g = 0)
  \/ (exists s',
      init g threshold df false s = (Raise ValueError_inhomogeneous, s')
      /\ length (df_weight df) mod g <> 0).
Proof.
  intros Hg Hw Hs. rewrite (init_plain_run g threshold df s Hw Hs).
  set (s1 := mkState (draws s) (cursor s) (heap s ++ [df_weight df])
                     (verdicts s)).
  assert (Hx : nth_error (heap s1) (length (heap s)) = Some (df_weight df))
    by apply nth_error_fresh.
  destruct (group_based_on_deviation_cases g threshold (length (heap s)) s1
              (df_weight df) ltac:(lia) Hx)
    as [[groups [s' [k [shuffled H]]]] | [[s' [Es [Hmod _]]] | [s' [Es [Hmod _]]]]].
  - destruct H as [Es [Hk [Hmod [Hv [Hc [_ [_ [_ [P [D Hok]]]]]]]]]].
    assert (Hmod' : length shuffled mod g = 0)
      by now rewrite (Permutation_length P).
    destruct (distribute_divisible g shuffled groups ltac:(lia) Hmod' D)
      as [Hlen [Pc Hrect]].
    rewrite (Permutation_length P) in Hrect.
    left. eexists _, s'. rewrite Es.
    rewrite (convert_to_df_rectangular g _ groups Hg Hlen Hrect).
    split; [reflexivity |]. cbn [result output output_female output_male].
    repeat split; auto. eapply perm_trans; eauto.
  - right. left. exists s'. rewrite Es. auto.
  - right. right. exists s'. rewrite Es. auto.
Qed.

(** X7.  What [__init__] does without the gender option, on a table with
    both columns and [n] weights, for [group_amount >= 1].  An object it
    returns has for [result] an accepted partition of the weights into
    [group_amount] groups of [n / group_amount], and for [output] the
    table of these groups; this needs [group_amount] to divide [n].  It
    fails with [OverRetryException] only when [group_amount] divides
    [n], with numpy's error only when it does not, and in no other
    way. *)
Theorem init_plain_outcomes (g : nat) (threshold : float) (df : DataFrame)
    (s : State) :
  1 <= g ->
  In WEIGHT_COLUMN (df_columns df) ->
  In SEX_COLUMN (df_columns df) ->
  match fst (init g threshold df false s) with
  | Ok obj =>
      length (df_weight df) mod g = 0
      /\ length (result obj) = g
      /\ Permutation (concat (result obj)) (df_weight df)
      /\ Forall (fun group => length group = length (df_weight df) / g)
                (result obj)
      /\ check_std_deviation_within_threshold threshold (result obj) = Ok false
      /\ output obj
         = mkFrame (length (df_weight df) / g)
                   (labelled 0 (map (map Some) (result obj)))
      /\ output_female obj = None
      /\ output_male obj = None
  | Raise e =>
      (e = OverRetryException MAX_RETRIES /\ length (df_weight df) mod g = 0)
      \/ (e = ValueError_inhomogeneous /\ length (df_weight df) mod g <> 0)
  | OutOfFuel => False
  end.
Proof.
  intros Hg Hw Hs.
  destruct (init_plain_cases g threshold df s Hg Hw Hs)
    as [[obj [s' [E H]]] | [[s' [E H]] | [s' [E H]]]]; rewrite E; simpl.
  - exact H.
  - left. auto.
  - right. auto.
Qed.

Lemma init_plain_outcomes_witness :
  1 <= 2
  /\ In WEIGHT_COLUMN
        (df_columns (mkDataFrame ["Weight"; "Sex"]%string [1; 2; 3; 4]%float
                                 ["F"; "M"; "F"; "M"]%string))
  /\ In SEX_COLUMN
        (df_columns (mkDataFrame ["Weight"; "Sex"]%string [1; 2; 3; 4]%float
                                 ["F"; "M"; "F"; "M"]%string))
  /\ match fst (init 2 1
                   (mkDataFrame ["Weight"; "Sex"]%string [1; 2; 3; 4]%float
                                ["F"; "M"; "F"; "M"]%string)
                   false (state_with zero_tape []))
     with
     | Ok obj =>
         length [1; 2; 3; 4]%float mod 2 = 0
         /\ length (result obj) = 2
         /\ Permutation (concat (result obj)) [1; 2; 3; 4]%float
         /\ Forall (fun group => length group = length [1; 2; 3; 4]%float / 2)
                   (result obj)
         /\ check_std_deviation_within_threshold 1 (result obj) = Ok false
         /\ output obj
            = mkFrame (length [1; 2; 3; 4]%float / 2)
                      (labelled 0 (map (map Some) (result obj)))
         /\ output_female obj = None
         /\ output_male obj = None
     | Raise e =>
         (e = OverRetryException MAX_RETRIES
          /\ length [1; 2; 3; 4]%float mod 2 = 0)
         \/ (e = ValueError_inhomogeneous
             /\ length [1; 2; 3; 4]%float mod 2 <> 0)
     | OutOfFuel => False
     end.
Proof.
  split; [lia |].
  split; [left; reflexivity |].
  split; [right; left; reflexivity |].
  apply (init_plain_outcomes 2 1
           (mkDataFrame ["Weight"; "Sex"]%string [1; 2; 3; 4]%float
                        ["F"; "M"; "F"; "M"]%string)
           (state_with zero_tape []));
    [lia | left; reflexivity | right; left; reflexivity].
Defined.

(** ** The gender option *)

Lemma init_gender_run (g : nat) (threshold : float) (df : DataFrame) (s : State) :
  In WEIGHT_COLUMN (df_columns df) ->
  In SEX_COLUMN (df_columns df) ->
  init g threshold df true s
  = match group_based_on_deviation g threshold
            (length (heap s ++ [df_weight df]))
            (mkState (draws s) (cursor s)
                     (((heap s ++ [df_weight df]) ++ [weights_of_sex "F" df])
                      ++ [weights_of_sex "M" df])
                     (verdicts s))
    with
    | (Ok grouped_female, s4) =>
        match group_based_on_deviation g threshold
                (length ((heap s ++ [df_weight df]) ++ [weights_of_sex "F" df]))
                s4
        with
        | (Ok grouped_male, s5) =>
            match combine_lists_within_threshold g threshold
                    grouped_female grouped_male s5
            with
            | (Ok grouped, s6) =>
                match convert_to_df g grouped_female with
                | Ok female =>
                    match convert_to_df g grouped_male with
                    | Ok male =>
                        match convert_to_df g grouped with
                        | Ok out =>
                            (Ok (mkAnimal_grouper (length (heap s)) grouped out
                                                  (Some female) (Some male)),
                             s6)
                        | Raise e => (Raise e, s6)
                        | OutOfFuel => (OutOfFuel, s6)
                        end
                    | Raise e => (Raise e, s6)
                    | OutOfFuel => (OutOfFuel, s6)
                    end
                | Raise e => (Raise e, s6)
                | OutOfFuel => (OutOfFuel, s6)
                end
            | (Raise e, s6) => (Raise e, s6)
            | (OutOfFuel, s6) => (OutOfFuel, s6)
            end
        | (Raise e, s5) => (Raise e, s5)
        | (OutOfFuel, s5) => (OutOfFuel, s5)
        end
    | (Raise e, s4) => (Raise e, s4)
    | (OutOfFuel, s4) => (OutOfFuel, s4)
    end.
Proof.
  intros Hw Hs. rewrite (init_valid g threshold df true s Hw Hs).
  unfold bind at 1. unfold np_array at 1. cbv beta iota.
  unfold bind at 1. unfold group_based_on_deviation_and_gender.
  unfold bind at 1. unfold np_array at 1. cbv beta iota.
  unfold bind at 1. unfold np_array at 1. cbv beta iota.
  cbn [heap draws cursor verdicts].
  unfold bind at 1.
  destruct (group_based_on_deviation g threshold _ _)
    as [[grouped_female | e |] s4]; try reflexivity.
  unfold bind at 1.
  destruct (group_based_on_deviation g threshold _ s4)
    as [[grouped_male | e |] s5]; try reflexivity.
  unfold bind at 1.
  destruct (combine_lists_within_threshold g threshold _ _ s5)
    as [[grouped | e |] s6]; try reflexivity.
  unfold bind, lift, ret.
  destruct (convert_to_df g grouped_female); try reflexivity.
  destruct (convert_to_df g grouped_male); try reflexivity.
Qed.

Lemma init_gender_cases (g : nat) (threshold : float) (df : DataFrame)
    (s : State) :
  1 <= g ->
  In WEIGHT_COLUMN (df_columns df) ->
  In SEX_COLUMN (df_columns df) ->
  (exists obj s' grouped_female grouped_male,
      init g threshold df true s = (Ok obj, s')
      /\ length (weights_of_sex "F" df) mod g = 0
      /\ length (weights_of_sex "M" df) mod g = 0
      /\ length (result obj) = g
      /\ Forall (fun group =>
                   length group
                   = length (weights_of_sex "F" df) / g
                     + length (weights_of_sex "M" df) / g)
                (result obj)
      /\ Permutation (concat (result obj))
                     (weights_of_sex "F" df ++ weights_of_sex "M" df)
      /\ check_std_deviation_within_threshold threshold (result obj) = Ok false
      /\ output obj
         = mkFrame (length (weights_of_sex "F" df) / g
                    + length (weights_of_sex "M" df) / g)
                   (labelled 0 (map (map Some) (result obj)))
      /\ output_female obj
         = Some (mkFrame (length (weights_of_sex "F" df) / g)
                         (labelled 0 (map (map Some) grouped_female)))
      /\ Permutation (concat grouped_female) (weights_of_sex "F" df)
      /\ check_std_deviation_within_threshold threshold grouped_female
         = Ok false
      /\ output_male obj
         = Some (mkFrame (length (weights_of_sex "M" df) / g)
                         (labelled 0 (map (map Some) grouped_male)))
      /\ Permutation (concat grouped_male) (weights_of_sex "M" df)
      /\ check_std_deviation_within_threshold threshold grouped_male
         = Ok false
      /\ length grouped_female = g
      /\ length grouped_male = g
      /\ Forall (fun group =>
                   length group = length (weights_of_sex "F" df) / g)
                grouped_female
      /\ Forall (fun group =>
                   length group = length (weights_of_sex "M" df) / g)
                grouped_male
      /\ exists matching,
           Permutation matching (seq 0 g)
           /\ result obj
              = matched_groups grouped_female grouped_male (seq 0 g) matching)
  \/ (exists s',
      init g threshold df true s = (Raise (OverRetryException MAX_RETRIES), s')
      /\ length (weights_of_sex "F" df) mod g = 0)
  \/ (exists s',
      init g threshold df true s = (Raise ValueError_inhomogeneous, s')
      /\ (length (weights_of_sex "F" df) mod g <> 0
          \/ length (weights_of_sex "M" df) mod g <> 0)).
Proof.
  intros Hg Hw Hs. rewrite (init_gender_run g threshold df s Hw Hs).
  set (h1 := heap s ++ [df_weight df]).
  set (h2 := h1 ++ [weights_of_sex "F" df]).
  set (s3 := mkState (draws s) (cursor s) (h2 ++ [weights_of_sex "M" df])
                     (verdicts s)).
  assert (Hf : nth_error (heap s3) (length h1) = Some (weights_of_sex "F" df)).
  { subst s3 h2. cbn [heap]. rewrite nth_error_app1.
    - apply nth_error_fresh.
    - rewrite length_app. simpl. lia. }
  assert (Hm : nth_error (heap s3) (length h2) = Some (weights_of_sex "M" df)).
  { subst s3. cbn [heap]. apply nth_error_fresh. }
  destruct (group_based_on_deviation_cases g threshold (length h1) s3
              _ ltac:(lia) Hf)
    as [[gf [s4 [kf [zf H]]]] | [[s4 [Es [Hmod _]]] | [s4 [Es [Hmod _]]]]];
    [| right; left; exists s4; rewrite Es; auto
     | right; right; exists s4; rewrite Es; auto].
  destruct H as [Ef [_ [Hmodf [_ [_ [_ [_ [Hsame [Pf [Df Hokf]]]]]]]]]].
  rewrite Ef.
  assert (Hm4 : nth_error (heap s4) (length h2)
                = Some (weights_of_sex "M" df)).
  { destruct Hsame as [_ Ho]. rewrite Ho; [exact Hm |].
    subst h2. rewrite length_app. simpl. lia. }
  destruct (group_based_on_deviation_cases g threshold (length h2) s4
              _ ltac:(lia) Hm4)
    as [[gm [s5 [km [zm H]]]] | [[s5 [Es [Hmod _]]] | [s5 [Es [Hmod _]]]]];
    [| right; left; exists s5; rewrite Es; auto
     | right; right; exists s5; rewrite Es; auto].
  destruct H as [Em [_ [Hmodm [_ [_ [_ [_ [_ [Pm [Dm Hokm]]]]]]]]]].
  rewrite Em.
  assert (Hmodf' : length zf mod g = 0) by now rewrite (Permutation_length Pf).
  assert (Hmodm' : length zm mod g = 0) by now rewrite (Permutation_length Pm).
  destruct (distribute_divisible g zf gf ltac:(lia) Hmodf' Df)
    as [Hlenf [Pcf Hrectf]].
  destruct (distribute_divisible g zm gm ltac:(lia) Hmodm' Dm)
    as [Hlenm [Pcm Hrectm]].
  rewrite (Permutation_length Pf) in Hrectf.
  rewrite (Permutation_length Pm) in Hrectm.
  unfold combine_lists_within_threshold.
  destruct (combine_while_cases g threshold gf gm Hlenf Hlenm)
    with (fuel := S MAX_RETRIES) (counter := 0) (s := s5)
    as [[combined [s6 [k [matching H]]]] | [s6 [Es _]]].
  - intros matching P. eapply check_rectangular.
    apply (matched_groups_rectangular g _ _ gf gm matching
             Hlenf Hlenm Hrectf Hrectm P).
  - lia.
  - lia.
  - destruct H as [Ec [_ [_ [_ [_ [_ [Pmatch [Hcomb Hacc]]]]]]]].
    rewrite Ec.
    pose proof (matched_groups_rectangular g _ _ gf gm matching
                  Hlenf Hlenm Hrectf Hrectm Pmatch) as Hrect.
    pose proof (matched_groups_all_values g gf gm matching
                  Hlenf Hlenm Pmatch) as Pall.
    rewrite <- Hcomb in Hrect, Pall.
    assert (Hlenc : length combined = g).
    { rewrite Hcomb. unfold matched_groups.
      rewrite length_map, length_combine, (Permutation_length Pmatch),
        length_seq. lia. }
    rewrite (convert_to_df_rectangular g _ gf Hg Hlenf Hrectf).
    rewrite (convert_to_df_rectangular g _ gm Hg Hlenm Hrectm).
    rewrite (convert_to_df_rectangular g _ combined Hg Hlenc Hrect).
    left. eexists _, s6, gf, gm. split; [reflexivity |].
    cbn [result output output_female output_male].
    split; [exact Hmodf |]. split; [exact Hmodm |].
    split; [exact Hlenc |]. split; [exact Hrect |].
    split.
    { eapply perm_trans; [exact Pall |].
      apply Permutation_app; eapply perm_trans; eauto. }
    split; [exact Hacc |]. split; [reflexivity |].
    split; [reflexivity |].
    split; [eapply perm_trans; eauto |]. split; [exact Hokf |].
    split; [reflexivity |].
    split; [eapply perm_trans; eauto |]. split; [exact Hokm |].
    split; [exact Hlenf |]. split; [exact Hlenm |].
    split; [exact Hrectf |]. split; [exact Hrectm |].
    exists matching. split; assumption.
  - right. left. exists s6. rewrite Es. auto.
Qed.

(** X8.  What [__init__] does with the gender option, on a table with both
    columns, for [group_amount >= 1].  An object it returns was built
    from an accepted partition [grouped_female] of the female weights
    into [group_amount] groups of [nf / group_amount], an accepted
    partition [grouped_male] of the male weights into [group_amount]
    groups of [nm / group_amount] (rows of any other sex are left out),
    and a bijection [matching] of the group labels: group [i] of
    [result] is female group [i] followed by male group [matching[i]], so
    it holds [nf / group_amount] females and [nm / group_amount] males,
    and [result] is accepted.  [output], [output_female] and
    [output_male] are the tables of [result], [grouped_female] and
    [grouped_male].  This needs [group_amount] to divide both counts.
    [__init__] fails with [OverRetryException] (only when
    [group_amount] divides the number of females) or with numpy's error
    (only when one of the counts is not divisible), and in no other
    way. *)
Theorem init_gender_outcomes (g : nat) (threshold : float) (df : DataFrame)
    (s : State) :
  1 <= g ->
  In WEIGHT_COLUMN (df_columns df) ->
  In SEX_COLUMN (df_columns df) ->
  match fst (init g threshold df true s) with
  | Ok obj =>
      length (weights_of_sex "F" df) mod g = 0
      /\ length (weights_of_sex "M" df) mod g = 0
      /\ exists grouped_female grouped_male matching,
           length grouped_female = g
           /\ length grouped_male = g
           /\ Forall (fun group =>
                        length group = length (weights_of_sex "F" df) / g)
                     grouped_female
           /\ Forall (fun group =>
                        length group = length (weights_of_sex "M" df) / g)
                     grouped_male
           /\ Permutation (concat grouped_female) (weights_of_sex "F" df)
           /\ Permutation (concat grouped_male) (weights_of_sex "M" df)
           /\ check_std_deviation_within_threshold threshold grouped_female
              = Ok false
           /\ check_std_deviation_within_threshold threshold grouped_male
              = Ok false
           /\ Permutation matching (seq 0 g)
           /\ result obj
              = matched_groups grouped_female grouped_male (seq 0 g) matching
           /\ (forall i, i < g ->
               nth i (result obj) []
               = nth i grouped_female []
                 ++ nth (nth i matching 0) grouped_male [])
           /\ length (result obj) = g
           /\ Forall (fun group =>
                        length group
                        = length (weights_of_sex "F" df) / g
                          + length (weights_of_sex "M" df) / g)
                     (result obj)
           /\ Permutation (concat (result obj))
                          (weights_of_sex "F" df ++ weights_of_sex "M" df)
           /\ check_std_deviation_within_threshold threshold (result obj)
              = Ok false
           /\ output obj
              = mkFrame (length (weights_of_sex "F" df) / g
                         + length (weights_of_sex "M" df) / g)
                        (labelled 0 (map (map Some) (result obj)))
           /\ output_female obj
              = Some (mkFrame (length (weights_of_sex "F" df) / g)
                              (labelled 0 (map (map Some) grouped_female)))
           /\ output_male obj
              = Some (mkFrame (length (weights_of_sex "M" df) / g)
                              (labelled 0 (map (map Some) grouped_male)))
  | Raise e =>
      (e = OverRetryException MAX_RETRIES
       /\ length (weights_of_sex "F" df) mod g = 0)
      \/ (e = ValueError_inhomogeneous
          /\ (length (weights_of_sex "F" df) mod g <> 0
              \/ length (weights_of_sex "M" df) mod g <> 0))
  | OutOfFuel => False
  end.
Proof.
  intros Hg Hw Hs.
  destruct (init_gender_cases g threshold df s Hg Hw Hs)
    as [[obj [s' [gf [gm [E H]]]]] | [[s' [E H]] | [s' [E H]]]];
    rewrite E; simpl.
  - destruct H as (H1 & H2 & H3 & H4 & H5 & H6 & H7 & Hof & Pf & Hokf
                   & Hom & Pm & Hokm & Hlf & Hlm & Hrf & Hrm
                   & matching & Pmat & Hres).
    split; [exact H1 |]. split; [exact H2 |].
    exists gf, gm, matching.
    repeat (split; [assumption |]).
    split.
    { intros i Hi. rewrite Hres. now apply matched_groups_nth. }
    repeat (split; [assumption |]). assumption.
  - left. auto.
  - right. auto.
Qed.

Lemma init_gender_outcomes_witness :
  1 <= 1
  /\ In WEIGHT_COLUMN (df_columns three_sexes)
  /\ In SEX_COLUMN (df_columns three_sexes)
  /\
    match fst (init 1 1 three_sexes true (state_with zero_tape [])) with
    | Ok obj =>
        length (weights_of_sex "F" three_sexes) mod 1 = 0
        /\ length (weights_of_sex "M" three_sexes) mod 1 = 0
        /\ exists grouped_female grouped_male matching,
             length grouped_female = 1
             /\ length grouped_male = 1
             /\ Forall (fun group =>
                          length group
                          = length (weights_of_sex "F" three_sexes) / 1)
                       grouped_female
             /\ Forall (fun group =>
                          length group
                          = length (weights_of_sex "M" three_sexes) / 1)
                       grouped_male
             /\ Permutation (concat grouped_female)
                            (weights_of_sex "F" three_sexes)
             /\ Permutation (concat grouped_male)
                            (weights_of_sex "M" three_sexes)
             /\ check_std_deviation_within_threshold 1 grouped_female
                = Ok false
             /\ check_std_deviation_within_threshold 1 grouped_male
                = Ok false
             /\ Permutation matching (seq 0 1)
             /\ result obj
                = matched_groups grouped_female grouped_male (seq 0 1) matching
             /\ (forall i, i < 1 ->
                 nth i (result obj) []
                 = nth i grouped_female []
                   ++ nth (nth i matching 0) grouped_male [])
             /\ length (result obj) = 1
             /\ Forall (fun group =>
                          length group
                          = length (weights_of_sex "F" three_sexes) / 1
                            + length (weights_of_sex "M" three_sexes) / 1)
                       (result obj)
             /\ Permutation (concat (result obj))
                            (weights_of_sex "F" three_sexes
                             ++ weights_of_sex "M" three_sexes)
             /\ check_std_deviation_within_threshold 1 (result obj)
                = Ok false
             /\ output obj
                = mkFrame (length (weights_of_sex "F" three_sexes) / 1
                           + length (weights_of_sex "M" three_sexes) / 1)
                          (labelled 0 (map (map Some) (result obj)))
             /\ output_female obj
                = Some (mkFrame (length (weights_of_sex "F" three_sexes) / 1)
                                (labelled 0 (map (map Some) grouped_female)))
             /\ output_male obj
                = Some (mkFrame (length (weights_of_sex "M" three_sexes) / 1)
                                (labelled 0 (map (map Some) grouped_male)))
    | Raise e =>
        (e = OverRetryException MAX_RETRIES
         /\ length (weights_of_sex "F" three_sexes) mod 1 = 0)
        \/ (e = ValueError_inhomogeneous
            /\ (length (weights_of_sex "F" three_sexes) mod 1 <> 0
                \/ length (weights_of_sex "M" three_sexes) mod 1 <> 0))
    | OutOfFuel => False
    end.
Proof.
  split; [lia |].
  split; [left; reflexivity |].
  split; [right; left; reflexivity |].
  apply (init_gender_outcomes 1 1 three_sexes (state_with zero_tape []));
    [lia | left; reflexivity | right; left; reflexivity].
Defined.

(** ** No groups *)

Lemma group_randomly_zero (data : ref) (s : State) (xs : list float) :
  nth_error (heap s) data = Some xs ->
  group_randomly 0 data s = (Raise ZeroDivisionError, s).
Proof.
  intros Hx. unfold group_randomly, bind. now rewrite (read_spec data s xs Hx).
Qed.

Lemma group_based_on_deviation_zero (threshold : float) (data : ref) (s : State)
    (xs : list float) :
  nth_error (heap s) data = Some xs ->
  group_based_on_deviation 0 threshold data s = (Raise ZeroDivisionError, s).
Proof.
  intros Hx. unfold group_based_on_deviation, bind.
  now rewrite (group_randomly_zero data s xs Hx).
Qed.

Lemma init_zero (threshold : float) (df : DataFrame) (is_based_on_gender : bool)
    (s : State) :
  In WEIGHT_COLUMN (df_columns df) ->
  In SEX_COLUMN (df_columns df) ->
  fst (init 0 threshold df is_based_on_gender s) = Raise ZeroDivisionError.
Proof.
  intros Hw Hs. destruct is_based_on_gender.
  - rewrite (init_gender_run 0 threshold df s Hw Hs).
    rewrite (group_based_on_deviation_zero threshold _ _
               (weights_of_sex "F" df)); [reflexivity |].
    cbn [heap]. rewrite nth_error_app1.
    + apply nth_error_fresh.
    + rewrite !length_app. simpl. lia.
  - rewrite (init_plain_run 0 threshold df s Hw Hs).
    rewrite (group_based_on_deviation_zero threshold _ _ (df_weight df));
      [reflexivity |].
    cbn [heap]. apply nth_error_fresh.
Qed.

(** X9.  With [group_amount = 0] nothing is grouped: the Partitioner and the
    search raise [ZeroDivisionError] before the array is shuffled or a
    draw is taken, and so does [__init__] on a table with both columns;
    [distribute_data_evenly] alone returns no group for no data and
    raises on the first value otherwise. *)
Theorem zero_groups_divide_by_zero (threshold : float) :
  (forall data s xs,
      nth_error (heap s) data = Some xs ->
      group_randomly 0 data s = (Raise ZeroDivisionError, s)
      /\ group_based_on_deviation 0 threshold data s
         = (Raise ZeroDivisionError, s))
  /\ (forall df is_based_on_gender s,
         In WEIGHT_COLUMN (df_columns df) ->
         In SEX_COLUMN (df_columns df) ->
         fst (init 0 threshold df is_based_on_gender s)
         = Raise ZeroDivisionError)
  /\ distribute_data_evenly 0 [] = Ok []
  /\ (forall x xs, distribute_data_evenly 0 (x :: xs) = Raise ZeroDivisionError)
  /\ kind_of ZeroDivisionError = Unclassified.
Proof.
  split; [| split; [| split; [| split]]].
  - intros data s xs Hx. split.
    + now apply (group_randomly_zero data s xs).
    + now apply (group_based_on_deviation_zero threshold data s xs).
  - intros df gender s. apply init_zero.
  - reflexivity.
  - reflexivity.
  - reflexivity.
Qed.

(** ** The failures of [__init__] *)

Lemma init_missing_column (g : nat) (threshold : float) (df : DataFrame)
    (is_based_on_gender : bool) (s : State) :
  ~ In WEIGHT_COLUMN (df_columns df) \/ ~ In SEX_COLUMN (df_columns df) ->
  init g threshold df is_based_on_gender s = (Raise ValueError_columns, s).
Proof.
  intros H. unfold init.
  assert (E : negb (existsb (String.eqb WEIGHT_COLUMN) (df_columns df))
              || negb (existsb (String.eqb SEX_COLUMN) (df_columns df))
              = true).
  { apply orb_true_iff. destruct H as [H | H]; [left | right];
      apply negb_true_iff;
      (destruct (existsb _ _) eqn:E; [| reflexivity]);
      apply existsb_eqb_In in E; contradiction. }
  now rewrite E.
Qed.

(** X10.  The failures of [__init__] for a group count that is not
    negative, whatever the table (with numeric weights, as [DataFrame]
    has them), the threshold and the mode.  It fails with the
    missing-column error exactly when a column is missing, and with
    [ZeroDivisionError] exactly when both columns are there and
    [group_amount] is 0.  With both columns and [group_amount >= 1] it
    returns an object or fails with numpy's error on a ragged partition
    or with [OverRetryException].  It never fails with [IndexError],
    with the shape error of [convert_to_df] or with the length error of
    pandas. *)
Theorem init_failures (g : nat) (threshold : float) (df : DataFrame)
    (is_based_on_gender : bool) (s : State) :
  (fst (init g threshold df is_based_on_gender s) = Raise ValueError_columns
   <-> (~ In WEIGHT_COLUMN (df_columns df)
        \/ ~ In SEX_COLUMN (df_columns df)))
  /\ (fst (init g threshold df is_based_on_gender s) = Raise ZeroDivisionError
      <-> (In WEIGHT_COLUMN (df_columns df)
           /\ In SEX_COLUMN (df_columns df) /\ g = 0))
  /\ match fst (init g threshold df is_based_on_gender s) with
     | Ok _ =>
         In WEIGHT_COLUMN (df_columns df)
         /\ In SEX_COLUMN (df_columns df) /\ 1 <= g
     | Raise e =>
         (e = ValueError_columns
          /\ (~ In WEIGHT_COLUMN (df_columns df)
              \/ ~ In SEX_COLUMN (df_columns df)))
         \/ (e = ZeroDivisionError
             /\ In WEIGHT_COLUMN (df_columns df)
             /\ In SEX_COLUMN (df_columns df) /\ g = 0)
         \/ ((e = ValueError_inhomogeneous
              \/ e = OverRetryException MAX_RETRIES)
             /\ In WEIGHT_COLUMN (df_columns df)
             /\ In SEX_COLUMN (df_columns df) /\ 1 <= g)
     | OutOfFuel => False
     end.
Proof.
  assert (Hmatch :
    match fst (init g threshold df is_based_on_gender s) with
    | Ok _ =>
        In WEIGHT_COLUMN (df_columns df)
        /\ In SEX_COLUMN (df_columns df) /\ 1 <= g
    | Raise e =>
        (e = ValueError_columns
         /\ (~ In WEIGHT_COLUMN (df_columns df)
             \/ ~ In SEX_COLUMN (df_columns df)))
        \/ (e = ZeroDivisionError
            /\ In WEIGHT_COLUMN (df_columns df)
            /\ In SEX_COLUMN (df_columns df) /\ g = 0)
        \/ ((e = ValueError_inhomogeneous
             \/ e = OverRetryException MAX_RETRIES)
            /\ In WEIGHT_COLUMN (df_columns df)
            /\ In SEX_COLUMN (df_columns df) /\ 1 <= g)
    | OutOfFuel => False
    end).
  { destruct (in_dec string_dec WEIGHT_COLUMN (df_columns df)) as [Hw | Hw];
      [destruct (in_dec string_dec SEX_COLUMN (df_columns df)) as [Hs | Hs] |].
    - destruct (Nat.eq_dec g 0) as [-> | Hg].
      + rewrite (init_zero threshold df is_based_on_gender s Hw Hs).
        right. left. auto.
      + assert (Hg1 : 1 <= g) by lia.
        destruct is_based_on_gender.
        * destruct (init_gender_cases g threshold df s Hg1 Hw Hs)
            as [[obj [s' [gf [gm [E H]]]]] | [[s' [E H]] | [s' [E H]]]];
            rewrite E; simpl; auto; right; right; auto.
        * destruct (init_plain_cases g threshold df s Hg1 Hw Hs)
            as [[obj [s' [E H]]] | [[s' [E H]] | [s' [E H]]]];
            rewrite E; simpl; auto; right; right; auto.
    - rewrite (init_missing_column g threshold df is_based_on_gender s)
        by tauto.
      simpl. auto.
    - rewrite (init_missing_column g threshold df is_based_on_gender s)
        by tauto.
      simpl. auto. }
  split; [| split; [| exact Hmatch]].
  - split.
    + intros E. rewrite E in Hmatch.
      destruct Hmatch as [[_ H] | [[H _] | [[H | H] _]]];
        [exact H | discriminate | discriminate | discriminate].
    + intros H.
      now rewrite (init_missing_column g threshold df is_based_on_gender s).
  - split.
    + intros E. rewrite E in Hmatch.
      destruct Hmatch as [[H _] | [[_ H] | [[H | H] _]]];
        [discriminate | exact H | discriminate | discriminate].
    + intros [Hw [Hs ->]]. now apply init_zero.
Qed.

(** ** Equal weights *)

(** The search accepts the first candidate whenever the check accepts
    every deal of the values. *)
Lemma group_based_on_deviation_first (g : nat) (threshold : float) (data : ref)
    (s : State) (values : list float) :
  0 < g ->
  nth_error (heap s) data = Some values ->
  (forall shuffled groups,
      Permutation shuffled values ->
      distribute_data_evenly g shuffled = Ok groups ->
      check_std_deviation_within_threshold threshold groups = Ok false) ->
  exists shuffled groups,
    group_based_on_deviation g threshold data s
    = (Ok groups,
       mkState (draws s) (cursor s + (length values - 1))
               (list_set data shuffled (heap s)) (false :: verdicts s))
    /\ Permutation shuffled values
    /\ distribute_data_evenly g shuffled = Ok groups.
Proof.
  intros Hg Hx Hacc.
  destruct (group_randomly_spec g data s values Hg Hx)
    as [shuffled [groups [E [P D]]]].
  exists shuffled, groups. split; [| auto].
  unfold group_based_on_deviation, bind. rewrite E.
  rewrite deviation_loop_step, (Hacc shuffled groups P D). reflexivity.
Qed.

(** The product of a zero and a finite threshold is a zero. *)
Lemma zero_times_finite (z t : float) :
  (z =? 0)%float = true ->
  (neg_infinity <? t)%float = true -> (t <? infinity)%float = true ->
  (z * t =? 0)%float = true.
Proof.
  rewrite !FloatAxioms.eqb_spec, !ltb_spec, mul_spec.
  change (Prim2SF 0) with (S754_zero false).
  change (Prim2SF neg_infinity) with (S754_infinity true).
  change (Prim2SF infinity) with (S754_infinity false).
  destruct (Prim2SF z) as [sz | sz | | sz mz ez]; try discriminate;
    try (destruct sz; discriminate).
  intros _.
  destruct (Prim2SF t) as [st | st | | st mt et]; try discriminate;
    try (destruct st; discriminate); reflexivity.
Qed.

(** A bound that is a zero is exceeded by every positive deviation. *)
Lemma zero_bound_exceeded (bound x : float) :
  (bound =? 0)%float = true -> (0 <? x)%float = true ->
  (bound <? x)%float = true.
Proof.
  rewrite FloatAxioms.eqb_spec, !ltb_spec.
  change (Prim2SF 0) with (S754_zero false).
  destruct (Prim2SF bound) as [s | s | | s m e]; try discriminate;
    try (destruct s; discriminate).
  intros _ H. exact H.
Qed.

(** Whatever the threshold, its product with a zero (a zero or [nan]) is
    not exceeded by a deviation that is a zero. *)
Lemma zero_times_not_exceeded (z t x : float) :
  (z =? 0)%float = true -> (x =? 0)%float = true ->
  (z * t <? x)%float = false.
Proof.
  rewrite !FloatAxioms.eqb_spec, !ltb_spec, mul_spec.
  change (Prim2SF 0) with (S754_zero false).
  destruct (Prim2SF z) as [sz | sz | | sz mz ez]; try discriminate;
    try (destruct sz; discriminate).
  destruct (Prim2SF x) as [sx | sx | | sx mx ex]; try discriminate;
    try (destruct sx; discriminate).
  intros _ _.
  destruct (Prim2SF t) as [st | st | | st mt et]; try reflexivity.
Qed.

Lemma nine_tenths_rejected (threshold : float) :
  (neg_infinity <? threshold)%float = true ->
  (threshold <? infinity)%float = true ->
  check_std_deviation_within_threshold threshold
    [[0.1; 0.1; 0.1]; [0.1; 0.1; 0.1]; [0.1; 0.1; 0.1]]%float = Ok true.
Proof.
  intros H1 H2. unfold check_std_deviation_within_threshold, np_std_nested.
  cbn [homogeneous forallb length Nat.eqb andb concat app map].
  replace (np_std [0.1; 0.1; 0.1; 0.1; 0.1; 0.1; 0.1; 0.1; 0.1]%float)
    with 0%float by (vm_compute; reflexivity).
  replace (np_std [0.1; 0.1; 0.1]%float) with 1.3877787807814457e-17%float
    by (vm_compute; reflexivity).
  cbn [existsb].
  rewrite (zero_bound_exceeded (0 * threshold) 1.3877787807814457e-17);
    [reflexivity | | reflexivity].
  now apply zero_times_finite.
Qed.

Lemma eight_tens_accepted (threshold : float) :
  check_std_deviation_within_threshold threshold
    [[10; 10]; [10; 10]; [10; 10]; [10; 10]]%float = Ok false.
Proof.
  unfold check_std_deviation_within_threshold, np_std_nested.
  cbn [homogeneous forallb length Nat.eqb andb concat app map].
  replace (np_std [10; 10; 10; 10; 10; 10; 10; 10]%float)
    with 0%float by (vm_compute; reflexivity).
  replace (np_std [10; 10]%float) with 0%float by (vm_compute; reflexivity).
  cbn [existsb].
  rewrite (zero_times_not_exceeded 0 threshold 0) by reflexivity.
  reflexivity.
Qed.

(** X5.  Equal weights are not sure to be accepted.  With nine weights
    0.1 and three groups every candidate is the same partition; numpy
    computes the deviation 1.39e-17 for each group and 0 for the nine,
    so at every finite threshold every candidate is rejected and the
    search raises [OverRetryException] after 1001 rejections, whatever
    the draws.  With eight weights 10 and four groups (scenario 7 of the
    specification) all the computed deviations are 0 and the first
    candidate is returned, at every threshold and whatever the draws. *)
Theorem search_on_equal_weights (tape : nat -> nat) :
  (forall threshold : float,
      (neg_infinity <? threshold)%float = true ->
      (threshold <? infinity)%float = true ->
      exists s',
        group_based_on_deviation 3 threshold 0
          (state_with tape [repeat 0.1%float 9])
        = (Raise (OverRetryException 1000), s')
        /\ verdicts s' = repeat true 1001)
  /\ map np_std [[0.1; 0.1; 0.1]; [0.1; 0.1; 0.1]; [0.1; 0.1; 0.1]]%float
     = [1.3877787807814457e-17; 1.3877787807814457e-17;
        1.3877787807814457e-17]%float
  /\ np_std (repeat 0.1%float 9) = 0%float
  /\ (forall threshold : float,
      exists s',
        group_based_on_deviation 4 threshold 0
          (state_with tape [repeat 10%float 8])
        = (Ok [[10; 10]; [10; 10]; [10; 10]; [10; 10]]%float, s')
        /\ verdicts s' = [false]
        /\ cursor s' = 7
        /\ heap s' = [repeat 10%float 8]).
Proof.
  split; [| split; [| split]].
  - intros threshold H1 H2.
    destruct (group_based_on_deviation_exhausts 3 threshold 0
                (repeat 0.1%float 9)
                (state_with tape [repeat 0.1%float 9]) ltac:(lia))
      as [s' [E [Hv _]]].
    + intros ys Hp. apply Permutation_repeat in Hp. subst ys.
      eexists. split; [reflexivity |]. now apply nine_tenths_rejected.
    + reflexivity.
    + exists s'. split; [exact E |]. rewrite Hv. now rewrite app_nil_r.
  - vm_compute. reflexivity.
  - vm_compute. reflexivity.
  - intros threshold.
    destruct (group_based_on_deviation_first 4 threshold 0
                (state_with tape [repeat 10%float 8]) (repeat 10%float 8)
                ltac:(lia) eq_refl) as [shuffled [groups [E [P D]]]].
    + intros shuffled groups Hp D.
      apply Permutation_repeat in Hp. subst shuffled.
      vm_compute in D. injection D as <-. apply eight_tens_accepted.
    + apply Permutation_repeat in P. subst shuffled.
      vm_compute in D. injection D as <-.
      eexists. split; [exact E |]. repeat split.
Qed.

(** ** Tables *)

Lemma column_name_inj (i j : nat) : column_name i = column_name j -> i = j.
Proof.
  unfold column_name. cbn [String.append]. intros H. injection H as H.
  apply (f_equal NilEmpty.uint_of_string) in H.
  rewrite !NilEmpty.usu in H. injection H as H.
  apply DecimalNat.Unsigned.to_uint_inj in H. lia.
Qed.

Lemma column_names_NoDup (i n : nat) : NoDup (map column_name (seq i n)).
Proof.
  revert i. induction n as [| n IH]; intros i; simpl; constructor.
  - intros Hin. apply in_map_iff in Hin. destruct Hin as [j [E Hj]].
    apply column_name_inj in E. apply in_seq in Hj. lia.
  - apply IH.
Qed.

Lemma setitem_invariants (df fr : Frame) (key : string) (values : list float) :
  setitem df key values = Ok fr ->
  Forall (fun c => length (snd c) = index_length df) (frame_columns df) ->
  map fst (frame_columns fr) = map fst (frame_columns df) ++ [key]
  /\ Forall (fun c => length (snd c) = index_length fr) (frame_columns fr).
Proof.
  unfold setitem. intros H Hrect.
  destruct ((index_length df =? 0) && negb (length values =? 0)) eqn:Ec;
    cbn [index_length frame_columns] in H.
  - rewrite Nat.eqb_refl in H. injection H as <-.
    cbn [index_length frame_columns]. split.
    + rewrite map_app, map_map. reflexivity.
    + apply Forall_app. split.
      * apply Forall_forall. intros c Hc. apply in_map_iff in Hc.
        destruct Hc as [c' [<- _]]. apply repeat_length.
      * repeat constructor. apply length_map.
  - destruct (Nat.eqb_spec (length values) (index_length df)) as [E | E];
      [| discriminate].
    injection H as <-. cbn [index_length frame_columns]. split.
    + now rewrite map_app.
    + apply Forall_app. split; [exact Hrect |].
      repeat constructor. cbn [snd]. now rewrite length_map.
Qed.

Lemma convert_loop_invariants :
  forall (groups : list (list float)) (i : nat) (df fr : Frame),
    convert_loop i groups df = Ok fr ->
    Forall (fun c => length (snd c) = index_length df) (frame_columns df) ->
    map fst (frame_columns fr)
    = map fst (frame_columns df) ++ map column_name (seq i (length groups))
    /\ Forall (fun c => length (snd c) = index_length fr) (frame_columns fr).
Proof.
  induction groups as [| group rest IH]; intros i df fr H Hrect.
  - simpl in H. injection H as <-. simpl. now rewrite app_nil_r.
  - cbn [convert_loop] in H.
    destruct (setitem df (column_name i) group) as [df' | e |] eqn:E;
      try discriminate.
    destruct (setitem_invariants df df' _ _ E Hrect) as [Hn Hr].
    destruct (IH (S i) df' fr H Hr) as [Hn' Hr'].
    split; [| exact Hr'].
    rewrite Hn', Hn, <- app_assoc. reflexivity.
Qed.

(** X11.  A table [convert_to_df] returns has one column for every group it
    was given (also beyond [group_amount]), labelled "Group 1",
    "Group 2", ... in order; the labels are pairwise distinct, so no
    column replaces another; and every column has one cell per row of
    the index. *)
Theorem convert_to_df_table (g : nat) (groups : list (list float)) (fr : Frame) :
  convert_to_df g groups = Ok fr ->
  g <= length groups
  /\ map fst (frame_columns fr) = map column_name (seq 0 (length groups))
  /\ NoDup (map fst (frame_columns fr))
  /\ Forall (fun c => length (snd c) = index_length fr) (frame_columns fr).
Proof.
  unfold convert_to_df. intros H.
  destruct (Nat.ltb_spec (length groups) g) as [Hlt | Hge]; [discriminate |].
  destruct (convert_loop_invariants groups 0 empty_frame fr H) as [Hn Hr];
    [constructor |].
  simpl in Hn. split; [exact Hge |]. split; [exact Hn |].
  split; [rewrite Hn; apply column_names_NoDup | exact Hr].
Qed.

Lemma convert_to_df_table_witness :
  convert_to_df 1 [[]; [1; 2]; [3; 4]]%float
  = Ok (mkFrame 2 [("Group 1"%string, [None; None]);
                   ("Group 2"%string, [Some 1%float; Some 2%float]);
                   ("Group 3"%string, [Some 3%float; Some 4%float])])
  /\ 1 <= length [[]; [1; 2]; [3; 4]]%float
  /\ map fst (frame_columns
                (mkFrame 2 [("Group 1"%string, [None; None]);
                            ("Group 2"%string, [Some 1%float; Some 2%float]);
                            ("Group 3"%string, [Some 3%float; Some 4%float])]))
     = map column_name (seq 0 (length [[]; [1; 2]; [3; 4]]%float))
  /\ NoDup (map fst (frame_columns
                       (mkFrame 2 [("Group 1"%string, [None; None]);
                                   ("Group 2"%string, [Some 1%float; Some 2%float]);
                                   ("Group 3"%string, [Some 3%float; Some 4%float])])))
  /\ Forall (fun c => length (snd c)
                      = index_length
                          (mkFrame 2 [("Group 1"%string, [None; None]);
                                      ("Group 2"%string, [Some 1%float; Some 2%float]);
                                      ("Group 3"%string, [Some 3%float; Some 4%float])]))
            (frame_columns
               (mkFrame 2 [("Group 1"%string, [None; None]);
                           ("Group 2"%string, [Some 1%float; Some 2%float]);
                           ("Group 3"%string, [Some 3%float; Some 4%float])])).
Proof.
  split; [reflexivity |].
  apply (convert_to_df_table 1 [[]; [1; 2]; [3; 4]]%float). reflexivity.
Defined.

(** ** The script *)

Lemma labelled_names (columns : list (list (option float))) :
  forall i, map fst (labelled i columns)
            = map column_name (seq i (length columns)).
Proof.
  induction columns as [| c columns IH]; intros i; [reflexivity |].
  rewrite labelled_cons. cbn [map fst length seq]. now rewrite IH.
Qed.

(** A list that holds one [b] among [n] values [a]. *)
Lemma Permutation_one_among (A : Type) (a b : A) (n : nat) (ys : list A) :
  Permutation ys (repeat a n ++ [b]) ->
  exists i, i <= n /\ ys = repeat a i ++ b :: repeat a (n - i).
Proof.
  intros P.
  assert (P' : Permutation ys (b :: repeat a n)).
  { eapply perm_trans; [exact P |].
    apply Permutation_sym, Permutation_cons_append. }
  destruct (Permutation_vs_cons_inv P') as [l1 [l2 ->]].
  apply Permutation_sym, Permutation_cons_app_inv in P'.
  apply Permutation_sym, Permutation_repeat in P'.
  pose proof (f_equal (@length A) P') as Hlen.
  rewrite length_app, repeat_length in Hlen.
  symmetry in P'. destruct (repeat_eq_app _ _ _ _ P') as [E1 E2].
  exists (length l1). split; [lia |].
  replace (n - length l1) with (length l2) by lia.
  now rewrite E1, E2.
Qed.

(** Nine females of weight 0 and one of weight 1, in five groups under
    the threshold 1.3: whatever the deal, the group that holds the 1 has
    the deviation 0.5, above 1.3 times the deviation 0.3 of the ten. *)
Lemma nine_zeros_and_a_one_rejected (ys : list float) :
  Permutation ys (repeat 0%float 9 ++ [1%float]) ->
  exists groups,
    distribute_data_evenly 5 ys = Ok groups
    /\ check_std_deviation_within_threshold 1.3 groups = Ok true.
Proof.
  intros P. destruct (Permutation_one_among _ _ _ _ _ P) as [i [Hi ->]].
  do 10 (destruct i as [| i];
         [eexists; split; [reflexivity | vm_compute; reflexivity] |]).
  lia.
Qed.

(** X12.  The script on any table with numeric weights.  It prints the
    table of the female groups, the line about the file format or the
    line about the deviation, never the line of the last [except]
    clause.  It prints the table only if both columns are there and the
    numbers of females and of males are multiples of 5; the table has
    the 5 columns "Group 1" to "Group 5" and one row per fifth of the
    females.  It prints the format line whenever a column is missing and
    whenever the number of females is no multiple of 5, and only if a
    column is missing or one of the two numbers is no multiple of 5.  It
    prints the deviation line only if both columns are there and the
    number of females is a multiple of 5; the number of males need not
    be one, for the search among the females comes first: with nine
    females of weight 0, one of weight 1 and a single male it prints the
    deviation line, whatever the draws. *)
Theorem main_prints :
  (forall df s,
      match fst (main df s) with
      | Ok (PrintFrame table) =>
          In WEIGHT_COLUMN (df_columns df) /\ In SEX_COLUMN (df_columns df)
          /\ length (weights_of_sex "F" df) mod 5 = 0
          /\ length (weights_of_sex "M" df) mod 5 = 0
          /\ index_length table = length (weights_of_sex "F" df) / 5
          /\ map fst (frame_columns table) = map column_name (seq 0 5)
      | Ok (PrintLine line) =>
          (line = format_line
           /\ (~ In WEIGHT_COLUMN (df_columns df)
               \/ ~ In SEX_COLUMN (df_columns df)
               \/ length (weights_of_sex "F" df) mod 5 <> 0
               \/ length (weights_of_sex "M" df) mod 5 <> 0))
          \/ (line = deviation_line
              /\ In WEIGHT_COLUMN (df_columns df)
              /\ In SEX_COLUMN (df_columns df)
              /\ length (weights_of_sex "F" df) mod 5 = 0)
      | Raise _ => False
      | OutOfFuel => False
      end)
  /\ (forall df s,
         ~ In WEIGHT_COLUMN (df_columns df) \/ ~ In SEX_COLUMN (df_columns df)
         \/ length (weights_of_sex "F" df) mod 5 <> 0 ->
         fst (main df s) = Ok (PrintLine format_line))
  /\ (forall s,
         length (weights_of_sex "M"
                   (mkDataFrame ["Weight"; "Sex"]%string
                      [0; 0; 0; 0; 0; 0; 0; 0; 0; 1; 5]%float
                      ["F"; "F"; "F"; "F"; "F"; "F"; "F"; "F"; "F"; "F";
                       "M"]%string)) mod 5 <> 0
         /\ fst (main (mkDataFrame ["Weight"; "Sex"]%string
                         [0; 0; 0; 0; 0; 0; 0; 0; 0; 1; 5]%float
                         ["F"; "F"; "F"; "F"; "F"; "F"; "F"; "F"; "F"; "F";
                          "M"]%string) s)
            = Ok (PrintLine deviation_line)).
Proof.
  assert (Hcases : forall df s,
    match fst (main df s) with
    | Ok (PrintFrame table) =>
        In WEIGHT_COLUMN (df_columns df) /\ In SEX_COLUMN (df_columns df)
        /\ length (weights_of_sex "F" df) mod 5 = 0
        /\ length (weights_of_sex "M" df) mod 5 = 0
        /\ index_length table = length (weights_of_sex "F" df) / 5
        /\ map fst (frame_columns table) = map column_name (seq 0 5)
    | Ok (PrintLine line) =>
        (line = format_line
         /\ (~ In WEIGHT_COLUMN (df_columns df)
             \/ ~ In SEX_COLUMN (df_columns df)
             \/ length (weights_of_sex "F" df) mod 5 <> 0
             \/ length (weights_of_sex "M" df) mod 5 <> 0))
        \/ (line = deviation_line
            /\ In WEIGHT_COLUMN (df_columns df)
            /\ In SEX_COLUMN (df_columns df)
            /\ length (weights_of_sex "F" df) mod 5 = 0)
    | Raise _ => False
    | OutOfFuel => False
    end).
  { intros df s. unfold main.
    destruct (in_dec string_dec WEIGHT_COLUMN (df_columns df)) as [Hw | Hw];
      [destruct (in_dec string_dec SEX_COLUMN (df_columns df)) as [Hs | Hs] |].
    - destruct (init_gender_cases 5 1.3 df s ltac:(lia) Hw Hs)
        as [[obj [s' [gf [gm [E H]]]]] | [[s' [E H]] | [s' [E H]]]];
        rewrite E.
      + destruct H as (Hf & Hm & _ & _ & _ & _ & _ & Hof & _ & _ & _ & _ & _
                       & Hlf & _).
        rewrite Hof. cbn [fst index_length frame_columns].
        repeat (split; [assumption |]). split; [reflexivity |].
        now rewrite labelled_names, length_map, Hlf.
      + cbn [fst]. right. auto.
      + cbn [fst]. left. split; [reflexivity |]. tauto.
    - rewrite (init_missing_column 5 _ df true s) by tauto.
      cbn [fst]. left. split; [reflexivity |]. tauto.
    - rewrite (init_missing_column 5 _ df true s) by tauto.
      cbn [fst]. left. split; [reflexivity |]. tauto. }
  split; [exact Hcases |]. split.
  - intros df s H. unfold main.
    destruct (in_dec string_dec WEIGHT_COLUMN (df_columns df)) as [Hw | Hw];
      [destruct (in_dec string_dec SEX_COLUMN (df_columns df)) as [Hs | Hs] |].
    + destruct H as [H | [H | H]]; [contradiction | contradiction |].
      destruct (init_gender_cases 5 1.3 df s ltac:(lia) Hw Hs)
        as [[obj [s' [gf [gm [E [Hf _]]]]]] | [[s' [E Hf]] | [s' [E _]]]];
        [contradiction | contradiction |].
      rewrite E. reflexivity.
    + rewrite (init_missing_column 5 _ df true s) by tauto. reflexivity.
    + rewrite (init_missing_column 5 _ df true s) by tauto. reflexivity.
  - intros s. split; [vm_compute; discriminate |].
    unfold main.
    rewrite (init_gender_run 5 1.3 _ s)
      by (unfold WEIGHT_COLUMN, SEX_COLUMN; simpl; tauto).
    match goal with
    | |- context [group_based_on_deviation 5 1.3 ?d ?st] =>
        destruct (group_based_on_deviation_exhausts 5 1.3 d
                    (repeat 0%float 9 ++ [1%float]) st ltac:(lia)
                    nine_zeros_and_a_one_rejected)
          as [s' [E _]]
    end.
    + cbn [heap df_weight]. rewrite nth_error_app1.
      * apply nth_error_fresh.
      * rewrite !length_app. simpl. lia.
    + rewrite E. reflexivity.
Qed.

